(** * Falcon block of the distributed inference server: KV-cache layouts,
      graph-accelerated decode sites, speculative verification, sessions.

    The development follows the Python sources:
    - [src/petals/models/falcon/block.py]   (module [Falcon], [GraphSite]),
    - [src/petals/client/remote_generation.py] (module [RemoteGeneration]),
    - [src/petals/server/block_utils.py]       (module [BlockUtils]),
    - [tests/test_speculative_generation.py]   (module [Speculative]),
    - [tests/test_block_exact_match.py]        (module [Session]).

    Tensors are modelled by their logical content: a shape and the elements
    in row-major order.  Python exceptions are values of [exn]. *)

From stdpp Require Import prelude gmap strings.

(** ** Exceptions and fallible results *)

Inductive exn : Type :=
  | ZeroDivisionError            (* [a // 0] *)
  | ValueError (msg : string)    (* tuple unpacking of the wrong arity, ... *)
  | IndexError                   (* index out of range *)
  | AttributeError               (* attribute read before it was set *)
  | TypeError                    (* [None] used as a tuple or a tensor *)
  | AssertionError               (* a failed [assert] *)
  | RuntimeError (msg : string). (* raised by the tensor library *)

Inductive result (A : Type) : Type :=
  | Ok (a : A)
  | Raise (e : exn).
Arguments Ok {A} a.
Arguments Raise {A} e.

Definition rbind {A B} (r : result A) (k : A → result B) : result B :=
  match r with
  | Ok a => k a
  | Raise e => Raise e
  end.

Notation "x ←r e1 ; e2" := (rbind e1 (λ x, e2))
  (at level 100, e1 at next level, e2 at level 200, right associativity,
   format "x  ←r  e1 ;  '/' e2").

(** ** The tensor library, as far as the block uses it *)

Module Torch.

(** The message of the error [view]/[reshape] raise on a size mismatch
    ("shape '[...]' is invalid for input of size N"). *)
Definition shape_invalid : exn := RuntimeError "shape is invalid for input size".
Definition expand_invalid : exn :=
  RuntimeError "the expanded size must match the existing size".

Record tensor (A : Type) : Type := Tensor { shape : list nat; data : list A }.
Arguments Tensor {A} shape data.
Arguments shape {A} t.
Arguments data {A} t.

(** Number of elements of a shape. *)
Definition numel (s : list nat) : nat := foldr Nat.mul 1 s.

(** A tensor holds exactly as many elements as its shape says. *)
Definition well_formed {A} (t : tensor A) : Prop :=
  length (data t) = numel (shape t).

(** Python's [a // b] on sizes. *)
Definition floordiv (a b : nat) : result nat :=
  if decide (b = 0) then Raise ZeroDivisionError else Ok (a `div` b).

(** [n] consecutive chunks of [size] elements each. *)
Fixpoint chunks {A} (n size : nat) (l : list A) : list (list A) :=
  match n with
  | 0 => []
  | S n' => take size l :: chunks n' size (drop size l)
  end.

Section ops.
Context {A : Type}.
Implicit Types t : tensor A.

(** [t.view(new_shape)].  The block only splits the leading dimension,
    which every stride pattern allows, or merges the two leading
    dimensions of the selection [state[:, :, 0]], whose strides allow it
    (the stride of the first is the size times the stride of the second);
    so the only failure is a differing number of elements. *)
Definition view (new_shape : list nat) t : result (tensor A) :=
  if decide (numel new_shape = numel (shape t))
  then Ok (Tensor new_shape (data t))
  else Raise shape_invalid.

(** [t.reshape(new_shape)]: as [view], copying when the strides
    require it; the logical content is the same. *)
Definition reshape (new_shape : list nat) t : result (tensor A) :=
  if decide (numel new_shape = numel (shape t))
  then Ok (Tensor new_shape (data t))
  else Raise shape_invalid.

(** Broadcast dimension [k] (of size 1) to size [g]: every block of
    the trailing dimensions is repeated [g] times. *)
Definition expand_dim (k g : nat) t : tensor A :=
  let outer := numel (take k (shape t)) in
  let inner := numel (drop (S k) (shape t)) in
  Tensor (<[k:=g]> (shape t))
         (mjoin ((λ c, mjoin (replicate g c)) <$> chunks outer inner (data t))).

(** [t.expand(sizes)] from dimension [k] on; [None] stands for [-1]
    (keep the dimension). *)
Fixpoint expand_from (k : nat) (sizes : list (option nat)) t : result (tensor A) :=
  match sizes with
  | [] => Ok t
  | None :: rest => expand_from (S k) rest t
  | Some g :: rest =>
      match shape t !! k with
      | Some n =>
          if decide (n = g) then expand_from (S k) rest t
          else if decide (n = 1) then expand_from (S k) rest (expand_dim k g t)
          else Raise expand_invalid
      | None => Raise expand_invalid
      end
  end.

(** [t.expand(sizes)]: sizes beyond the tensor's rank stand for new
    leading dimensions, which must be given explicitly. *)
Definition expand (sizes : list (option nat)) t : result (tensor A) :=
  let extra := length sizes - length (shape t) in
  if decide (length (shape t) ≤ length sizes
             ∧ Forall is_Some (take extra sizes))
  then expand_from 0 sizes (Tensor (replicate extra 1 ++ shape t) (data t))
  else Raise expand_invalid.

(** [t.select(k, i)], the meaning of [t[:, :, i]] for [k = 2]. *)
Definition select (k i : nat) t : result (tensor A) :=
  match shape t !! k with
  | Some n =>
      if decide (i < n) then
        let outer := numel (take k (shape t)) in
        let inner := numel (drop (S k) (shape t)) in
        Ok (Tensor (delete k (shape t))
                   (mjoin ((λ c, take inner (drop (i * inner) c))
                             <$> chunks outer (n * inner) (data t))))
      else Raise IndexError
  | None => Raise IndexError
  end.

(** [t[:, start:stop]]: a slice along dimension 1; as in Python the
    bounds are clamped to the size of the dimension. *)
Definition slice1 (start stop : nat) t : result (tensor A) :=
  match shape t with
  | n0 :: n1 :: rest =>
      let inner := numel rest in
      let len := stop `min` n1 - start `min` n1 in
      Ok (Tensor (n0 :: len :: rest)
                 (mjoin ((λ c, take (len * inner) (drop (start `min` n1 * inner) c))
                           <$> chunks n0 (n1 * inner) (data t))))
  | _ => Raise IndexError
  end.

(** Row [r] of a tensor: the elements at index [r] of dimension 0. *)
Definition row t (r : nat) : list A :=
  let inner := numel (tail (shape t)) in
  take inner (drop (r * inner) (data t)).

(** The elements of a [rows × cols] matrix, stored row by row, in the
    order of its transpose. *)
Definition transpose_flat (rows cols : nat) (l : list A) : list A :=
  omap (λ k, l !! (k `mod` rows * cols + k `div` rows)) (seq 0 (rows * cols)).

(** [t.permute(0, 2, 1)]: the last two dimensions of a 3-D tensor change
    places. *)
Definition permute_0_2_1 t : result (tensor A) :=
  match shape t with
  | [n0; n1; n2] =>
      Ok (Tensor [n0; n2; n1]
                 (mjoin (transpose_flat n1 n2 <$> chunks n0 (n1 * n2) (data t))))
  | _ => Raise (RuntimeError "number of dims does not match in permute")
  end.

(** [torch.cat((a, b), dim=1)].  A tensor without dimensions is refused;
    an empty one-dimensional tensor is skipped; otherwise dimension 1
    must exist in the first tensor, and the two must have the same number
    of dimensions and agree in all sizes but that of dimension 1. *)
Definition cat_dim1 (a b : tensor A) : result (tensor A) :=
  if decide (shape a = [] ∨ shape b = []) then
    Raise (RuntimeError "zero-dimensional tensor cannot be concatenated")
  else if decide (shape a = [0]) then
    if decide (shape b = [0]) then Ok (Tensor [0] [])
    else if decide (2 ≤ length (shape b)) then Ok b else Raise IndexError
  else if decide (shape b = [0]) then
    if decide (2 ≤ length (shape a)) then Ok a else Raise IndexError
  else
    match shape a, shape b with
    | n0 :: na :: rest, m0 :: nb :: rest' =>
        if decide (n0 = m0 ∧ rest = rest') then
          let inner := numel rest in
          Ok (Tensor (n0 :: (na + nb) :: rest)
                     (mjoin (zip_with app (chunks n0 (na * inner) (data a))
                                          (chunks n0 (nb * inner) (data b)))))
        else Raise (RuntimeError "sizes of tensors must match except in dimension 1")
    | _ :: _ :: _, _ =>
        Raise (RuntimeError "tensors must have the same number of dimensions")
    | _, _ => Raise IndexError
    end.

(** [t.view(before..., -1, after...)]: the size written [-1] is inferred
    from the number of elements; the sizes given must be non-zero and
    divide it. *)
Definition view_infer (before after : list nat) t : result (tensor A) :=
  let known := numel before * numel after in
  if decide (known ≠ 0 ∧ numel (shape t) `mod` known = 0)
  then Ok (Tensor (before ++ numel (shape t) `div` known :: after) (data t))
  else Raise shape_invalid.

(** [t.narrow(k, start, len)]: [len] indices of dimension [k] from
    [start] on. *)
Definition narrow (k start len : nat) t : tensor A :=
  let outer := numel (take k (shape t)) in
  let n := default 0 (shape t !! k) in
  let inner := numel (drop (S k) (shape t)) in
  Tensor (<[k:=len]> (shape t))
         (mjoin ((λ c, take (len * inner) (drop (start * inner) c))
                   <$> chunks outer (n * inner) (data t))).

Fixpoint split_from (k start : nat) (sizes : list nat) t : list (tensor A) :=
  match sizes with
  | [] => []
  | len :: rest => narrow k start len t :: split_from k (start + len) rest t
  end.

(** [torch.split(t, sizes, dim=k)]: consecutive pieces of dimension [k];
    the sizes must add up to the size of the dimension. *)
Definition split (sizes : list nat) (k : nat) t : result (list (tensor A)) :=
  match shape t !! k with
  | Some n =>
      if decide (sum_list sizes = n) then Ok (split_from k 0 sizes t)
      else Raise (RuntimeError "split sizes must sum to the size of the dimension")
  | None => Raise IndexError
  end.

(** [t.flatten(2, 3)]: dimensions 2 and 3 become one. *)
Definition flatten_2_3 t : result (tensor A) :=
  match shape t with
  | n0 :: n1 :: n2 :: n3 :: rest => Ok (Tensor (n0 :: n1 :: n2 * n3 :: rest) (data t))
  | _ => Raise IndexError
  end.

(** The [r]-th vector along the last dimension, counting through all the
    leading dimensions. *)
Definition vector t (r : nat) : list A :=
  let h := default 1 (last (shape t)) in take h (drop (r * h) (data t)).
End ops.

End Torch.

(** ** [models/falcon/block.py]: the head-layout converter *)

Module Falcon.
Import Torch.

(** The fields of the model configuration the block reads.
    [num_key_value_groups] is a property of the distributed configuration
    class, which is defined outside this file; it is taken as given. *)
Record FalconConfig : Type := {
  num_attention_heads : nat;
  num_kv_heads : nat;
  num_key_value_groups : nat;
  new_decoder_architecture : bool;
  rotary : bool
}.

(** A configuration is consistent when every key/value head serves a
    non-empty group of query heads and the groups cover the query heads. *)
Definition consistent (cfg : FalconConfig) : Prop :=
  0 < num_kv_heads cfg ∧ 0 < num_key_value_groups cfg ∧
  num_attention_heads cfg = num_kv_heads cfg * num_key_value_groups cfg.

Definition unpack_error : exn := ValueError "not enough values to unpack".

(** [split_heads]: the fused projection is cut into query, key and value
    heads; the key and the value head of a group are broadcast to the
    query heads of the group. *)
Definition split_heads {A} (fused_qkv : tensor A) (num_heads num_kv_heads head_dim : nat)
    : result (tensor A * tensor A * tensor A) :=
  match shape fused_qkv with
  | [batch; seq_len; _] =>
      groups ←r floordiv num_heads num_kv_heads;
      qkv ←r view_infer [batch; seq_len] [groups + 2; head_dim] fused_qkv;
      parts ←r split [groups; 1; 1] 3 qkv;
      match parts with
      | [query; key; value] =>
          key ←r expand (Some <$> shape query) key;
          value ←r expand (Some <$> shape query) value;
          query ←r flatten_2_3 query;
          key ←r flatten_2_3 key;
          value ←r flatten_2_3 value;
          Ok (query, key, value)
      | _ => Raise unpack_error
      end
  | _ => Raise unpack_error
  end.

Section states.
Context {A : Type}.
Variable cfg : FalconConfig.

(** [WrappedFalconBlock._expand_states] *)
Definition _expand_states (state : tensor A) : result (tensor A) :=
  match shape state with
  | [batch_size_x_num_kv_heads; seq_len; head_dim] =>
      batch_size ←r floordiv batch_size_x_num_kv_heads (num_kv_heads cfg);
      state ←r view [batch_size; num_kv_heads cfg; 1; seq_len; head_dim] state;
      state ←r expand [None; None; Some (num_key_value_groups cfg); None; None] state;
      state ←r reshape [batch_size * num_attention_heads cfg; seq_len; head_dim] state;
      Ok state
  | _ => Raise unpack_error
  end.

(** [WrappedFalconBlock._collapse_states] *)
Definition _collapse_states (state : tensor A) : result (tensor A) :=
  match shape state with
  | [batch_size_x_num_attn_heads; seq_len; head_dim] =>
      batch_size ←r floordiv batch_size_x_num_attn_heads (num_attention_heads cfg);
      state ←r view [batch_size; num_kv_heads cfg; num_key_value_groups cfg;
                     seq_len; head_dim] state;
      state ←r select 2 0 state;
      state ←r view [batch_size * num_kv_heads cfg; seq_len; head_dim] state;
      Ok state
  | _ => Raise unpack_error
  end.

(** A key/value cache: the key states and the value states. *)
Definition KVCache : Type := tensor A * tensor A.

(** [WrappedFalconBlock._reorder_cache_from_bloom_to_falcon] *)
Definition _reorder_cache_from_bloom_to_falcon (key_value : KVCache) : result KVCache :=
  let '(key_states, value_states) := key_value in
  key_states ←r permute_0_2_1 key_states;
  if decide (shape key_states = shape value_states) then
    if new_decoder_architecture cfg then
      key_states ←r _expand_states key_states;
      value_states ←r _expand_states value_states;
      Ok (key_states, value_states)
    else Ok (key_states, value_states)
  else Raise AssertionError.

(** [WrappedFalconBlock._reorder_cache_from_falcon_to_bloom] *)
Definition _reorder_cache_from_falcon_to_bloom (key_value : KVCache) : result KVCache :=
  let '(key_states, value_states) := key_value in
  kv ←r (if new_decoder_architecture cfg then
           key_states ←r _collapse_states key_states;
           value_states ←r _collapse_states value_states;
           Ok (key_states, value_states)
         else Ok (key_states, value_states));
  if decide (shape kv.1 = shape kv.2) then
    key_states ←r permute_0_2_1 kv.1;
    Ok (key_states, kv.2)
  else Raise AssertionError.
End states.

End Falcon.


(** ** [models/falcon/block.py]: the graph-accelerated decode sites *)

Module GraphSite.
Import Torch.

(** A tensor object is known by the location of its storage; [detach]
    and the members of a tuple share the location of their source. *)
Definition loc := nat.

(** What the numeric engine is asked to do. *)
Inductive event : Type :=
  | Run                     (* one normal (eager) execution of the operation *)
  | Capture                 (* one execution recorded into a graph *)
  | Copy (dst src : loc)    (* [dst.copy_(src)] *)
  | Replay.                 (* [graph.replay()] *)

Global Instance event_eq_dec : EqDecision event.
Proof. solve_decision. Defined.

(** Model-only outcome: a buffer is read before anything was written to
    it.  The theorems show that the sites never do so. *)
Definition uninitialised : exn := RuntimeError "read of an uninitialised buffer".
Definition not_captured : exn := RuntimeError "replay of a graph that was not captured".

Section machine.
Context {elt : Type}.
Abbreviation T := (tensor elt).

(** A captured graph: the buffers it reads, the recorded computation
    and the buffers it writes.  [torch.cuda.CUDAGraph()] is empty. *)
Record CUDAGraph : Type := {
  recorded : option (list loc * (list T → result (list T)) * list loc)
}.
Definition new_graph : CUDAGraph := {| recorded := None |}.

(** The interpreter state a site runs in: the module object [self],
    the tensor storage, and the global inference-mode flag. *)
Record machine (Self : Type) : Type := Machine {
  self : Self;
  heap : gmap loc T;
  next_loc : loc;
  trace : list event;
  inference_mode : bool   (* [torch.is_inference_mode_enabled()] *)
}.
Arguments Machine {Self}.
Arguments self {Self}.
Arguments heap {Self}.
Arguments next_loc {Self}.
Arguments trace {Self}.
Arguments inference_mode {Self}.

Definition M (Self A : Type) : Type := machine Self → result A * machine Self.

Section monad.
Context {Self : Type}.

Definition ret {A} (a : A) : M Self A := λ m, (Ok a, m).
Definition bind {A B} (c : M Self A) (k : A → M Self B) : M Self B :=
  λ m, match c m with
       | (Ok a, m') => k a m'
       | (Raise e, m') => (Raise e, m')
       end.
Definition throw {A} (e : exn) : M Self A := λ m, (Raise e, m).
Definition lift {A} (r : result A) : M Self A := λ m, (r, m).

Definition get_self : M Self Self := λ m, (Ok (self m), m).
Definition set_self (s : Self) : M Self unit :=
  λ m, (Ok (), Machine s (heap m) (next_loc m) (trace m) (inference_mode m)).
Definition is_inference_mode_enabled : M Self bool :=
  λ m, (Ok (inference_mode m), m).
Definition emit (e : event) : M Self unit :=
  λ m, (Ok (), Machine (self m) (heap m) (next_loc m) (trace m ++ [e])
                 (inference_mode m)).

Definition read (l : loc) : M Self T :=
  λ m, match heap m !! l with
       | Some v => (Ok v, m)
       | None => (Raise uninitialised, m)
       end.
Definition write (l : loc) (v : T) : M Self unit :=
  λ m, (Ok (), Machine (self m) (<[l:=v]> (heap m)) (next_loc m) (trace m)
                 (inference_mode m)).
(** A new tensor holding [v]. *)
Definition alloc (v : T) : M Self loc :=
  λ m, (Ok (next_loc m),
        Machine (self m) (<[next_loc m:=v]> (heap m)) (S (next_loc m)) (trace m)
          (inference_mode m)).
(** A new tensor whose contents are not yet computed. *)
Definition reserve : M Self loc :=
  λ m, (Ok (next_loc m),
        Machine (self m) (heap m) (S (next_loc m)) (trace m) (inference_mode m)).
End monad.
End machine.

Arguments Machine {elt Self}.
Arguments self {elt Self}.
Arguments heap {elt Self}.
Arguments next_loc {elt Self}.
Arguments trace {elt Self}.
Arguments inference_mode {elt Self}.

Notation "'let!' x := c 'in' k" := (bind c (λ x, k))
  (at level 10, x binder, c at level 100, k at level 200).

(** *** Buffers, eager execution, capture and replay *)

Section engine.
Context {elt Self : Type}.
Abbreviation T := (tensor elt).
Abbreviation M' := (@M elt Self).

Fixpoint read_all (ls : list loc) : M' (list T) :=
  match ls with
  | [] => ret []
  | l :: ls => let! v := read l in let! vs := read_all ls in ret (v :: vs)
  end.

Fixpoint alloc_all (vs : list T) : M' (list loc) :=
  match vs with
  | [] => ret []
  | v :: vs => let! l := alloc v in let! ls := alloc_all vs in ret (l :: ls)
  end.

Fixpoint reserve_n (n : nat) : M' (list loc) :=
  match n with
  | 0 => ret []
  | S n => let! l := reserve in let! ls := reserve_n n in ret (l :: ls)
  end.

Fixpoint write_all (ls : list loc) (vs : list T) : M' unit :=
  match ls, vs with
  | l :: ls, v :: vs => let! _ := write l v in write_all ls vs
  | _, _ => ret ()
  end.

(** [for _ in range(n): body] *)
Fixpoint for_range (n : nat) (body : M' unit) : M' unit :=
  match n with
  | 0 => ret ()
  | S n => let! _ := body in for_range n body
  end.

(** [dst.copy_(src)]: the value of [src], broadcast to the shape of
    [dst], overwrites the contents of [dst]; [dst] stays the same object. *)
Definition copy_ (dst src : loc) : M' unit :=
  let! d := read dst in
  let! s := read src in
  let! s' := lift (expand (Some <$> shape d) s) in
  let! _ := write dst (Tensor (shape d) (data s')) in
  emit (Copy dst src).

(** [for static_input, data in zip(surface, inputs): static_input.copy_(data)] *)
Fixpoint copy_zip (surface inputs : list loc) : M' unit :=
  match surface, inputs with
  | static_input :: surface, data :: inputs =>
      let! _ := copy_ static_input data in copy_zip surface inputs
  | _, _ => ret ()
  end.

(** A normal execution of [op]: the results are new tensors. *)
Definition run (op : list T → result (list T)) (inputs : list loc) : M' (list loc) :=
  let! vs := read_all inputs in
  let! outs := lift (op vs) in
  let! _ := emit Run in
  alloc_all outs.

(** [with torch.cuda.graph(g): outs = op(inputs)]: the launches are
    recorded, not executed; the output buffers are reserved and stay
    unwritten until the first replay. *)
Definition capture (op : list T → result (list T)) (inputs : list loc)
    : M' (CUDAGraph * list loc) :=
  let! vs := read_all inputs in
  let! outs := lift (op vs) in
  let! ls := reserve_n (length outs) in
  let! _ := emit Capture in
  ret ({| recorded := Some (inputs, op, ls) |}, ls).

(** [g.replay()]: the recorded computation runs on the current contents
    of the buffers it was recorded with. *)
Definition replay (g : CUDAGraph) : M' unit :=
  match recorded g with
  | None => throw not_captured
  | Some (ins, op, outs) =>
      let! vs := read_all ins in
      let! rs := lift (op vs) in
      let! _ := write_all outs rs in
      emit Replay
  end.

(** The buffers [ls] hold the values [vs]. *)
Definition holds (h : gmap loc T) (ls : list loc) (vs : list T) : Prop :=
  Forall2 (λ l v, h !! l = Some v) ls vs.

(** The storage after [vs] was written to [ls], in order. *)
Fixpoint write_heap (ls : list loc) (vs : list T) (h : gmap loc T) : gmap loc T :=
  match ls, vs with
  | l :: ls, v :: vs => write_heap ls vs (<[l:=v]> h)
  | _, _ => h
  end.

(** Locations are handed out in increasing order: nothing is stored at
    or beyond the next free one. *)
Definition fresh_above (m : @machine elt Self) : Prop :=
  ∀ l, next_loc m ≤ l → heap m !! l = None.

(** The tensors [inputs] can be copied into the buffers [surface]: they
    have the shapes of the buffers they go to, and an input that is itself
    one of the buffers is the buffer of its own position. *)
Definition compatible (h : gmap loc T) (surface inputs : list loc) : Prop :=
  Forall2 (λ sl il, ∃ sv iv, h !! sl = Some sv ∧ h !! il = Some iv ∧ shape iv = shape sv)
          surface inputs
  ∧ ∀ i j l, surface !! i = Some l → inputs !! j = Some l → i = j.

(** Storage [h'] with next free location [n'] came from [h] and [n] by
    allocation only: the old tensors are untouched. *)
Definition grown (h : gmap loc T) (n : loc) (h' : gmap loc T) (n' : loc) : Prop :=
  n ≤ n' ∧ (∀ l, l < n → h' !! l = h !! l) ∧ (∀ l, n' ≤ l → h' !! l = None).

(** The buffers of a surface and of the outputs are all different. *)
Definition separate (surface outs : list loc) : Prop :=
  NoDup surface ∧ NoDup outs ∧ ∀ l, l ∈ surface → l ∉ outs.

(** A computation [c] relates every state it starts in to the state it
    ends in, whether it returns or raises, by [R]. *)
Definition preserves {A} (R : @machine elt Self → @machine elt Self → Prop)
    (c : M' A) : Prop :=
  ∀ m r m', c m = (r, m') → R m m'.

(** From [m] to [m'] the module object changed along [P], the
    inference-mode flag did not change, and the new events all satisfy [E]. *)
Definition evolves (E : event → Prop) (P : Self → Self → Prop)
    (m m' : @machine elt Self) : Prop :=
  P (self m) (self m') ∧ inference_mode m' = inference_mode m
  ∧ ∃ evs, trace m' = trace m ++ evs ∧ Forall E evs.

(** Two ways a module object may change: in any way, or in any way that
    keeps the part [proj] of it. *)
Definition any_change : Self → Self → Prop := λ _ _, True.
Definition same_on {X} (proj : Self → X) : Self → Self → Prop :=
  λ s s', proj s' = proj s.
Definition any_event : event → Prop := λ _, True.
Definition no_event : event → Prop := λ _, False.
Definition is_run : event → Prop := λ e, e = Run.

(** What a forward call of a site did, seen from outside: it went from
    [m] to [m'] with result [r] on an input of [seq_len] positions.
    - A call that returned replayed the graph exactly when the input had
      one position and inference mode was on.
    - Otherwise the only engine events are normal executions (none is a
      capture, a copy or a replay), the graph attributes [graph_state] of
      the module are untouched, and a call that returned executed the
      operation normally, once. *)
Definition gated {X} (graph_state : Self → X) (seq_len : nat)
    (m : @machine elt Self) (r : result (list loc)) (m' : @machine elt Self) : Prop :=
  ∃ evs, trace m' = trace m ++ evs
    ∧ (∀ outs, r = Ok outs →
         (Replay ∈ evs ↔ seq_len = 1 ∧ inference_mode m = true))
    ∧ (¬ (seq_len = 1 ∧ inference_mode m = true) →
         same_on graph_state (self m) (self m') ∧ Forall is_run evs
         ∧ ∀ outs, r = Ok outs → evs = [Run]).

(** The first accelerated call [call] of a site, on the tensors [inputs]:
    three normal executions, one capture, then the copy-in and the replay
    every call ends with; the site is then bound to [inputs] and to fresh
    output buffers, which the call returns. *)
Definition first_call_protocol (call : M' (list loc))
    (is_bound : Self → list loc → list loc → Prop)
    (inputs : list loc) (m : @machine elt Self) : Prop :=
  ∃ outs m',
    call m = (Ok outs, m')
    ∧ trace m' = trace m ++ [Run; Run; Run; Capture]
                   ++ zip_with Copy inputs inputs ++ [Replay]
    ∧ is_bound (self m') inputs outs ∧ separate inputs outs.

(** A later accelerated call of a site bound to [surface] and [outs], on
    the tensors [inputs] holding [vals]: the module object is unchanged
    (nothing is rebound), each input is copied into the buffer of the
    surface at its position, the graph is replayed, and the bound output
    buffers are returned. *)
Definition next_call_protocol (call : M' (list loc))
    (surface outs inputs : list loc) (vals : list T) (m : @machine elt Self) : Prop :=
  ∃ m',
    call m = (Ok outs, m')
    ∧ self m' = self m
    ∧ trace m' = trace m ++ zip_with Copy surface inputs ++ [Replay]
    ∧ holds (heap m') surface vals.

(** The accelerated call [call] and the normal execution of [op] on the
    same tensors, from the same state, both return, and the tensors they
    return hold the same values. *)
Definition same_as_direct (op : list T → result (list T)) (call : M' (list loc))
    (inputs : list loc) (m : @machine elt Self) : Prop :=
  ∃ rs outs m' outs_d m_d,
    call m = (Ok outs, m') ∧ run op inputs m = (Ok outs_d, m_d)
    ∧ holds (heap m') outs rs ∧ holds (heap m_d) outs_d rs.

(** Reading an attribute that holds [None] where a tuple, a tensor or a
    graph is needed. *)
Definition not_none {A} (o : option A) : M' A :=
  match o with
  | Some a => ret a
  | None => throw TypeError
  end.
End engine.

(** *** [OptimizedFalconRotaryEmbedding] *)

Module Rotary.
Section rotary.
Context {elt : Type}.
Abbreviation T := (tensor elt).

(** The numeric engine: elementwise product and sum (with their own
    shape checks) and [rotate_half] of the model library. *)
Variable tmul tadd : T → T → result T.
Variable rotate_half : T → result T.
(** [emb.cos()[None, :, :].type(dtype)] for a table of [total_length]
    positions. *)
Variable emb_cos : Z → T.

Definition INFERENCE_MAX_LENGTH : Z := 8192.

(** [apply_rotary] *)
Definition apply_rotary (query key cos sin : T) : result (T * T) :=
  qc ←r tmul query cos;
  rq ←r rotate_half query;
  rqs ←r tmul rq sin;
  q' ←r tadd qc rqs;
  kc ←r tmul key cos;
  rk ←r rotate_half key;
  rks ←r tmul rk sin;
  k' ←r tadd kc rks;
  Ok (q', k').

(** [apply_rotary] called on an unpacked tuple of tensors. *)
Definition apply_rotary_star (args : list T) : result (list T) :=
  match args with
  | [query; key; cos; sin] =>
      p ←r apply_rotary query key cos sin; Ok [p.1; p.2]
  | _ => Raise TypeError
  end.

(** The attributes of the module object. *)
Record RotaryEmbedding : Type := {
  seq_len_cached : Z;
  cos_cached : option T;
  sin_cached : option T;
  cuda_graph : option (@CUDAGraph elt);
  input_surface : option (list loc);
  static_outputs : option (list loc)
}.

(** [__init__] *)
Definition init : RotaryEmbedding :=
  {| seq_len_cached := -1; cos_cached := None; sin_cached := None;
     cuda_graph := None; input_surface := None; static_outputs := None |}.

Definition set_tables (self : RotaryEmbedding) (n : Z) (c s : T) : RotaryEmbedding :=
  {| seq_len_cached := n; cos_cached := Some c; sin_cached := Some s;
     cuda_graph := cuda_graph self; input_surface := input_surface self;
     static_outputs := static_outputs self |}.

Definition set_graph (self : RotaryEmbedding) (g : option CUDAGraph)
    (surface outs : option (list loc)) : RotaryEmbedding :=
  {| seq_len_cached := seq_len_cached self; cos_cached := cos_cached self;
     sin_cached := sin_cached self;
     cuda_graph := g; input_surface := surface; static_outputs := outs |}.

Abbreviation M' := (@M elt RotaryEmbedding).

(** [_optimized_apply_rotary] *)
Definition _optimized_apply_rotary (query key cos sin : loc) : M' (list loc) :=
  let! self0 := get_self in
  let! _ :=
    match cuda_graph self0 with
    | None =>
        let! _ := set_self (set_graph self0 (Some new_graph)
                              (Some [query; key; cos; sin]) (static_outputs self0)) in
        let! self1 := get_self in
        let! surface := not_none (input_surface self1) in
        let! _ := for_range 3 (let! _ := run apply_rotary_star surface in ret ()) in
        let! '(g, outs) := capture apply_rotary_star surface in
        let! self2 := get_self in
        set_self (set_graph self2 (Some g) (input_surface self2) (Some outs))
    | Some _ => ret ()
    end in
  let inputs := [query; key; cos; sin] in
  let! self3 := get_self in
  let! surface := not_none (input_surface self3) in
  let! _ := copy_zip surface inputs in
  let! g := not_none (cuda_graph self3) in
  let! _ := replay g in
  let! outs := not_none (static_outputs self3) in
  ret outs.

(** The module has captured its graph: it reads the buffers [surface]
    and writes the two buffers [outs]. *)
Definition bound_to (self : RotaryEmbedding) (surface outs : list loc) : Prop :=
  cuda_graph self = Some {| recorded := Some (surface, apply_rotary_star, outs) |}
  ∧ input_surface self = Some surface ∧ static_outputs self = Some outs
  ∧ length outs = 2.

(** The attributes of the graph path. *)
Definition graph_state (self : RotaryEmbedding)
    : option CUDAGraph * option (list loc) * option (list loc) :=
  (cuda_graph self, input_surface self, static_outputs self).

(** [cos_sin].  The two results are slices of the cached tables; they are
    modelled as tensors of their own. *)
Definition cos_sin (seq_len past_key_values_length : nat) : M' (loc * loc) :=
  let! self0 := get_self in
  let total_length : Z := Z.of_nat (seq_len + past_key_values_length) in
  let total_length :=
    if decide (seq_len_cached self0 = (-1)%Z)
    then (INFERENCE_MAX_LENGTH `max` total_length)%Z else total_length in
  let! _ :=
    if decide (seq_len_cached self0 < total_length)%Z
    then set_self (set_tables self0 total_length (emb_cos total_length)
                     (emb_cos total_length))
    else ret () in
  let! self1 := get_self in
  let! ctab := match cos_cached self1 with Some c => ret c | None => throw AttributeError end in
  let! stab := match sin_cached self1 with Some s => ret s | None => throw AttributeError end in
  let! c := lift (slice1 past_key_values_length (seq_len + past_key_values_length) ctab) in
  let! s := lift (slice1 past_key_values_length (seq_len + past_key_values_length) stab) in
  let! cos := alloc c in
  let! sin := alloc s in
  ret (cos, sin).

(** [forward] *)
Definition forward (query key : loc) (past_key_values_length : nat) : M' (list loc) :=
  let! q := read query in
  match shape q with
  | [batch; seq_len; head_dim] =>
      let! '(cos, sin) := cos_sin seq_len past_key_values_length in
      let! inference := is_inference_mode_enabled in
      if bool_decide (seq_len = 1) && inference
      then _optimized_apply_rotary query key cos sin
      else run apply_rotary_star [query; key; cos; sin]
  | _ => throw Falcon.unpack_error
  end.
End rotary.
End Rotary.

(** *** [OptimizedFalconAttention]: the fused QKV projection *)

Module Attention.
Section attention.
Context {elt : Type}.
Abbreviation T := (tensor elt).

(** [self.query_key_value] (a linear layer) and [self._split_heads]
    ([split_heads] with the head counts of the configuration). *)
Variable query_key_value : T → result T.
Variable _split_heads : T → result (T * T * T).

(** [self._split_heads(self.query_key_value(hidden_states))] *)
Definition apply_qkv (args : list T) : result (list T) :=
  match args with
  | [hidden_states] =>
      fused_qkv ←r query_key_value hidden_states;
      qkv ←r _split_heads fused_qkv;
      Ok [qkv.1.1; qkv.1.2; qkv.2]
  | _ => Raise TypeError
  end.

(** The attributes of the module object the projection uses.
    [static_input] does not exist before the first accelerated call. *)
Record FalconAttention : Type := {
  qkv_graph : option (@CUDAGraph elt);
  input_surface : option (list loc);
  static_input : option loc;
  static_outputs : option (list loc)
}.

(** [__init__] *)
Definition init : FalconAttention :=
  {| qkv_graph := None; input_surface := None; static_input := None;
     static_outputs := None |}.

Definition set_graph (self : FalconAttention) (g : option CUDAGraph)
    (input : option loc) (outs : option (list loc)) : FalconAttention :=
  {| qkv_graph := g; input_surface := input_surface self; static_input := input;
     static_outputs := outs |}.

Abbreviation M' := (@M elt FalconAttention).

(** [_optimized_apply_qkv] *)
Definition _optimized_apply_qkv (hidden_states : loc) : M' (list loc) :=
  let! self0 := get_self in
  let! _ :=
    match qkv_graph self0 with
    | None =>
        let! _ := set_self (set_graph self0 (Some new_graph) (Some hidden_states)
                              (static_outputs self0)) in
        let! _ := for_range 3 (let! _ := run apply_qkv [hidden_states] in ret ()) in
        let! '(g, outs) := capture apply_qkv [hidden_states] in
        let! self1 := get_self in
        set_self (set_graph self1 (Some g) (static_input self1) (Some outs))
    | Some _ => ret ()
    end in
  let! self2 := get_self in
  let! static := match static_input self2 with
                 | Some l => ret l
                 | None => throw AttributeError
                 end in
  let! _ := copy_ static hidden_states in
  let! g := not_none (qkv_graph self2) in
  let! _ := replay g in
  let! outs := not_none (static_outputs self2) in
  ret outs.

(** The module has captured its graph: it reads the buffer [surface]
    and writes the three buffers [outs]. *)
Definition bound_to (self : FalconAttention) (surface outs : list loc) : Prop :=
  qkv_graph self = Some {| recorded := Some (surface, apply_qkv, outs) |}
  ∧ (λ l, [l]) <$> static_input self = Some surface
  ∧ static_outputs self = Some outs
  ∧ length outs = 3.

(** The attributes of the graph path. *)
Definition graph_state (self : FalconAttention)
    : option CUDAGraph * option loc * option (list loc) :=
  (qkv_graph self, static_input self, static_outputs self).

(** [forward], up to the computation of the query, key and value layers. *)
Definition forward_qkv (hidden_states : loc) (alibi : option loc)
    (output_attentions : bool) : M' (list loc) :=
  if bool_decide (alibi ≠ None) then throw AssertionError else
  if output_attentions then throw AssertionError else
  let! h := read hidden_states in
  match shape h !! 1 with
  | Some seq_len =>
      let! inference := is_inference_mode_enabled in
      if bool_decide (seq_len = 1) && inference
      then _optimized_apply_qkv hidden_states
      else run apply_qkv [hidden_states]
  | None => throw IndexError
  end.

(** [forward]: the number of positions already in the cache,
    [0 if layer_past is None else layer_past[0].shape[1]]. *)
Definition past_kv_length (layer_past : option (T * T)) : result nat :=
  match layer_past with
  | None => Ok 0
  | Some (past_key, _) =>
      match shape past_key !! 1 with
      | Some n => Ok n
      | None => Raise IndexError
      end
  end.

(** [forward], from the concatenation with the cache to [present]: the
    key and value layers attention is computed on, and the cache that is
    handed back. *)
Definition concat_past (layer_past : option (T * T)) (key_layer value_layer : T)
    (use_cache : bool) : result (T * T * option (T * T)) :=
  kv ←r match layer_past with
        | Some (past_key, past_value) =>
            key_layer ←r cat_dim1 past_key key_layer;
            value_layer ←r cat_dim1 past_value value_layer;
            Ok (key_layer, value_layer)
        | None => Ok (key_layer, value_layer)
        end;
  Ok (kv.1, kv.2, if use_cache then Some kv else None).
End attention.
End Attention.

(** *** [OptimizedFalconDecoderLayer]: the two layer norms *)

Module DecoderLayer.
Section layer.
Context {elt : Type}.
Abbreviation T := (tensor elt).

Variable ln_attn ln_mlp : T → result T.

(** [(self.ln_attn(hidden_states), self.ln_mlp(hidden_states))] *)
Definition apply_ln (args : list T) : result (list T) :=
  match args with
  | [hidden_states] =>
      ln_attn_output ←r ln_attn hidden_states;
      ln_mlp_output ←r ln_mlp hidden_states;
      Ok [ln_attn_output; ln_mlp_output]
  | _ => Raise TypeError
  end.

(** The attributes of the module object the layer norms use.
    [static_outputs] does not exist before the capture. *)
Record FalconDecoderLayer : Type := {
  ln_graph : option (@CUDAGraph elt);
  static_input : option loc;
  static_outputs : option (list loc)
}.

(** [__init__] *)
Definition init : FalconDecoderLayer :=
  {| ln_graph := None; static_input := None; static_outputs := None |}.

Abbreviation M' := (@M elt FalconDecoderLayer).

(** [_optimized_apply_ln] *)
Definition _optimized_apply_ln (hidden_states : loc) : M' (list loc) :=
  let! self0 := get_self in
  let! _ :=
    match ln_graph self0 with
    | None =>
        let! _ := set_self {| ln_graph := Some new_graph;
                              static_input := Some hidden_states;
                              static_outputs := static_outputs self0 |} in
        let! _ := for_range 3 (let! _ := run apply_ln [hidden_states] in ret ()) in
        let! '(g, outs) := capture apply_ln [hidden_states] in
        let! self1 := get_self in
        set_self {| ln_graph := Some g; static_input := static_input self1;
                    static_outputs := Some outs |}
    | Some _ => ret ()
    end in
  let! self2 := get_self in
  let! static := not_none (static_input self2) in
  let! _ := copy_ static hidden_states in
  let! g := not_none (ln_graph self2) in
  let! _ := replay g in
  let! outs := match static_outputs self2 with
               | Some ls => ret ls
               | None => throw AttributeError
               end in
  ret outs.

(** The module has captured its graph: it reads the buffer [surface]
    and writes the two buffers [outs]. *)
Definition bound_to (self : FalconDecoderLayer) (surface outs : list loc) : Prop :=
  ln_graph self = Some {| recorded := Some (surface, apply_ln, outs) |}
  ∧ (λ l, [l]) <$> static_input self = Some surface
  ∧ static_outputs self = Some outs
  ∧ length outs = 2.

(** The attributes of the graph path. *)
Definition graph_state (self : FalconDecoderLayer)
    : option CUDAGraph * option loc * option (list loc) :=
  (ln_graph self, static_input self, static_outputs self).

(** [forward], up to the computation of the two normalised inputs. *)
Definition forward_ln (hidden_states : loc) : M' (list loc) :=
  let! h := read hidden_states in
  match shape h !! 1 with
  | Some seq_len =>
      let! inference := is_inference_mode_enabled in
      if bool_decide (seq_len = 1) && inference
      then _optimized_apply_ln hidden_states
      else run apply_ln [hidden_states]
  | None => throw IndexError
  end.
End layer.
End DecoderLayer.

End GraphSite.

(** ** [tests/test_speculative_generation.py]: the speculative loop *)

Module Speculative.

Abbreviation token := Z.

(** Python's [l[i]]: a negative index counts from the end. *)
Definition py_index {A} (l : list A) (i : Z) : result A :=
  let n := Z.of_nat (length l) in
  let j := if decide (i < 0)%Z then (i + n)%Z else i in
  if decide (0 ≤ j < n)%Z then
    match l !! Z.to_nat j with
    | Some x => Ok x
    | None => Raise IndexError
    end
  else Raise IndexError.

(** Python's [l[-n:]]. *)
Definition last_n {A} (n : nat) (l : list A) : list A :=
  if decide (n = 0) then l else drop (length l - n) l.

(** The length of the longest common prefix of two sequences. *)
Fixpoint common_prefix_length (p t : list token) : nat :=
  match p, t with
  | x :: p, y :: t => if decide (x = y) then S (common_prefix_length p t) else 0
  | _, _ => 0
  end.

(** A call of the authoritative model. *)
Record ModelCall : Type := {
  input_ids : list token;
  start_from_position : Z
}.

(** The state of the test between two statements: the accepted
    sequence, the number of random draws made, the calls of the
    authoritative model so far. *)
Record state : Type := {
  generated_ids : list token;
  draws : nat;
  calls : list ModelCall
}.

Section loop.
(** The logits of one position, and their arg-max. *)
Variable Logits : Type.
Variable argmax : Logits → token.
(** [model2.generate(ids, max_new_tokens=n, do_sample=False)]: the proposer. *)
Variable model2_generate : list token → nat → list token.
(** [model(ids, start_from_position=p).logits]: the authoritative model,
    one row of logits per position of the output. *)
Variable model : list token → Z → list Logits.
(** The source of randomness: the raw value of the [k]-th draw. *)
Variable entropy : nat → Z.

(** [random.randrange(a, b)], as the [k]-th draw. *)
Definition randrange (k : nat) (a b : Z) : result Z :=
  if decide (a < b)%Z then Ok (a + entropy k `mod` (b - a))%Z
  else Raise (ValueError "empty range for randrange()").

(** The comparison loop: [for i in range(batch_size)] from [i] on, with
    the current [match_length]; the [else: break] ends it. *)
Fixpoint match_loop (new_tokens : list token) (logits : list Logits)
    (generated_len : nat) (range : list nat) (match_length : nat) : result nat :=
  match range with
  | [] => Ok match_length
  | i :: range =>
      top_predicted_id_model2 ←r py_index new_tokens (Z.of_nat i);
      row ←r py_index logits (Z.of_nat generated_len + Z.of_nat i - 1);
      let top_predicted_id_model := argmax row in
      if decide (top_predicted_id_model2 = top_predicted_id_model)
      then match_loop new_tokens logits generated_len range (match_length + 1)
      else Ok match_length
  end.

(** What one round computes before it decides to go on or to stop. *)
Record round_result : Type := {
  new_tokens : list token;
  match_length : nat;
  after : state
}.

(** The body of the [while] loop up to the comparison loop. *)
Definition round (batch_size : nat) (s : state) : result round_result :=
  let outputs2 := model2_generate (generated_ids s) batch_size in
  let new_tokens := last_n batch_size outputs2 in
  random_pos ←r randrange (draws s) 1 (Z.of_nat batch_size);
  random_tok ←r randrange (S (draws s)) 1 100;
  if decide (Z.to_nat random_pos < length new_tokens) then
    let new_tokens := <[Z.to_nat random_pos := random_tok]> new_tokens in
    let combined_ids := generated_ids s ++ new_tokens in
    let call := {| input_ids := combined_ids; start_from_position := 1 |} in
    let logits := model (input_ids call) (start_from_position call) in
    match_length ←r match_loop new_tokens logits (length (generated_ids s))
                      (seq 0 batch_size) 0;
    Ok {| new_tokens := new_tokens; match_length := match_length;
          after := {| generated_ids := generated_ids s; draws := S (S (draws s));
                      calls := calls s ++ [call] |} |}
  else Raise IndexError.

(** One iteration of the [while] loop: [true] when the loop goes on. *)
Definition iteration (batch_size : nat) (s : state) : result (bool * state) :=
  r ←r round batch_size s;
  if decide (0 < match_length r) then
    Ok (true, {| generated_ids := generated_ids (after r)
                                    ++ take (match_length r) (new_tokens r);
                 draws := draws (after r); calls := calls (after r) |})
  else Ok (false, after r).

(** The [while] loop, run for at most [fuel] iterations; [None] when the
    fuel runs out. *)
Fixpoint while_loop (fuel : nat) (max_new_tokens batch_size inputs_len : nat)
    (s : state) : result (option state) :=
  if decide (length (generated_ids s) < max_new_tokens + inputs_len) then
    match fuel with
    | 0 => Ok None
    | S fuel =>
        r ←r iteration batch_size s;
        if r.1 then while_loop fuel max_new_tokens batch_size inputs_len r.2
        else Ok (Some r.2)
    end
  else Ok (Some s).

(** The generation part of [test_speculative_greedy_generation]. *)
Definition speculative_generation (fuel : nat) (inputs : list token)
    (max_new_tokens batch_size : nat) : result (option state) :=
  while_loop fuel max_new_tokens batch_size (length inputs)
    {| generated_ids := inputs; draws := 0; calls := [] |}.
End loop.

Arguments match_loop {Logits}.
Arguments round {Logits}.
Arguments iteration {Logits}.
Arguments while_loop {Logits}.
Arguments speculative_generation {Logits}.

End Speculative.

(** ** The inference session *)

Module Session.

(** Modelled from the spec: the inference session and its per-layer
    caches.  [petals.client.inference_session] is not among the sources;
    only the test [tests/test_block_exact_match.py] uses it.  Key and value
    contents are numeric and opaque; a cache is known by its length and its
    capacity. *)
Inductive error : Type :=
  | MaximumLengthExceeded
  | CapacityExceeded
  | SessionClosed.

Record CacheEntry : Type := {
  length : nat;
  capacity : nat
}.

Inductive status : Type := Open | Closed.

Record Session : Type := {
  maxLength : nat;
  currentLength : nat;
  perLayerCaches : list CacheEntry;
  state : status
}.

(** [extend]: append [n] positions, or fail when the capacity is too small. *)
Definition extend (n : nat) (c : CacheEntry) : error + CacheEntry :=
  if decide (length c + n ≤ capacity c)
  then inr {| length := length c + n; capacity := capacity c |}
  else inl CapacityExceeded.

(** [truncate]: discard the positions from [toLength] on. *)
Definition truncate (toLength : nat) (c : CacheEntry) : CacheEntry :=
  {| length := length c `min` toLength; capacity := capacity c |}.

(** Extend every layer cache, in stack order; the first failure is the
    failure of the whole. *)
Fixpoint extend_all (n : nat) (cs : list CacheEntry) : error + list CacheEntry :=
  match cs with
  | [] => inr []
  | c :: cs =>
      match extend n c with
      | inl e => inl e
      | inr c' =>
          match extend_all n cs with
          | inl e => inl e
          | inr cs' => inr (c' :: cs')
          end
      end
  end.

(** [openSession] *)
Definition openSession (layerCount maxLength : nat) : Session :=
  {| maxLength := maxLength; currentLength := 0;
     perLayerCaches := replicate layerCount {| length := 0; capacity := maxLength |};
     state := Open |}.

(** [closeSession] *)
Definition closeSession (s : Session) : Session :=
  {| maxLength := maxLength s; currentLength := currentLength s;
     perLayerCaches := perLayerCaches s; state := Closed |}.

(** [step] with a batch of [n] tokens: the session after the call, and
    the number of positions whose hidden state is returned, or the error.
    The length is validated before any cache is touched, and a failed call
    leaves the session as it was. *)
Definition step (s : Session) (n : nat) (startFromPosition : option nat)
    : Session * (error + nat) :=
  match state s with
  | Closed => (s, inl SessionClosed)
  | Open =>
      let base :=
        match startFromPosition with
        | None => currentLength s
        | Some p => currentLength s `min` p
        end in
      if decide (base + n ≤ maxLength s) then
        let caches :=
          match startFromPosition with
          | None => perLayerCaches s
          | Some p => truncate p <$> perLayerCaches s
          end in
        match extend_all n caches with
        | inr caches' =>
            ({| maxLength := maxLength s; currentLength := base + n;
                perLayerCaches := caches'; state := Open |},
             inr n)
        | inl e => (s, inl e)
        end
      else (s, inl MaximumLengthExceeded)
  end.

(** [n] steps of one token each, stopping at the first failure. *)
Fixpoint single_steps (n : nat) (s : Session) : Session * (error + nat) :=
  match n with
  | 0 => (s, inr 0)
  | S n =>
      match step s 1 None with
      | (s', inr _) => single_steps n s'
      | (s', inl e) => (s', inl e)
      end
  end.

(** Every layer cache has length [n]. *)
Definition all_lengths (s : Session) (n : nat) : Prop :=
  currentLength s = n ∧ Forall (λ c, length c = n) (perLayerCaches s).

(** The session of [layerCount] layers, open, all of whose caches have
    length [n] and capacity [maxLength]. *)
Definition filled (layerCount maxLength n : nat) : Session :=
  {| maxLength := maxLength; currentLength := n;
     perLayerCaches := replicate layerCount {| length := n; capacity := maxLength |};
     state := Open |}.

End Session.

(** ** [client/remote_generation.py] *)

Module RemoteGeneration.

(** An inference session is known by its identity. *)
Definition session_id := nat.

Inductive event : Type :=
  | InferenceSession (id : session_id) (max_length : Z)
      (* [self.inference_session(max_length=...)] made session [id] *)
  | Enter (id : session_id)    (* [__enter__] of the session's context manager *)
  | Exit (id : session_id)     (* [__exit__] of the session's context manager *)
  | SuperGenerate.             (* [super().generate(...)] *)

Global Instance event_eq_dec : EqDecision event.
Proof. solve_decision. Defined.

(** The two context managers [generate] uses. *)
Inductive context_manager : Type :=
  | session_context (id : session_id)           (* of a new inference session *)
  | nullcontext (session : session_id).         (* [contextlib.nullcontext(session)] *)

Record world : Type := {
  next_session : session_id;
  trace : list event
}.

Definition emit (e : event) (w : world) : world :=
  {| next_session := next_session w; trace := trace w ++ [e] |}.

(** [self.inference_session(max_length=n)]: a new session, not yet entered. *)
Definition inference_session (max_length : Z) (w : world) : context_manager * world :=
  (session_context (next_session w),
   {| next_session := S (next_session w);
      trace := trace w ++ [InferenceSession (next_session w) max_length] |}).

Definition __enter__ (cm : context_manager) (w : world) : session_id * world :=
  match cm with
  | session_context id => (id, emit (Enter id) w)
  | nullcontext session => (session, w)
  end.

Definition __exit__ (cm : context_manager) (w : world) : world :=
  match cm with
  | session_context id => emit (Exit id) w
  | nullcontext _ => w
  end.

Section generate.
Variable Args Output : Type.
(** The keyword arguments, by name. *)
Abbreviation Kwargs := (list (string * Z)).
(** [super().generate(args, kwargs)], which may raise. *)
Variable super_generate : Args → Kwargs → result Output.

(** [RemoteGenerationMixin.generate] *)
Definition generate (args : Args) (session : option session_id) (kwargs : Kwargs)
    (w : world) : result Output * world :=
  let '(context_manager, w) :=
    match session with
    | None => inference_session 2048 w
    | Some session => (nullcontext session, w)
    end in
  let '(session, w) := __enter__ context_manager w in
  let r := super_generate args kwargs in
  let w := emit SuperGenerate w in
  (r, __exit__ context_manager w).
End generate.

End RemoteGeneration.

(** ** [server/block_utils.py]: the dtype and the size of a block *)

Module BlockUtils.

(** The values of [torch.dtype] that matter here. *)
Inductive scalar_type : Type := float16 | bfloat16 | float32 | float64 | int8.

(** What the code passes around as a dtype: a string such as ["auto"],
    [None], or a [torch.dtype]. *)
Inductive dtype_spec : Type :=
  | DStr (s : string)
  | DNone
  | DType (d : scalar_type).

(** The fields of the configuration the two functions read. *)
Record PretrainedConfig : Type := { torch_dtype : dtype_spec }.

(** [dtype is None] *)
Definition is_none (dtype : dtype_spec) : bool :=
  match dtype with DNone => true | _ => false end.

(** [dtype in ("auto", None)] *)
Definition in_auto_none (dtype : dtype_spec) : bool :=
  match dtype with
  | DStr s => bool_decide (s = "auto")
  | DNone => true
  | DType _ => false
  end.

(** [resolve_block_dtype] *)
Definition resolve_block_dtype (config : PretrainedConfig) (dtype : dtype_spec)
    : dtype_spec :=
  if negb (in_auto_none dtype) then dtype
  else if negb (in_auto_none (torch_dtype config)) then torch_dtype config
  else DType bfloat16.

(** [torch.finfo(dtype).bits]: defined for the floating-point dtypes; an
    integer dtype or a string is refused.  ([None] does not get here:
    the dtype is resolved first.) *)
Definition finfo_bits (dtype : dtype_spec) : result Z :=
  match dtype with
  | DType float16 | DType bfloat16 => Ok 16%Z
  | DType float32 => Ok 32%Z
  | DType float64 => Ok 64%Z
  | DType int8 | DStr _ | DNone => Raise TypeError
  end.

Definition bad_location : exn :=
  ValueError "get_block_size() expects location to be memory or disk".

Section size.
(** Python floats and the three operations used on them:
    [int + float], [int * float] and [round]. *)
Variable float : Type.
Variable int_add_float : Z → float → float.
Variable int_mul_float : Z → float → result float.
Variable py_round : float → result Z.
(** Building [config.block_class(config)] without weights and counting
    its parameters. *)
Variable count_params : PretrainedConfig → result Z.

(** What [get_block_size] returns: an [int] or a [float]. *)
Inductive number : Type :=
  | PyInt (z : Z)
  | PyFloat (f : float).

(** [get_block_size] *)
Definition get_block_size (config : PretrainedConfig) (location : string)
    (dtype : dtype_spec) (load_in_8bit : option bool) (eps : float) : result number :=
  _ ←r (if bool_decide (location = "memory")
          && negb (negb (is_none dtype) && bool_decide (load_in_8bit ≠ None))
        then Raise AssertionError else Ok ());
  n_params ←r count_params config;
  if bool_decide (location = "memory") && default false load_in_8bit then
    f ←r int_mul_float n_params (int_add_float 1 eps);
    Ok (PyFloat f)
  else
    dtype ←r (if bool_decide (location = "memory")
              then Ok (resolve_block_dtype config dtype)
              else if bool_decide (location = "disk")
              then Ok (resolve_block_dtype config (DStr "auto"))
              else Raise bad_location);
    bits ←r finfo_bits dtype;
    f ←r int_mul_float ((n_params * bits) `div` 8)%Z (int_add_float 1 eps);
    size ←r py_round f;
    Ok (PyInt size).
End size.
Arguments PyInt {float} z.
Arguments PyFloat {float} f.

End BlockUtils.

(** ** Concrete data for the examples *)

Module Examples.
Import Torch Falcon.

(** The head counts of Falcon-40B: 128 query heads in 8 groups of 16. *)
Definition falcon_40b : FalconConfig :=
  {| num_attention_heads := 128; num_kv_heads := 8; num_key_value_groups := 16;
     new_decoder_architecture := true; rotary := true |}.

(** A small grouped configuration: 4 query heads in 2 groups of 2. *)
Definition small_config : FalconConfig :=
  {| num_attention_heads := 4; num_kv_heads := 2; num_key_value_groups := 2;
     new_decoder_architecture := true; rotary := true |}.

(** One batch of 8 key/value heads, one position, head dimension 2. *)
Definition state_8_1_2 : tensor Z :=
  Tensor [8; 1; 2] [1; 2; 3; 4; 5; 6; 7; 8; 9; 10; 11; 12; 13; 14; 15; 16]%Z.

(** An empty cache (no position yet) of 3 rows, which 2 does not divide. *)
Definition empty_state_3 : tensor Z := Tensor [3; 0; 2] [].

(** A cache of 3 rows with one position. *)
Definition state_3_1_2 : tensor Z := Tensor [3; 1; 2] [1; 2; 3; 4; 5; 6]%Z.


(** A toy pair of models over logits that are already their arg-max: the
    proposer always drafts token 5, the authority predicts [authority]
    everywhere, and every random draw is the least possible one. *)
Definition draft_fives (ids : list Z) (n : nat) : list Z := ids ++ replicate n 5%Z.
Definition constant_authority (authority : Z) (ids : list Z) (start : Z) : list Z :=
  (λ _, authority) <$> ids.
Definition least_draw (k : nat) : Z := 0.

(** The prompt of the toy runs: two tokens. *)
Definition prompt : list Z := [7; 8]%Z.
Definition prompt_state : Speculative.state :=
  {| Speculative.generated_ids := prompt; Speculative.draws := 0;
     Speculative.calls := [] |}.

(** A toy numeric engine on integer tensors: elementwise product and sum
    of tensors of one shape, and a sign flip for [rotate_half]. *)
Definition size_mismatch : exn := RuntimeError "the sizes of the tensors must match".
Definition zmul (a b : tensor Z) : result (tensor Z) :=
  if decide (shape a = shape b)
  then Ok (Tensor (shape a) (zip_with Z.mul (data a) (data b)))
  else Raise size_mismatch.
Definition zadd (a b : tensor Z) : result (tensor Z) :=
  if decide (shape a = shape b)
  then Ok (Tensor (shape a) (zip_with Z.add (data a) (data b)))
  else Raise size_mismatch.
Definition zflip (a : tensor Z) : result (tensor Z) :=
  Ok (Tensor (shape a) (Z.opp <$> data a)).
Definition ones_table (n : Z) : tensor Z :=
  Tensor [1; Z.to_nat n; 2] (replicate (Z.to_nat n * 2) 1%Z).
Definition zdouble (a : tensor Z) : result (tensor Z) :=
  Ok (Tensor (shape a) (Z.mul 2 <$> data a)).
Definition zsplit (a : tensor Z) : result (tensor Z * tensor Z * tensor Z) :=
  Ok (a, a, a).

(** Four tensors of one decode step: query, key, cos and sin. *)
Definition query1 : tensor Z := Tensor [2; 1; 2] [1; 2; 3; 4]%Z.
Definition key1 : tensor Z := Tensor [2; 1; 2] [5; 6; 7; 8]%Z.
Definition cos1 : tensor Z := Tensor [2; 1; 2] [1; 1; 1; 1]%Z.
Definition sin1 : tensor Z := Tensor [2; 1; 2] [0; 1; 0; 1]%Z.
(** The tensors of the next decode step. *)
Definition query2 : tensor Z := Tensor [2; 1; 2] [9; 8; 7; 6]%Z.
Definition key2 : tensor Z := Tensor [2; 1; 2] [5; 4; 3; 2]%Z.
(** A prompt of three positions. *)
Definition query3 : tensor Z := Tensor [1; 3; 2] [1; 2; 3; 4; 5; 6]%Z.

(** Storage holding the tensors [vs] at the locations [0, 1, ...]. *)
Definition storage (vs : list (tensor Z)) : gmap GraphSite.loc (tensor Z) :=
  GraphSite.write_heap (seq 0 (length vs)) vs ∅.

(** A fresh rotary module and the tensors of the first step, in
    inference mode. *)
Definition rotary_fresh : @GraphSite.machine Z (@GraphSite.Rotary.RotaryEmbedding Z) :=
  GraphSite.Machine GraphSite.Rotary.init (storage [query1; key1; cos1; sin1]) 4 [] true.

(** The rotary module bound to the buffers 0 to 3 with outputs in 4 and
    5, and the tensors of the next step in 6 to 9. *)
Definition rotary_bound : @GraphSite.machine Z (@GraphSite.Rotary.RotaryEmbedding Z) :=
  GraphSite.Machine
    {| GraphSite.Rotary.seq_len_cached := -1;
       GraphSite.Rotary.cos_cached := None;
       GraphSite.Rotary.sin_cached := None;
       GraphSite.Rotary.cuda_graph :=
         Some {| GraphSite.recorded :=
                   Some ([0; 1; 2; 3],
                         GraphSite.Rotary.apply_rotary_star zmul zadd zflip, [4; 5]) |};
       GraphSite.Rotary.input_surface := Some [0; 1; 2; 3];
       GraphSite.Rotary.static_outputs := Some [4; 5] |}
    (storage [query1; key1; cos1; sin1; query1; key1; query2; key2; cos1; sin1])
    10 [] true.

(** A fresh rotary module given a prompt of three positions. *)
Definition rotary_prompt : @GraphSite.machine Z (@GraphSite.Rotary.RotaryEmbedding Z) :=
  GraphSite.Machine GraphSite.Rotary.init (storage [query3; query3]) 2 [] true.

(** A fresh layer given the hidden states of one position. *)
Definition layer_fresh : @GraphSite.machine Z (@GraphSite.DecoderLayer.FalconDecoderLayer Z) :=
  GraphSite.Machine GraphSite.DecoderLayer.init (storage [query1]) 1 [] true.

(** A fresh attention module given the hidden states of one position. *)
Definition attention_fresh : @GraphSite.machine Z (@GraphSite.Attention.FalconAttention Z) :=
  GraphSite.Machine GraphSite.Attention.init (storage [query1]) 1 [] true.

(** The state [query1] of two key/value heads, expanded for
    [small_config]: every row twice. *)
Definition expanded_state : tensor Z := Tensor [4; 1; 2] [1; 2; 1; 2; 3; 4; 3; 4]%Z.

(** A cache of one position in the Bloom layout: the keys are stored
    transposed. *)
Definition bloom_key : tensor Z := Tensor [2; 2; 1] [1; 2; 3; 4]%Z.
Definition bloom_value : tensor Z := Tensor [2; 1; 2] [5; 6; 7; 8]%Z.

(** A rotary module whose tables cover four positions. *)
Definition rotary_tabled : @GraphSite.machine Z (@GraphSite.Rotary.RotaryEmbedding Z) :=
  GraphSite.Machine
    (GraphSite.Rotary.set_tables GraphSite.Rotary.init 4 (ones_table 4) (ones_table 4))
    (storage []) 0 [] true.

(** A fresh rotary module and the tensors of two decode steps. *)
Definition rotary_two_steps : @GraphSite.machine Z (@GraphSite.Rotary.RotaryEmbedding Z) :=
  GraphSite.Machine GraphSite.Rotary.init
    (storage [query1; key1; cos1; sin1; query2; key2; cos1; sin1]) 8 [] true.

(** Hidden states of three rows, and an attention module whose graph was
    captured on the two rows in buffer 0, with outputs in 1 to 3. *)
Definition hidden3 : tensor Z := Tensor [3; 1; 2] [1; 2; 3; 4; 5; 6]%Z.
Definition attention_bound : @GraphSite.machine Z (@GraphSite.Attention.FalconAttention Z) :=
  GraphSite.Machine
    {| GraphSite.Attention.qkv_graph :=
         Some {| GraphSite.recorded :=
                   Some ([0], GraphSite.Attention.apply_qkv zdouble zsplit, [1; 2; 3]) |};
       GraphSite.Attention.input_surface := None;
       GraphSite.Attention.static_input := Some 0;
       GraphSite.Attention.static_outputs := Some [1; 2; 3] |}
    (storage [query1; query1; query1; query1; hidden3]) 5 [] true.

(** The fused projection of one token for 4 query heads in 2 groups and
    head dimension 1: twice two queries, a key and a value; and one with
    an element missing. *)
Definition fused_8 : tensor Z := Tensor [1; 1; 8] [1; 2; 3; 4; 5; 6; 7; 8]%Z.
Definition fused_7 : tensor Z := Tensor [1; 1; 7] [1; 2; 3; 4; 5; 6; 7]%Z.

(** A configuration that leaves the dtype open, a block of a thousand
    parameters, and a toy arithmetic on numbers counted in hundredths. *)
Definition auto_config : BlockUtils.PretrainedConfig :=
  {| BlockUtils.torch_dtype := BlockUtils.DStr "auto" |}.
Definition thousand_params (config : BlockUtils.PretrainedConfig) : result Z := Ok 1000%Z.
Definition hundredths_add (n f : Z) : Z := (100 * n + f)%Z.
Definition hundredths_mul (n f : Z) : result Z := Ok (n * f)%Z.
Definition hundredths_round (f : Z) : result Z := Ok (f `div` 100)%Z.
End Examples.

(** * Part II: properties *)

(** ** Facts about chunking *)

Section chunk_facts.
Import Torch.
Context {A : Type}.
Implicit Types l c : list A.

Lemma length_chunks n size l : length (chunks n size l) = n.
Proof. revert l; induction n as [|n IH]; intros l; simpl; [done|]. by rewrite IH. Qed.

Lemma join_chunks n size l :
  length l = n * size → mjoin (chunks n size l) = l.
Proof.
  revert l; induction n as [|n IH]; intros l Hl; simpl in *.
  - by destruct l.
  - rewrite IH; [apply take_drop|]. rewrite length_drop. lia.
Qed.

Lemma chunks_join size (cs : list (list A)) :
  Forall (λ c, length c = size) cs →
  chunks (length cs) size (mjoin cs) = cs.
Proof.
  induction 1 as [|c cs Hc _ IH]; simpl; [done|].
  rewrite take_app_length', drop_app_length' by done. by rewrite IH.
Qed.

Lemma Forall_length_chunks n size l :
  length l = n * size → Forall (λ c, length c = size) (chunks n size l).
Proof.
  revert l; induction n as [|n IH]; intros l Hl; simpl; constructor.
  - rewrite length_take. lia.
  - apply IH. rewrite length_drop. lia.
Qed.

Lemma length_join_replicate g c :
  length (mjoin (replicate g c)) = g * length c.
Proof. induction g as [|g IH]; simpl; [done|]. rewrite length_app, IH. lia. Qed.

Lemma take_join_replicate g c :
  0 < g → take (length c) (mjoin (replicate g c)) = c.
Proof. destruct g; [lia|]. intros _. simpl. by rewrite take_app_length. Qed.

(** Picking the first member of every group of a broadcast gives back
    the blocks that were broadcast. *)
Lemma first_of_broadcast n inner g l :
  0 < g → length l = n * inner →
  mjoin ((λ c, take inner (drop (0 * inner) c))
           <$> chunks n (g * inner)
                 (mjoin ((λ c, mjoin (replicate g c)) <$> chunks n inner l))) = l.
Proof.
  intros Hg Hl.
  pose proof (Forall_length_chunks n inner l Hl) as Hcs.
  rewrite <-(length_chunks n inner l) at 1.
  rewrite <-(length_fmap (λ c, mjoin (replicate g c))).
  rewrite chunks_join.
  - rewrite <-list_fmap_compose.
    rewrite (Forall_fmap_ext_1 _ id); [by rewrite list_fmap_id, join_chunks|].
    eapply Forall_impl; [exact Hcs|]. intros c Hc; simpl.
    rewrite <-Hc. by apply take_join_replicate.
  - apply Forall_fmap. eapply Forall_impl; [exact Hcs|].
    intros c Hc; simpl. by rewrite length_join_replicate, Hc.
Qed.
End chunk_facts.

(** ** The head-layout converter *)

Section converter.
Import Torch Falcon.
Context {A : Type}.
Implicit Types state : tensor A.

Lemma floordiv_mul b k : 0 < k → floordiv (b * k) k = Ok b.
Proof. intros ?. unfold floordiv. rewrite decide_False by lia. by rewrite Nat.div_mul by lia. Qed.

Lemma join_replicate_1 (l : list A) : mjoin (replicate 1 l) = l.
Proof. simpl. apply app_nil_r. Qed.

Lemma view_ok sh (t : tensor A) :
  numel sh = numel (shape t) → view sh t = Ok (Tensor sh (data t)).
Proof. intros ?. unfold view. by rewrite decide_True. Qed.

Lemma reshape_ok sh (t : tensor A) :
  numel sh = numel (shape t) → reshape sh t = Ok (Tensor sh (data t)).
Proof. intros ?. unfold reshape. by rewrite decide_True. Qed.

(** The one broadcast of the block: the group dimension. *)
Lemma expand_groups b kv g s d (l : list A) :
  expand [None; None; Some g; None; None] (Tensor [b; kv; 1; s; d] l) =
    Ok (if decide (1 = g) then Tensor [b; kv; 1; s; d] l
        else expand_dim 2 g (Tensor [b; kv; 1; s; d] l)).
Proof.
  unfold expand. rewrite decide_True by (split; [done|constructor]).
  cbn [length Nat.sub replicate app shape data expand_from lookup list_lookup].
  destruct (decide (1 = g)); [done|]. by rewrite decide_True.
Qed.

(** What [_expand_states] returns on a state of [batch_size] batches. *)
Lemma _expand_states_ok cfg state batch_size seq_len head_dim :
  consistent cfg →
  shape state = [batch_size * num_kv_heads cfg; seq_len; head_dim] →
  well_formed state →
  _expand_states cfg state =
    Ok (Tensor [batch_size * num_attention_heads cfg; seq_len; head_dim]
          (mjoin ((λ c, mjoin (replicate (num_key_value_groups cfg) c))
                    <$> chunks (batch_size * num_kv_heads cfg) (seq_len * head_dim)
                          (data state)))).
Proof.
  intros (Hkv & Hg & Hheads) Hshape Hwf. destruct state as [sh d].
  unfold well_formed in Hwf; simpl in *; subst sh; simpl in Hwf.
  unfold _expand_states; cbn [shape data].
  rewrite floordiv_mul by done; cbn [rbind].
  rewrite view_ok by (simpl; lia); cbn [rbind shape data].
  rewrite expand_groups; cbn [rbind].
  assert (batch_size * (num_kv_heads cfg * 1) = batch_size * num_kv_heads cfg) as E1 by lia.
  assert (seq_len * (head_dim * 1) = seq_len * head_dim) as E2 by lia.
  destruct (decide (1 = num_key_value_groups cfg)) as [Hone|Hne].
  - rewrite reshape_ok by (simpl; rewrite Hheads; lia). cbn [rbind shape data].
    do 2 f_equal. rewrite <-Hone.
    rewrite (Forall_fmap_ext_1 _ id), list_fmap_id.
    + symmetry. apply join_chunks. lia.
    + apply Forall_true. intros c. apply join_replicate_1.
  - rewrite reshape_ok by (simpl; rewrite Hheads; lia).
    unfold expand_dim; simpl. by rewrite E1, E2.
Qed.

(** What [_collapse_states] returns on an expanded state. *)
Lemma _collapse_states_ok cfg state batch_size seq_len head_dim :
  consistent cfg →
  shape state = [batch_size * num_attention_heads cfg; seq_len; head_dim] →
  _collapse_states cfg state =
    Ok (Tensor [batch_size * num_kv_heads cfg; seq_len; head_dim]
          (mjoin ((λ c, take (seq_len * head_dim) (drop (0 * (seq_len * head_dim)) c))
                    <$> chunks (batch_size * num_kv_heads cfg)
                          (num_key_value_groups cfg * (seq_len * head_dim))
                          (data state)))).
Proof.
  intros (Hkv & Hg & Hheads) Hshape. destruct state as [sh d]; simpl in *; subst sh.
  unfold _collapse_states; cbn [shape data].
  rewrite floordiv_mul by lia; cbn [rbind].
  rewrite view_ok by (simpl; rewrite Hheads; lia); cbn [rbind].
  unfold select; cbn [shape data lookup list_lookup]. rewrite decide_True by lia.
  cbn [rbind]. rewrite view_ok by (simpl; lia). simpl.
  assert (batch_size * (num_kv_heads cfg * 1) = batch_size * num_kv_heads cfg) as -> by lia.
  assert (seq_len * (head_dim * 1) = seq_len * head_dim) as -> by lia.
  done.
Qed.

(** C1: expanding a collapsed key/value state to the per-query-head
    layout and collapsing it again returns the very same tensor. *)
Theorem collapse_expand_roundtrip cfg state batch_size seq_len head_dim :
  consistent cfg →
  shape state = [batch_size * num_kv_heads cfg; seq_len; head_dim] →
  well_formed state →
  (expanded ←r _expand_states cfg state; _collapse_states cfg expanded) = Ok state.
Proof.
  intros Hcfg Hshape Hwf.
  rewrite (_expand_states_ok cfg state batch_size seq_len head_dim) by done.
  simpl. erewrite _collapse_states_ok by done. simpl.
  destruct Hcfg as (Hkv & Hg & Hheads).
  rewrite first_of_broadcast.
  - destruct state; simpl in *. by rewrite Hshape.
  - done.
  - unfold well_formed in Hwf. rewrite Hwf, Hshape. simpl. lia.
Qed.

(** On a non-empty state whose row count the number of key/value heads
    does not divide, the first [view] of [_expand_states] fails. *)
Lemma _expand_states_indivisible cfg state n seq_len head_dim :
  0 < num_kv_heads cfg → shape state = [n; seq_len; head_dim] →
  0 < seq_len → 0 < head_dim → n `mod` num_kv_heads cfg ≠ 0 →
  _expand_states cfg state = Raise shape_invalid.
Proof.
  intros Hkv Hshape Hs Hd Hmod. unfold _expand_states. rewrite Hshape.
  unfold floordiv. rewrite decide_False by lia. cbn [rbind].
  unfold view. rewrite decide_False; [done|]. rewrite Hshape. simpl.
  intros Heq. simpl in Heq.
  assert (n `div` num_kv_heads cfg * num_kv_heads cfg = n) as Hn.
  { apply (Nat.mul_cancel_r _ _ (seq_len * head_dim)); [|lia].
    apply Nat.neq_mul_0. lia. }
  apply Hmod. rewrite <-Hn at 1. by apply Nat.Div0.mod_mul.
Qed.

(** The same for [_collapse_states] and the number of query heads. *)
Lemma _collapse_states_indivisible cfg state n seq_len head_dim :
  consistent cfg → shape state = [n; seq_len; head_dim] →
  0 < seq_len → 0 < head_dim → n `mod` num_attention_heads cfg ≠ 0 →
  _collapse_states cfg state = Raise shape_invalid.
Proof.
  intros (Hkv & Hg & Hheads) Hshape Hs Hd Hmod. unfold _collapse_states. rewrite Hshape.
  assert (0 < num_attention_heads cfg) by (rewrite Hheads; by apply Nat.mul_pos_pos).
  unfold floordiv. rewrite decide_False by lia. cbn [rbind].
  unfold view. rewrite decide_False; [done|]. rewrite Hshape. simpl.
  intros Heq. simpl in Heq.
  assert (n `div` num_attention_heads cfg * num_attention_heads cfg = n) as Hn.
  { apply (Nat.mul_cancel_r _ _ (seq_len * head_dim)); [apply Nat.neq_mul_0; lia|].
    set (q := n `div` num_attention_heads cfg) in *. rewrite Hheads. lia. }
  apply Hmod. rewrite <-Hn at 1. by apply Nat.Div0.mod_mul.
Qed.

(** C7, as amended: a state with at least one position and one feature
    whose row count is not a multiple of the number of key/value heads
    (on expansion) or of query heads (on collapse) is rejected by [view]
    with the tensor library's shape error. *)
Theorem indivisible_batch_raises cfg state n seq_len head_dim :
  consistent cfg → shape state = [n; seq_len; head_dim] →
  0 < seq_len → 0 < head_dim →
  (n `mod` num_kv_heads cfg ≠ 0 → _expand_states cfg state = Raise shape_invalid)
  ∧ (n `mod` num_attention_heads cfg ≠ 0 →
     _collapse_states cfg state = Raise shape_invalid).
Proof.
  intros Hcfg Hshape Hs Hd. split; intros Hmod.
  - destruct Hcfg as (Hkv & _). by eapply _expand_states_indivisible.
  - by eapply _collapse_states_indivisible.
Qed.
End converter.

Lemma collapse_expand_roundtrip_witness :
  Falcon.consistent Examples.falcon_40b
  ∧ Torch.well_formed Examples.state_8_1_2
  ∧ (expanded ←r Falcon._expand_states Examples.falcon_40b Examples.state_8_1_2;
     Falcon._collapse_states Examples.falcon_40b expanded) = Ok Examples.state_8_1_2.
Proof.
  assert (Falcon.consistent Examples.falcon_40b) as Hcfg.
  { unfold Falcon.consistent; simpl; lia. }
  split; [exact Hcfg|]. split; [reflexivity|].
  apply (collapse_expand_roundtrip Examples.falcon_40b Examples.state_8_1_2 1 1 2);
    [exact Hcfg|reflexivity|reflexivity].
Defined.

Lemma indivisible_batch_raises_witness :
  Falcon._expand_states Examples.small_config Examples.state_3_1_2
    = Raise Torch.shape_invalid
  ∧ Falcon._collapse_states Examples.small_config Examples.state_3_1_2
    = Raise Torch.shape_invalid.
Proof.
  destruct (indivisible_batch_raises Examples.small_config Examples.state_3_1_2 3 1 2)
    as [He Hc].
  - unfold Falcon.consistent; simpl; lia.
  - reflexivity.
  - lia.
  - lia.
  - split; [apply He|apply Hc]; simpl; lia.
Defined.

(** C7 as stated fails: an empty cache (no position yet) of 3 rows is
    expanded for 2 key/value heads without any error, to 4 rows. *)
Lemma empty_state_expands_despite_indivisible_batch :
  3 `mod` Falcon.num_kv_heads Examples.small_config ≠ 0
  ∧ Torch.well_formed Examples.empty_state_3
  ∧ Falcon._expand_states Examples.small_config Examples.empty_state_3
    = Ok (Torch.Tensor [4; 0; 2] []).
Proof. split; [simpl; lia|]. split; reflexivity. Qed.

(** ** The engine primitives *)

Section engine_facts.
Import Torch GraphSite.
Context {elt Self : Type}.
Implicit Types (m : @machine elt Self) (t : tensor elt) (h : gmap loc (tensor elt)).

Lemma bind_ok {A B} (c : M Self A) (k : A → M Self B) m a m1 :
  c m = (Ok a, m1) → bind c k m = k a m1.
Proof. intros H. unfold bind. by rewrite H. Qed.

Lemma bind_raise {A B} (c : M Self A) (k : A → M Self B) m e m1 :
  c m = (Raise e, m1) → bind c k m = (Raise e, m1).
Proof. intros H. unfold bind. by rewrite H. Qed.

Lemma bind_assoc {A B C} (c : M Self A) (k1 : A → M Self B) (k2 : B → M Self C) m :
  bind (bind c k1) k2 m = bind c (λ a, bind (k1 a) k2) m.
Proof. unfold bind. destruct (c m) as [[a|e] m1]; [|done]. done. Qed.

Lemma expand_from_same t rest k :
  drop k (shape t) = rest → expand_from k (Some <$> rest) t = Ok t.
Proof.
  revert k; induction rest as [|n rest IH]; intros k Hk; simpl; [done|].
  assert (shape t !! k = Some n) as ->.
  { rewrite <-(Nat.add_0_r k), <-lookup_drop, Hk. done. }
  rewrite decide_True by done. apply IH.
  replace (S k) with (k + 1) by lia. by rewrite <-drop_drop, Hk.
Qed.

(** Broadcasting a tensor to its own shape changes nothing. *)
Lemma expand_same t : expand (Some <$> shape t) t = Ok t.
Proof.
  unfold expand. rewrite length_fmap, Nat.sub_diag.
  rewrite decide_True by (split; [lia|constructor]). simpl.
  destruct t as [sh d]; simpl. by apply expand_from_same.
Qed.

Lemma read_all_holds m ls vs :
  holds (heap m) ls vs → read_all ls m = (Ok vs, m).
Proof.
  induction 1 as [|l v ls vs Hl _ IH]; simpl; [done|].
  unfold bind, read. by rewrite Hl, IH.
Qed.

Lemma write_all_eq ls vs m :
  write_all ls vs m =
    (Ok (), Machine (self m) (write_heap ls vs (heap m)) (next_loc m) (trace m)
              (inference_mode m)).
Proof.
  revert vs m; induction ls as [|l ls IH]; intros [|v vs] m; try by destruct m.
  simpl. unfold bind, write. by rewrite IH.
Qed.

Lemma alloc_all_eq vs m :
  alloc_all vs m =
    (Ok (seq (next_loc m) (length vs)),
     Machine (self m) (write_heap (seq (next_loc m) (length vs)) vs (heap m))
       (next_loc m + length vs) (trace m) (inference_mode m)).
Proof.
  revert m; induction vs as [|v vs IH]; intros m; simpl.
  - destruct m; unfold ret; simpl. by rewrite Nat.add_0_r.
  - unfold bind, alloc. rewrite IH; simpl. unfold ret. do 3 f_equal. lia.
Qed.

Lemma reserve_n_eq n m :
  reserve_n n m =
    (Ok (seq (next_loc m) n),
     Machine (self m) (heap m) (next_loc m + n) (trace m) (inference_mode m)).
Proof.
  revert m; induction n as [|n IH]; intros m; simpl.
  - destruct m; unfold ret; simpl. by rewrite Nat.add_0_r.
  - unfold bind, reserve. rewrite IH; simpl. unfold ret. do 3 f_equal. lia.
Qed.

Lemma run_eq op ins vs outs m :
  holds (heap m) ins vs → op vs = Ok outs →
  run op ins m =
    (Ok (seq (next_loc m) (length outs)),
     Machine (self m) (write_heap (seq (next_loc m) (length outs)) outs (heap m))
       (next_loc m + length outs) (trace m ++ [Run]) (inference_mode m)).
Proof.
  intros Hins Hop. unfold run, bind. rewrite (read_all_holds _ _ vs) by done.
  unfold lift. rewrite Hop. unfold emit. by rewrite alloc_all_eq.
Qed.

Lemma capture_eq op ins vs outs m :
  holds (heap m) ins vs → op vs = Ok outs →
  capture op ins m =
    (Ok ({| recorded := Some (ins, op, seq (next_loc m) (length outs)) |},
         seq (next_loc m) (length outs)),
     Machine (self m) (heap m) (next_loc m + length outs) (trace m ++ [Capture])
       (inference_mode m)).
Proof.
  intros Hins Hop. unfold capture, bind. rewrite (read_all_holds _ _ vs) by done.
  unfold lift. rewrite Hop. by rewrite reserve_n_eq.
Qed.

Lemma replay_eq op ins outs vs rs m :
  holds (heap m) ins vs → op vs = Ok rs →
  replay {| recorded := Some (ins, op, outs) |} m =
    (Ok (), Machine (self m) (write_heap outs rs (heap m)) (next_loc m)
              (trace m ++ [Replay]) (inference_mode m)).
Proof.
  intros Hins Hop. unfold replay, bind; simpl. rewrite (read_all_holds _ _ vs) by done.
  unfold lift. rewrite Hop. by rewrite write_all_eq.
Qed.

Lemma copy__eq dst src d s m :
  heap m !! dst = Some d → heap m !! src = Some s → shape s = shape d →
  copy_ dst src m =
    (Ok (), Machine (self m) (<[dst:=s]> (heap m)) (next_loc m)
              (trace m ++ [Copy dst src]) (inference_mode m)).
Proof.
  intros Hd Hs Hsh. unfold copy_, bind, read. rewrite Hd, Hs. unfold lift.
  rewrite <-Hsh, expand_same. unfold write, emit; simpl. by destruct s.
Qed.
End engine_facts.

(** ** Storage after a sequence of writes *)

Section heap_facts.
Import Torch GraphSite.
Context {elt Self : Type}.
Implicit Types (m : @machine elt Self) (h : gmap loc (tensor elt)).
Implicit Types (ls : list loc) (vs : list (tensor elt)).

Lemma write_heap_other ls vs h l :
  l ∉ ls → write_heap ls vs h !! l = h !! l.
Proof.
  revert vs h; induction ls as [|l' ls IH]; intros [|v vs] h Hl; simpl; try done.
  apply not_elem_of_cons in Hl as [? ?]. rewrite IH by done. by rewrite lookup_insert_ne.
Qed.

Lemma holds_write_heap ls vs h :
  NoDup ls → length ls = length vs → holds (write_heap ls vs h) ls vs.
Proof.
  intros Hnd; revert vs h. induction Hnd as [|l ls Hl Hnd IH]; intros [|v vs] h Hlen;
    simplify_eq/=; constructor.
  - rewrite write_heap_other by done. by rewrite lookup_insert_eq.
  - by apply IH.
Qed.

Lemma holds_agree h h' ls vs :
  holds h ls vs → (∀ l, l ∈ ls → h' !! l = h !! l) → holds h' ls vs.
Proof.
  intros Hh Heq. unfold holds in *. induction Hh as [|l v ls vs Hl _ IH]; constructor.
  - rewrite Heq; [done|]. by left.
  - apply IH. intros l' ?. apply Heq. by right.
Qed.

Lemma holds_length h ls vs : holds h ls vs → length ls = length vs.
Proof. apply Forall2_length. Qed.

Lemma holds_inj h ls vs vs' : holds h ls vs → holds h ls vs' → vs = vs'.
Proof.
  intros H; revert vs'. induction H as [|l v ls vs Hl _ IH]; intros vs' H'; inversion H'; subst.
  - done.
  - f_equal; [congruence|]. by apply IH.
Qed.

Lemma holds_below m ls vs l :
  fresh_above m → holds (heap m) ls vs → l ∈ ls → l < next_loc m.
Proof.
  intros Hf Hh Hl. apply list_elem_of_lookup in Hl as [i Hi].
  destruct (Forall2_lookup_l _ _ _ i l Hh Hi) as (v & _ & Hv).
  destruct (decide (l < next_loc m)); [done|]. rewrite Hf in Hv by lia. done.
Qed.

Lemma elem_of_seq_ge (n k l : nat) : l ∈ seq n k → n ≤ l.
Proof. rewrite elem_of_seq. lia. Qed.

Lemma compatible_tail h s ss i is' :
  NoDup (s :: ss) → compatible h (s :: ss) (i :: is') →
  ∀ v, compatible (<[s:=v]> h) ss is'.
Proof.
  intros Hnd [Hsh Hal] v. apply NoDup_cons in Hnd as [Hs Hnd].
  apply Forall2_cons in Hsh as [_ Hsh]. split.
  - apply Forall2_same_length_lookup. split; [by eapply Forall2_length|].
    intros k sl il Hsl Hil.
    destruct (Forall2_lookup_l _ _ _ k sl Hsh Hsl) as (il' & Hil' & sv & iv & ? & ? & ?).
    simplify_eq. exists sv, iv. split_and!; [| |done].
    + rewrite lookup_insert_ne; [done|]. intros ->. apply Hs. by eapply list_elem_of_lookup_2.
    + rewrite lookup_insert_ne; [done|]. intros ->.
      specialize (Hal 0 (S k) il eq_refl Hil). done.
  - intros k j l Hk Hj. by specialize (Hal (S k) (S j) l Hk Hj) as [= ->].
Qed.

(** Copying a surface onto itself is always possible. *)
Lemma compatible_self h ls vs : NoDup ls → holds h ls vs → compatible h ls ls.
Proof.
  intros Hnd Hh. split.
  - apply Forall2_same_length_lookup. split; [done|]. intros i l l' Hl Hl'. simplify_eq.
    destruct (Forall2_lookup_l _ _ _ i l Hh Hl) as (v & _ & Hv). by exists v, v.
  - intros i j l Hi Hj. by eapply NoDup_lookup.
Qed.

Lemma write_heap_holds_id ls vs h : holds h ls vs → write_heap ls vs h = h.
Proof.
  intros Hh; induction Hh as [|l v ls vs Hl Hh IH]; simpl; [done|].
  by rewrite insert_id.
Qed.

Lemma copy_zip_eq surface inputs vals m :
  NoDup surface → compatible (heap m) surface inputs → holds (heap m) inputs vals →
  copy_zip surface inputs m =
    (Ok (), Machine (self m) (write_heap surface vals (heap m)) (next_loc m)
              (trace m ++ zip_with Copy surface inputs) (inference_mode m)).
Proof.
  revert inputs vals m. induction surface as [|s ss IH]; intros inputs vals m Hnd Hc Hh.
  { destruct Hc as [Hsh _]. apply Forall2_nil_inv_l in Hsh as ->.
    apply Forall2_nil_inv_l in Hh as ->. destruct m; simpl. unfold ret. by rewrite app_nil_r. }
  pose proof Hc as [Hsh Hal].
  destruct inputs as [|i is']; [by apply Forall2_nil_inv_r in Hsh|].
  destruct vals as [|v vs]; [by apply Forall2_nil_inv_r in Hh|].
  apply Forall2_cons in Hh as [Hi Hh].
  pose proof Hsh as Hsh'. apply Forall2_cons in Hsh' as [(sv & iv & Hsv & Hiv & Hshape) _].
  simplify_eq. simpl. unfold bind.
  rewrite (copy__eq s i sv v) by done.
  rewrite IH with (vals := vs); simpl.
  - by rewrite <-app_assoc.
  - by apply NoDup_cons in Hnd as [_ ?].
  - by eapply compatible_tail.
  - eapply holds_agree; [done|]. intros l Hl. rewrite lookup_insert_ne; [done|]. intros ->.
    apply list_elem_of_lookup in Hl as [j Hj]. by specialize (Hal 0 (S j) l eq_refl Hj).
Qed.
End heap_facts.

(** One step of a computation whose first action is known to succeed. *)
Ltac mstep tac :=
  rewrite ?bind_assoc; erewrite bind_ok by tac; cbv beta iota;
  cbn [GraphSite.self GraphSite.heap GraphSite.next_loc GraphSite.trace
       GraphSite.inference_mode].
Ltac mstep_refl := mstep ltac:(reflexivity).

(** ** Warm-up, and copy-in followed by replay *)

Section accelerate_facts.
Import Torch GraphSite.
Context {elt Self : Type}.
Implicit Types (m : @machine elt Self) (h : gmap loc (tensor elt)).
Implicit Types (ls : list loc) (vs : list (tensor elt)).

Lemma grown_refl h n : (∀ l, n ≤ l → h !! l = None) → grown h n h n.
Proof. intros ?. by split_and!. Qed.

Lemma grown_trans h n h1 n1 h2 n2 :
  grown h n h1 n1 → grown h1 n1 h2 n2 → grown h n h2 n2.
Proof.
  intros (? & H1 & _) (? & H2 & ?). split_and!; [lia| |done].
  intros l ?. rewrite H2 by lia. by apply H1.
Qed.

Lemma grown_alloc h n vs :
  (∀ l, n ≤ l → h !! l = None) →
  grown h n (write_heap (seq n (length vs)) vs h) (n + length vs).
Proof.
  intros Hf. split_and!; [lia| |]; intros l ?.
  - apply write_heap_other. rewrite elem_of_seq. lia.
  - rewrite write_heap_other by (rewrite elem_of_seq; lia). apply Hf. lia.
Qed.

Lemma holds_grown h n h' n' ls vs :
  (∀ l, n ≤ l → h !! l = None) → grown h n h' n' → holds h ls vs → holds h' ls vs.
Proof.
  intros Hf (_ & Hold & _) Hh. eapply holds_agree; [done|]. intros l Hl.
  apply Hold. apply list_elem_of_lookup in Hl as [i Hi].
  destruct (Forall2_lookup_l _ _ _ i l Hh Hi) as (v & _ & Hv).
  destruct (decide (l < n)); [done|]. rewrite Hf in Hv by lia. done.
Qed.

(** The warm-up loop: [k] normal executions, whose results are dropped. *)
Lemma warm_up_eq op ins vals rs k m :
  fresh_above m → holds (heap m) ins vals → op vals = Ok rs →
  ∃ h' n',
    for_range k (let! _ := run op ins in ret ()) m =
      (Ok (), Machine (self m) h' n' (trace m ++ replicate k Run) (inference_mode m))
    ∧ grown (heap m) (next_loc m) h' n'.
Proof.
  revert m. induction k as [|k IH]; intros m Hf Hh Hop.
  { exists (heap m), (next_loc m). destruct m; simpl. unfold ret.
    rewrite app_nil_r. split; [done|]. by apply grown_refl. }
  pose proof (grown_alloc (heap m) (next_loc m) rs Hf) as Hg.
  set (m1 := Machine (self m) (write_heap (seq (next_loc m) (length rs)) rs (heap m))
               (next_loc m + length rs) (trace m ++ [Run]) (inference_mode m)).
  destruct (IH m1) as (h' & n' & Heq & Hg'); [|by eapply holds_grown|done|].
  { intros l ?. by apply Hg. }
  exists h', n'. split; [|by eapply grown_trans].
  cbn [for_range]. unfold bind at 1. unfold bind at 1.
  rewrite (run_eq op ins vals rs) by done. unfold ret at 1. fold m1.
  rewrite Heq. simpl. by rewrite <-app_assoc.
Qed.

(** Copy-in followed by replay: the buffers of the surface take the
    values of the inputs and the output buffers the results on them. *)
Lemma copy_replay_eq op surface outs inputs vals rs m :
  NoDup surface → compatible (heap m) surface inputs → holds (heap m) inputs vals →
  op vals = Ok rs →
  (let! _ := copy_zip surface inputs in
   replay {| recorded := Some (surface, op, outs) |}) m =
    (Ok (), Machine (self m) (write_heap outs rs (write_heap surface vals (heap m)))
              (next_loc m) (trace m ++ zip_with Copy surface inputs ++ [Replay])
              (inference_mode m)).
Proof.
  intros Hnd Hc Hh Hop. unfold bind. rewrite (copy_zip_eq _ _ vals) by done.
  rewrite (replay_eq op surface outs vals rs); simpl.
  - by rewrite <-app_assoc.
  - apply holds_write_heap; [done|].
    destruct Hc as [Hsh _]. apply Forall2_length in Hsh. apply holds_length in Hh. lia.
  - done.
Qed.
End accelerate_facts.

(** ** What a computation may change *)

Section evolves_facts.
Import Torch GraphSite.
Context {elt Self : Type}.
Variable E : event → Prop.
Variable P : Self → Self → Prop.
Context `{!PreOrder P}.
Implicit Types (m : @machine elt Self).
Abbreviation R := (@evolves elt Self E P).

Lemma evolves_refl m : R m m.
Proof. split_and!; [done..|]. exists []. by rewrite app_nil_r. Qed.

Lemma evolves_trans m1 m2 m3 : R m1 m2 → R m2 m3 → R m1 m3.
Proof.
  intros (? & ? & evs & Ht & ?) (? & ? & evs' & Ht' & ?). split_and!.
  - by etrans.
  - congruence.
  - exists (evs ++ evs'). rewrite Ht', Ht, <-app_assoc. split; [done|]. by apply Forall_app.
Qed.

Lemma bind_inv_ok {A B} (c : M Self A) (k : A → M Self B) m b m' :
  bind c k m = (Ok b, m') → ∃ a m1, c m = (Ok a, m1) ∧ k a m1 = (Ok b, m').
Proof. unfold bind. destruct (c m) as [[a|e] m1]; [eauto|done]. Qed.

Lemma preserves_bind {A B} (c : M Self A) (k : A → M Self B) :
  preserves R c → (∀ a, preserves R (k a)) → preserves R (bind c k).
Proof.
  intros Hc Hk m r m'. unfold bind. destruct (c m) as [[a|e] m1] eqn:Hcm.
  - intros Hkm. eapply evolves_trans; [by eapply Hc|by eapply Hk].
  - intros [= <- <-]. by eapply Hc.
Qed.

Lemma preserves_ret {A} (a : A) : preserves R (ret a).
Proof. intros m r m' [= <- <-]. apply evolves_refl. Qed.
Lemma preserves_throw {A} e : preserves R (@throw elt Self A e).
Proof. intros m r m' [= <- <-]. apply evolves_refl. Qed.
Lemma preserves_lift {A} (x : result A) : preserves R (lift x).
Proof. intros m r m' [= <- <-]. apply evolves_refl. Qed.
Lemma preserves_get_self : preserves R get_self.
Proof. intros m r m' [= <- <-]. apply evolves_refl. Qed.
Lemma preserves_is_inference_mode_enabled : preserves R is_inference_mode_enabled.
Proof. intros m r m' [= <- <-]. apply evolves_refl. Qed.
Lemma preserves_not_none {A} (o : option A) : preserves R (not_none o).
Proof. destruct o; [apply preserves_ret|apply preserves_throw]. Qed.
Lemma preserves_read l : preserves R (read l).
Proof.
  intros m r m'. unfold read. destruct (heap m !! l); intros [= <- <-]; apply evolves_refl.
Qed.

Lemma evolves_storage m h n :
  R m (Machine (self m) h n (trace m) (inference_mode m)).
Proof. split_and!; [done..|]. exists []. by rewrite app_nil_r. Qed.

Lemma preserves_write l v : preserves R (write l v).
Proof. intros m r m' [= <- <-]. apply evolves_storage. Qed.
Lemma preserves_alloc v : preserves R (alloc v).
Proof. intros m r m' [= <- <-]. apply evolves_storage. Qed.
Lemma preserves_reserve : preserves R reserve.
Proof. intros m r m' [= <- <-]. apply evolves_storage. Qed.

Lemma preserves_emit e : E e → preserves R (emit e).
Proof.
  intros He m r m' [= <- <-]. split_and!; [done..|]. exists [e]. split; [done|].
  by constructor.
Qed.

Lemma preserves_set_self s : (∀ s0, P s0 s) → preserves R (set_self s).
Proof.
  intros Hs m r m' [= <- <-]. split_and!; [apply Hs|done|]. exists []. by rewrite app_nil_r.
Qed.

Lemma preserves_read_all ls : preserves R (read_all ls).
Proof.
  induction ls as [|l ls IH]; simpl; [apply preserves_ret|].
  apply preserves_bind; [apply preserves_read|]. intros v.
  apply preserves_bind; [done|]. intros vs. apply preserves_ret.
Qed.

Lemma preserves_alloc_all vs : preserves R (alloc_all vs).
Proof.
  induction vs as [|v vs IH]; simpl; [apply preserves_ret|].
  apply preserves_bind; [apply preserves_alloc|]. intros l.
  apply preserves_bind; [done|]. intros ls. apply preserves_ret.
Qed.

Lemma preserves_reserve_n n : preserves R (reserve_n n).
Proof.
  induction n as [|n IH]; simpl; [apply preserves_ret|].
  apply preserves_bind; [apply preserves_reserve|]. intros l.
  apply preserves_bind; [done|]. intros ls. apply preserves_ret.
Qed.

Lemma preserves_write_all ls vs : preserves R (write_all ls vs).
Proof.
  revert vs; induction ls as [|l ls IH]; intros [|v vs]; simpl; try apply preserves_ret.
  apply preserves_bind; [apply preserves_write|]. intros _. apply IH.
Qed.

Lemma preserves_for_range n body : preserves R body → preserves R (for_range n body).
Proof.
  intros Hb. induction n as [|n IH]; simpl; [apply preserves_ret|].
  apply preserves_bind; [done|]. by intros _.
Qed.

Lemma preserves_run op ins : E Run → preserves R (run op ins).
Proof.
  intros He. unfold run.
  apply preserves_bind; [apply preserves_read_all|]. intros vs.
  apply preserves_bind; [apply preserves_lift|]. intros outs.
  apply preserves_bind; [by apply preserves_emit|]. intros _. apply preserves_alloc_all.
Qed.

Lemma preserves_capture op ins : E Capture → preserves R (capture op ins).
Proof.
  intros He. unfold capture.
  apply preserves_bind; [apply preserves_read_all|]. intros vs.
  apply preserves_bind; [apply preserves_lift|]. intros outs.
  apply preserves_bind; [apply preserves_reserve_n|]. intros ls.
  apply preserves_bind; [by apply preserves_emit|]. intros _. apply preserves_ret.
Qed.

Lemma preserves_copy_ dst src : E (Copy dst src) → preserves R (copy_ dst src).
Proof.
  intros He. unfold copy_.
  apply preserves_bind; [apply preserves_read|]. intros d.
  apply preserves_bind; [apply preserves_read|]. intros s.
  apply preserves_bind; [apply preserves_lift|]. intros s'.
  apply preserves_bind; [apply preserves_write|]. intros _. by apply preserves_emit.
Qed.

Lemma preserves_copy_zip surface inputs :
  (∀ dst src, E (Copy dst src)) → preserves R (copy_zip surface inputs).
Proof.
  intros He. revert inputs; induction surface as [|s ss IH]; intros [|i is']; simpl;
    try apply preserves_ret.
  apply preserves_bind; [by apply preserves_copy_|]. intros _. apply IH.
Qed.

Lemma preserves_replay g : E Replay → preserves R (replay g).
Proof.
  intros He. unfold replay. destruct (recorded g) as [[[ins op] outs]|];
    [|apply preserves_throw].
  apply preserves_bind; [apply preserves_read_all|]. intros vs.
  apply preserves_bind; [apply preserves_lift|]. intros rs.
  apply preserves_bind; [apply preserves_write_all|]. intros _. by apply preserves_emit.
Qed.
End evolves_facts.

Global Instance any_change_preorder {Self} : PreOrder (@GraphSite.any_change Self).
Proof. by split. Qed.

Global Instance same_on_preorder {Self X} (proj : Self → X) :
  PreOrder (GraphSite.same_on proj).
Proof. split; [by intros ?|]. intros x y z; unfold GraphSite.same_on. congruence. Qed.

Lemma evolves_weaken {elt Self} (E E' : GraphSite.event → Prop) (P : Self → Self → Prop)
    (m m' : @GraphSite.machine elt Self) :
  (∀ e, E e → E' e) → GraphSite.evolves E P m m' → GraphSite.evolves E' P m m'.
Proof.
  intros HE (? & ? & evs & ? & Hall). split_and!; [done..|]. exists evs. split; [done|].
  eapply Forall_impl; [exact Hall|done].
Qed.

Lemma evolves_no_event {elt Self} (P : Self → Self → Prop)
    (m m' : @GraphSite.machine elt Self) :
  GraphSite.evolves GraphSite.no_event P m m' → GraphSite.trace m' = GraphSite.trace m.
Proof.
  intros (_ & _ & evs & -> & Hall). destruct evs as [|e evs]; [by rewrite app_nil_r|].
  by apply Forall_cons in Hall as [[] _].
Qed.

(** A normal execution that returns has emitted exactly one event. *)
Lemma run_ok_inv {elt Self} op ins (m m' : @GraphSite.machine elt Self) ls :
  GraphSite.run op ins m = (Ok ls, m') →
  GraphSite.trace m' = GraphSite.trace m ++ [GraphSite.Run].
Proof.
  unfold GraphSite.run. intros H.
  apply bind_inv_ok in H as (vs & m1 & H1 & H).
  apply bind_inv_ok in H as (rs & m2 & H2 & H).
  apply bind_inv_ok in H as ([] & m3 & H3 & H).
  apply (preserves_read_all GraphSite.no_event GraphSite.any_change) in H1.
  apply (preserves_lift GraphSite.no_event GraphSite.any_change) in H2.
  apply (preserves_alloc_all GraphSite.no_event GraphSite.any_change) in H.
  apply evolves_no_event in H1, H2, H. injection H3 as <-.
  cbn [GraphSite.trace] in H. congruence.
Qed.

(** Computations built from the primitives change what the primitives
    change. *)
Ltac preserves_side :=
  try apply _;
  try (by unfold GraphSite.any_event, GraphSite.is_run, GraphSite.any_change).
Ltac preserves_tac :=
  repeat lazymatch goal with
  | |- GraphSite.preserves _ (GraphSite.bind _ _) =>
      eapply preserves_bind; [..|intros ?]; preserves_side
  | |- GraphSite.preserves _ (GraphSite.ret _) => eapply preserves_ret; preserves_side
  | |- GraphSite.preserves _ GraphSite.get_self => eapply preserves_get_self; preserves_side
  | |- GraphSite.preserves _ GraphSite.is_inference_mode_enabled =>
      eapply preserves_is_inference_mode_enabled; preserves_side
  | |- GraphSite.preserves _ (GraphSite.not_none _) =>
      eapply preserves_not_none; preserves_side
  | |- GraphSite.preserves _ (GraphSite.read _) => eapply preserves_read; preserves_side
  | |- GraphSite.preserves _ (GraphSite.set_self _) =>
      eapply preserves_set_self; preserves_side
  | |- GraphSite.preserves _ (GraphSite.for_range _ _) =>
      eapply preserves_for_range; preserves_side
  | |- GraphSite.preserves _ (GraphSite.run _ _) => eapply preserves_run; preserves_side
  | |- GraphSite.preserves _ (GraphSite.capture _ _) =>
      eapply preserves_capture; preserves_side
  | |- GraphSite.preserves _ (GraphSite.copy_ _ _) => eapply preserves_copy_; preserves_side
  | |- GraphSite.preserves _ (GraphSite.copy_zip _ _) =>
      eapply preserves_copy_zip; preserves_side
  | |- GraphSite.preserves _ (GraphSite.replay _) => eapply preserves_replay; preserves_side
  | |- GraphSite.preserves _ (GraphSite.throw _) => eapply preserves_throw; preserves_side
  | |- GraphSite.preserves _ (match ?x with _ => _ end) => destruct x
  | |- GraphSite.preserves _ (let '(_, _) := ?x in _) => destruct x
  end.

(** From a run [H : c m = (r, m')], how [m'] came from [m]. *)
Ltac preserves_in H E :=
  match type of H with
  | ?c ?m = _ =>
      let Hp := fresh in
      cut (GraphSite.preserves (GraphSite.evolves E GraphSite.any_change) c);
        [intros Hp; apply Hp in H; clear Hp|preserves_tac]
  end.

(** A replay that returns has emitted its event last. *)
Lemma replay_ok_inv {elt Self} (g : @GraphSite.CUDAGraph elt)
    (m m' : @GraphSite.machine elt Self) u :
  GraphSite.replay g m = (Ok u, m') →
  ∃ evs, GraphSite.trace m' = GraphSite.trace m ++ evs ++ [GraphSite.Replay].
Proof.
  unfold GraphSite.replay. destruct (GraphSite.recorded g) as [[[ins op] outs]|]; [|done].
  intros H. apply bind_inv_ok in H as (vs & m1 & H1 & H).
  apply bind_inv_ok in H as (rs & m2 & H2 & H).
  apply bind_inv_ok in H as ([] & m3 & H3 & H).
  injection H as <- <-.
  apply (preserves_read_all GraphSite.any_event GraphSite.any_change) in H1
    as (_ & _ & e1 & E1 & _).
  apply (preserves_lift GraphSite.any_event GraphSite.any_change) in H2
    as (_ & _ & e2 & E2 & _).
  apply (preserves_write_all GraphSite.any_event GraphSite.any_change) in H3
    as (_ & _ & e3 & E3 & _).
  exists (e1 ++ e2 ++ e3). cbn [GraphSite.trace]. by rewrite E3, E2, E1, <-!app_assoc.
Qed.

(** ** The gate in front of a site *)

Section gate_facts.
Import Torch GraphSite.
Context {elt Self X : Type}.
Variable graph_state : Self → X.
Implicit Types (m : @machine elt Self).

(** The accelerated branch of a gate. *)
Lemma gated_accelerated (call : M Self (list loc)) seq_len m0 m r m' :
  same_on graph_state (self m0) (self m) → trace m = trace m0 →
  inference_mode m = inference_mode m0 →
  seq_len = 1 → inference_mode m0 = true →
  preserves (evolves any_event any_change) call →
  (∀ m outs m', call m = (Ok outs, m') → ∃ evs, trace m' = trace m ++ evs ++ [Replay]) →
  call m = (r, m') → gated graph_state seq_len m0 r m'.
Proof.
  intros _ Ht _ -> Hinf Hpres Hok Hcall.
  destruct (Hpres _ _ _ Hcall) as (_ & _ & evs & Hevs & _).
  exists evs. rewrite Hevs, Ht. split_and!; [done| |by intros []].
  intros outs ->. split; [done|]. intros _.
  destruct (Hok _ _ _ Hcall) as (evs' & Hevs'). rewrite Hevs' in Hevs.
  apply app_inv_head in Hevs as <-. apply elem_of_app. right. by left.
Qed.

(** The direct branch of a gate. *)
Lemma gated_direct op ins seq_len m0 m r m' :
  same_on graph_state (self m0) (self m) → trace m = trace m0 →
  inference_mode m = inference_mode m0 →
  ¬ (seq_len = 1 ∧ inference_mode m0 = true) →
  run op ins m = (r, m') → gated graph_state seq_len m0 r m'.
Proof.
  intros Hs Ht _ Hgate Hrun.
  destruct (preserves_run is_run (same_on graph_state) op ins eq_refl _ _ _ Hrun)
    as (Hs' & _ & evs & Hevs & Hall).
  exists evs. rewrite Hevs, Ht. split_and!; [done| |].
  - intros outs ->. split; [|done]. intros Hr. exfalso.
    rewrite Forall_forall in Hall. by specialize (Hall _ Hr).
  - intros _. split_and!; [by etrans|done|]. intros outs ->.
    apply run_ok_inv in Hrun. rewrite Hrun in Hevs. by apply app_inv_head in Hevs.
Qed.

(** A call that raised before it reached the gate. *)
Lemma gated_raise seq_len m0 m e :
  same_on graph_state (self m0) (self m) → trace m = trace m0 →
  gated graph_state seq_len m0 (Raise e) m.
Proof.
  intros Hs Ht. exists []. rewrite Ht, app_nil_r. split_and!; [done|done|].
  intros _. split_and!; [done|constructor|done].
Qed.
End gate_facts.

(** ** The rotary-embedding site *)

Section rotary_facts.
Import Torch GraphSite GraphSite.Rotary.
Context {elt : Type}.
Variable tmul tadd : tensor elt → tensor elt → result (tensor elt).
Variable rotate_half : tensor elt → result (tensor elt).
Variable emb_cos : Z → tensor elt.
Abbreviation op := (apply_rotary_star tmul tadd rotate_half).
Abbreviation call := (_optimized_apply_rotary tmul tadd rotate_half).
Implicit Types (m : @machine elt (@RotaryEmbedding elt)).

Lemma apply_rotary_star_length vals rs : op vals = Ok rs → length rs = 2.
Proof.
  unfold apply_rotary_star. repeat case_match; try done.
  destruct (apply_rotary _ _ _ _ _ _ _); simpl; [|done]. by intros [= <-].
Qed.

(** The first accelerated call. *)
Lemma rotary_first_call q k c s vals rs m :
  cuda_graph (self m) = None → fresh_above m → NoDup [q; k; c; s] →
  holds (heap m) [q; k; c; s] vals → op vals = Ok rs →
  ∃ outs m',
    call q k c s m = (Ok outs, m')
    ∧ trace m' = trace m ++ [Run; Run; Run; Capture]
                   ++ zip_with Copy [q; k; c; s] [q; k; c; s] ++ [Replay]
    ∧ bound_to tmul tadd rotate_half (self m') [q; k; c; s] outs
    ∧ separate [q; k; c; s] outs
    ∧ holds (heap m') [q; k; c; s] vals ∧ holds (heap m') outs rs
    ∧ fresh_above m' ∧ inference_mode m' = inference_mode m.
Proof.
  intros Hnone Hf Hnd Hh Hop.
  pose proof (apply_rotary_star_length _ _ Hop) as Hlen.
  set (self1 := set_graph (self m) (Some new_graph) (Some [q; k; c; s])
                  (static_outputs (self m))).
  set (m1 := Machine self1 (heap m) (next_loc m) (trace m) (inference_mode m)).
  destruct (warm_up_eq op [q; k; c; s] vals rs 3 m1) as (h' & n' & Hwarm & Hg); [done..|].
  simpl in Hg.
  assert (holds h' [q; k; c; s] vals) as Hh' by (by eapply holds_grown).
  set (outs := seq n' (length rs)).
  set (g := {| recorded := Some ([q; k; c; s], op, outs) |}).
  set (self2 := set_graph self1 (Some g) (input_surface self1) (Some outs)).
  set (h'' := write_heap outs rs (write_heap [q; k; c; s] vals h')).
  assert (separate [q; k; c; s] outs) as Hsep.
  { split_and!; [done|apply NoDup_seq|]. intros l Hl Hl'.
    apply elem_of_seq in Hl'. destruct Hg as (_ & _ & Hnone').
    apply list_elem_of_lookup in Hl as [i Hi].
    destruct (Forall2_lookup_l _ _ _ i l Hh' Hi) as (v & _ & Hv).
    rewrite Hnone' in Hv by lia. done. }
  exists outs, (Machine self2 h'' (n' + length rs)
                  (trace m ++ [Run; Run; Run; Capture]
                     ++ zip_with Copy [q; k; c; s] [q; k; c; s] ++ [Replay])
                  (inference_mode m)).
  split_and!; try done.
  - unfold _optimized_apply_rotary.
    mstep_refl. rewrite Hnone.
    mstep_refl. fold self1 m1. mstep_refl. mstep_refl.
    mstep ltac:(exact Hwarm).
    mstep ltac:(by apply (capture_eq op _ vals rs)).
    cbn [m1]. fold outs g.
    mstep_refl. mstep_refl. fold self2.
    mstep_refl. mstep_refl.
    mstep ltac:(apply (copy_zip_eq _ _ vals);
                [done|by eapply compatible_self|done]).
    mstep_refl. cbn [self2 set_graph cuda_graph static_outputs].
    mstep ltac:(apply (replay_eq op _ _ vals rs);
                [apply holds_write_heap; [done|by apply holds_length in Hh]|done]).
    mstep_refl. unfold ret. do 2 f_equal.
    simpl. by rewrite <-!app_assoc.
  - split_and!; try done. unfold outs. by rewrite length_seq.
  - cbn [heap]. unfold h''. eapply holds_agree; [exact Hh'|]. intros l Hl.
    rewrite write_heap_other by (destruct Hsep as (_ & _ & Hsep); by apply Hsep).
    by rewrite write_heap_holds_id.
  - apply holds_write_heap; [apply NoDup_seq|unfold outs; by rewrite length_seq].
  - intros l Hl. cbn [heap next_loc] in *. unfold h''.
    rewrite write_heap_other by (unfold outs; rewrite elem_of_seq; lia).
    rewrite write_heap_holds_id by done. destruct Hg as (_ & _ & Hg). apply Hg. lia.
Qed.

(** Every later accelerated call. *)
Lemma rotary_next_call q k c s surface outs vals rs m :
  bound_to tmul tadd rotate_half (self m) surface outs → separate surface outs →
  compatible (heap m) surface [q; k; c; s] →
  holds (heap m) [q; k; c; s] vals → op vals = Ok rs →
  ∃ m',
    call q k c s m = (Ok outs, m')
    ∧ self m' = self m
    ∧ trace m' = trace m ++ zip_with Copy surface [q; k; c; s] ++ [Replay]
    ∧ holds (heap m') surface vals ∧ holds (heap m') outs rs
    ∧ next_loc m' = next_loc m ∧ inference_mode m' = inference_mode m.
Proof.
  intros (Hgraph & Hsurf & Houts & Hlen) (Hnd & Hnd' & Hdisj) Hc Hh Hop.
  pose proof (apply_rotary_star_length _ _ Hop) as Hlen'.
  assert (length surface = length vals) as Hlens.
  { destruct Hc as [Hsh _]. apply Forall2_length in Hsh. apply holds_length in Hh. lia. }
  eexists. split_and!.
  - unfold _optimized_apply_rotary.
    mstep_refl. rewrite Hgraph. mstep_refl. mstep_refl. rewrite Hsurf. mstep_refl.
    mstep ltac:(by apply (copy_zip_eq _ _ vals)).
    rewrite Hgraph. mstep_refl.
    mstep ltac:(apply (replay_eq op _ _ vals rs); [by apply holds_write_heap|done]).
    rewrite Houts. mstep_refl. unfold ret. reflexivity.
  - done.
  - cbn [trace]. by rewrite <-app_assoc.
  - cbn [heap]. eapply holds_agree; [by apply holds_write_heap|].
    intros l Hl. apply write_heap_other. by apply Hdisj.
  - cbn [heap]. apply holds_write_heap; [done|lia].
  - done.
  - done.
Qed.

(** [cos_sin] touches neither the engine nor the graph attributes. *)
Lemma cos_sin_quiet seq_len past :
  preserves (evolves no_event (same_on graph_state)) (cos_sin emb_cos seq_len past).
Proof.
  intros m r m'. unfold cos_sin, bind, get_self, set_self, ret, throw, lift, alloc.
  repeat case_match; intros; simplify_eq/=;
    (split_and!; [done|done|exists []; by rewrite app_nil_r]).
Qed.

(** An accelerated call that returns has replayed the graph. *)
Lemma rotary_call_ok_inv q k c s m outs m' :
  call q k c s m = (Ok outs, m') → ∃ evs, trace m' = trace m ++ evs ++ [Replay].
Proof.
  unfold _optimized_apply_rotary. intros H.
  apply bind_inv_ok in H as (self0 & m0 & [= <- <-] & H).
  apply bind_inv_ok in H as ([] & m1 & H1 & H).
  apply bind_inv_ok in H as (self3 & ? & [= <- <-] & H).
  apply bind_inv_ok in H as (surface & m2 & H2 & H).
  apply bind_inv_ok in H as ([] & m3 & H3 & H).
  apply bind_inv_ok in H as (g & m4 & H4 & H).
  apply bind_inv_ok in H as ([] & m5 & H5 & H).
  apply bind_inv_ok in H as (outs' & m6 & H6 & H).
  injection H as <- <-.
  assert (evolves any_event any_change m m1) as (_ & _ & e1 & E1 & _).
  { match type of H1 with
    | ?c m = _ => cut (preserves (evolves any_event any_change) c);
                    [intros Hp; exact (Hp _ _ _ H1)|]
    end.
    preserves_tac. }
  apply (preserves_not_none any_event any_change) in H2 as (_ & _ & e2 & E2 & _).
  apply (preserves_copy_zip any_event any_change) in H3 as (_ & _ & e3 & E3 & _); [|done].
  apply (preserves_not_none any_event any_change) in H4 as (_ & _ & e4 & E4 & _).
  apply replay_ok_inv in H5 as (e5 & E5).
  apply (preserves_not_none no_event any_change) in H6. apply evolves_no_event in H6.
  exists (e1 ++ e2 ++ e3 ++ e4 ++ e5). rewrite H6, E5, E4, E3, E2, E1.
  by rewrite <-!app_assoc.
Qed.

Lemma rotary_call_preserves q k c s :
  preserves (evolves any_event any_change) (call q k c s).
Proof. unfold _optimized_apply_rotary. preserves_tac. Qed.

(** The gate of [forward]. *)
Lemma rotary_gate query key past qv b seq_len d m r m' :
  heap m !! query = Some qv → shape qv = [b; seq_len; d] →
  forward tmul tadd rotate_half emb_cos query key past m = (r, m') →
  gated graph_state seq_len m r m'.
Proof.
  intros Hq Hsh. unfold forward.
  erewrite bind_ok by (unfold read; by rewrite Hq). rewrite Hsh.
  destruct (cos_sin emb_cos seq_len past m) as [[[cos sin]|e] m1] eqn:Hcs.
  2:{ erewrite bind_raise by done. intros [= <- <-].
      pose proof (cos_sin_quiet _ _ _ _ _ Hcs) as Hq'.
      apply gated_raise; [apply Hq'|by apply evolves_no_event in Hq']. }
  pose proof (cos_sin_quiet _ _ _ _ _ Hcs) as Hq'.
  pose proof (evolves_no_event _ _ _ Hq') as Ht. destruct Hq' as (Hs & Hinf & _).
  erewrite bind_ok by done. cbv beta iota. erewrite bind_ok by reflexivity.
  rewrite Hinf.
  destruct (decide (seq_len = 1 ∧ inference_mode m = true)) as [[-> Hon]|Hoff].
  - rewrite Hon. rewrite bool_decide_eq_true_2 by done. cbn [andb].
    apply (gated_accelerated graph_state (call query key cos sin) 1 m m1); try done.
    + apply rotary_call_preserves.
    + apply rotary_call_ok_inv.
  - assert (bool_decide (seq_len = 1) && inference_mode m = false) as ->.
    { apply andb_false_iff. destruct (inference_mode m); [left|by right].
      apply bool_decide_eq_false_2. naive_solver. }
    by apply (gated_direct graph_state op _ seq_len m m1).
Qed.
End rotary_facts.

(** ** The fused QKV site *)

Section attention_facts.
Import Torch GraphSite GraphSite.Attention.
Context {elt : Type}.
Variable query_key_value : tensor elt → result (tensor elt).
Variable _split_heads : tensor elt → result (tensor elt * tensor elt * tensor elt).
Abbreviation qkv_op := (apply_qkv query_key_value _split_heads).
Abbreviation qkv_call := (_optimized_apply_qkv query_key_value _split_heads).
Implicit Types (m : @machine elt (@FalconAttention elt)).

Lemma apply_qkv_length vals rs : qkv_op vals = Ok rs → length rs = 3.
Proof.
  unfold apply_qkv. repeat case_match; try done.
  destruct (query_key_value _); simpl; [|done].
  destruct (_split_heads _); simpl; [|done]. by intros [= <-].
Qed.

(** The first accelerated call. *)
Lemma qkv_first_call hidden vals rs m :
  qkv_graph (self m) = None → fresh_above m →
  holds (heap m) [hidden] vals → qkv_op vals = Ok rs →
  ∃ outs m',
    qkv_call hidden m = (Ok outs, m')
    ∧ trace m' = trace m ++ [Run; Run; Run; Capture] ++ [Copy hidden hidden] ++ [Replay]
    ∧ bound_to query_key_value _split_heads (self m') [hidden] outs
    ∧ separate [hidden] outs
    ∧ holds (heap m') [hidden] vals ∧ holds (heap m') outs rs
    ∧ fresh_above m' ∧ inference_mode m' = inference_mode m.
Proof.
  intros Hnone Hf Hh Hop.
  assert (NoDup [hidden]) as Hnd by (apply NoDup_singleton).
  pose proof (apply_qkv_length _ _ Hop) as Hlen.
  set (self1 := set_graph (self m) (Some new_graph) (Some hidden)
                  (static_outputs (self m))).
  set (m1 := Machine self1 (heap m) (next_loc m) (trace m) (inference_mode m)).
  destruct (warm_up_eq qkv_op [hidden] vals rs 3 m1) as (h' & n' & Hwarm & Hg); [done..|].
  simpl in Hg.
  assert (holds h' [hidden] vals) as Hh' by (by eapply holds_grown).
  set (outs := seq n' (length rs)).
  set (g := {| recorded := Some ([hidden], qkv_op, outs) |}).
  set (self2 := set_graph self1 (Some g) (static_input self1) (Some outs)).
  set (h'' := write_heap outs rs (write_heap [hidden] vals h')).
  assert (separate [hidden] outs) as Hsep.
  { split_and!; [done|apply NoDup_seq|]. intros l Hl Hl'.
    apply elem_of_seq in Hl'. destruct Hg as (_ & _ & Hnone').
    apply list_elem_of_lookup in Hl as [i Hi].
    destruct (Forall2_lookup_l _ _ _ i l Hh' Hi) as (v & _ & Hv).
    rewrite Hnone' in Hv by lia. done. }
  pose proof Hh as Hh0. apply Forall2_cons_inv_l in Hh0 as (v & vs' & Hv & Hnil & ->).
  apply Forall2_nil_inv_l in Hnil as ->.
  assert (h' !! hidden = Some v) as Hv' by (by apply Forall2_cons in Hh' as [? _]).
  exists outs, (Machine self2 h'' (n' + length rs)
                  (trace m ++ [Run; Run; Run; Capture] ++ [Copy hidden hidden] ++ [Replay])
                  (inference_mode m)).
  split; [|split_and!; try done].
  - unfold _optimized_apply_qkv.
    mstep_refl. rewrite Hnone.
    mstep_refl. fold self1 m1.
    mstep ltac:(exact Hwarm).
    mstep ltac:(by apply (capture_eq qkv_op _ [v] rs)).
    cbn [m1]. fold outs g.
    mstep_refl. mstep_refl. fold self2.
    mstep_refl. mstep_refl.
    mstep ltac:(by apply (copy__eq hidden hidden v v)).
    mstep_refl. cbn [self2 set_graph qkv_graph static_outputs].
    mstep ltac:(apply (replay_eq qkv_op _ _ [v] rs);
                [by apply (holds_write_heap [hidden] [v])|done]).
    mstep_refl. unfold ret, h''. cbn [write_heap app replicate].
    by rewrite <-!app_assoc.
  - split_and!; try done. unfold outs. by rewrite length_seq.
  - cbn [heap]. unfold h''. eapply holds_agree; [exact Hh'|]. intros l Hl.
    rewrite write_heap_other by (destruct Hsep as (_ & _ & Hsep); by apply Hsep).
    by rewrite write_heap_holds_id.
  - apply holds_write_heap; [apply NoDup_seq|unfold outs; by rewrite length_seq].
  - intros l Hl. cbn [heap next_loc] in *. unfold h''.
    rewrite write_heap_other by (unfold outs; rewrite elem_of_seq; lia).
    rewrite write_heap_holds_id by done. destruct Hg as (_ & _ & Hg). apply Hg. lia.
Qed.

(** Every later accelerated call. *)
Lemma qkv_next_call hidden surface outs vals rs m :
  bound_to query_key_value _split_heads (self m) surface outs → separate surface outs →
  compatible (heap m) surface [hidden] →
  holds (heap m) [hidden] vals → qkv_op vals = Ok rs →
  ∃ m',
    qkv_call hidden m = (Ok outs, m')
    ∧ self m' = self m
    ∧ trace m' = trace m ++ zip_with Copy surface [hidden] ++ [Replay]
    ∧ holds (heap m') surface vals ∧ holds (heap m') outs rs
    ∧ next_loc m' = next_loc m ∧ inference_mode m' = inference_mode m.
Proof.
  intros (Hgraph & Hsurf & Houts & Hlen) (Hnd & Hnd' & Hdisj) Hc Hh Hop.
  pose proof (apply_qkv_length _ _ Hop) as Hlen'.
  destruct (static_input (self m)) as [static|] eqn:Hstatic; [|done].
  injection Hsurf as <-.
  pose proof Hh as Hh0. apply Forall2_cons_inv_l in Hh0 as (v & vs' & Hv & Hnil & ->).
  apply Forall2_nil_inv_l in Hnil as ->.
  pose proof Hc as [Hsh _]. apply Forall2_cons in Hsh as [(sv & iv & Hsv & Hiv & Hshape) _].
  simplify_eq.
  eexists. split_and!.
  - unfold _optimized_apply_qkv.
    mstep_refl. rewrite Hgraph. mstep_refl. mstep_refl. rewrite Hstatic. mstep_refl.
    mstep ltac:(by apply (copy__eq static hidden sv v)).
    rewrite Hgraph. mstep_refl.
    mstep ltac:(apply (replay_eq qkv_op _ _ [v] rs);
                [by apply (holds_write_heap [static] [v])|done]).
    rewrite Houts. mstep_refl. unfold ret. reflexivity.
  - done.
  - cbn [trace zip_with]. by rewrite <-app_assoc.
  - cbn [heap]. eapply holds_agree; [by apply (holds_write_heap [static] [v])|].
    intros l Hl. rewrite write_heap_other by (by apply Hdisj). done.
  - cbn [heap]. apply holds_write_heap; [done|lia].
  - done.
  - done.
Qed.

Lemma qkv_call_preserves hidden :
  preserves (evolves any_event any_change) (qkv_call hidden).
Proof. unfold _optimized_apply_qkv. preserves_tac. Qed.

(** An accelerated call that returns has replayed the graph. *)
Lemma qkv_call_ok_inv hidden m outs m' :
  qkv_call hidden m = (Ok outs, m') → ∃ evs, trace m' = trace m ++ evs ++ [Replay].
Proof.
  unfold _optimized_apply_qkv. intros H.
  apply bind_inv_ok in H as (self0 & m0 & [= <- <-] & H).
  apply bind_inv_ok in H as ([] & m1 & H1 & H).
  apply bind_inv_ok in H as (self3 & ? & [= <- <-] & H).
  apply bind_inv_ok in H as (static & m2 & H2 & H).
  apply bind_inv_ok in H as ([] & m3 & H3 & H).
  apply bind_inv_ok in H as (g & m4 & H4 & H).
  apply bind_inv_ok in H as ([] & m5 & H5 & H).
  apply bind_inv_ok in H as (outs' & m6 & H6 & H).
  injection H as <- <-.
  assert (evolves any_event any_change m m1) as (_ & _ & e1 & E1 & _).
  { match type of H1 with
    | ?c m = _ => cut (preserves (evolves any_event any_change) c);
                    [intros Hp; exact (Hp _ _ _ H1)|]
    end.
    preserves_tac. }
  assert (evolves any_event any_change m1 m2) as (_ & _ & e2 & E2 & _).
  { match type of H2 with
    | ?c m1 = _ => cut (preserves (evolves any_event any_change) c);
                    [intros Hp; exact (Hp _ _ _ H2)|]
    end.
    preserves_tac. }
  apply (preserves_copy_ any_event any_change) in H3 as (_ & _ & e3 & E3 & _); [|done].
  apply (preserves_not_none any_event any_change) in H4 as (_ & _ & e4 & E4 & _).
  apply replay_ok_inv in H5 as (e5 & E5).
  apply (preserves_not_none no_event any_change) in H6. apply evolves_no_event in H6.
  exists (e1 ++ e2 ++ e3 ++ e4 ++ e5). rewrite H6, E5, E4, E3, E2, E1.
  by rewrite <-!app_assoc.
Qed.

(** The gate of [forward]. *)
Lemma qkv_gate hidden alibi output_attentions hv seq_len m r m' :
  heap m !! hidden = Some hv → shape hv !! 1 = Some seq_len →
  forward_qkv query_key_value _split_heads hidden alibi output_attentions m = (r, m') →
  gated graph_state seq_len m r m'.
Proof.
  intros Hq Hsh. unfold forward_qkv.
  case_bool_decide; [intros [= <- <-]; by apply gated_raise|].
  destruct output_attentions; [intros [= <- <-]; by apply gated_raise|].
  erewrite bind_ok by (unfold read; by rewrite Hq). rewrite Hsh.
  erewrite bind_ok by reflexivity.
  destruct (decide (seq_len = 1 ∧ inference_mode m = true)) as [[-> Hon]|Hoff].
  - rewrite Hon. rewrite bool_decide_eq_true_2 by done. cbn [andb].
    apply (gated_accelerated graph_state (qkv_call hidden) 1 m m); try done.
    + apply qkv_call_preserves.
    + apply qkv_call_ok_inv.
  - assert (bool_decide (seq_len = 1) && inference_mode m = false) as ->.
    { apply andb_false_iff. destruct (inference_mode m); [left|by right].
      apply bool_decide_eq_false_2. naive_solver. }
    by apply (gated_direct graph_state qkv_op _ seq_len m m).
Qed.
End attention_facts.

(** ** The layer-norm site *)

Section layer_facts.
Import Torch GraphSite GraphSite.DecoderLayer.
Context {elt : Type}.
Variable ln_attn ln_mlp : tensor elt → result (tensor elt).
Abbreviation ln_op := (apply_ln ln_attn ln_mlp).
Abbreviation ln_call := (_optimized_apply_ln ln_attn ln_mlp).
Implicit Types (m : @machine elt (@FalconDecoderLayer elt)).

Lemma apply_ln_length vals rs : ln_op vals = Ok rs → length rs = 2.
Proof.
  unfold apply_ln. repeat case_match; try done.
  destruct (ln_attn _); simpl; [|done].
  destruct (ln_mlp _); simpl; [|done]. by intros [= <-].
Qed.

(** The first accelerated call. *)
Lemma ln_first_call hidden vals rs m :
  ln_graph (self m) = None → fresh_above m →
  holds (heap m) [hidden] vals → ln_op vals = Ok rs →
  ∃ outs m',
    ln_call hidden m = (Ok outs, m')
    ∧ trace m' = trace m ++ [Run; Run; Run; Capture] ++ [Copy hidden hidden] ++ [Replay]
    ∧ bound_to ln_attn ln_mlp (self m') [hidden] outs
    ∧ separate [hidden] outs
    ∧ holds (heap m') [hidden] vals ∧ holds (heap m') outs rs
    ∧ fresh_above m' ∧ inference_mode m' = inference_mode m.
Proof.
  intros Hnone Hf Hh Hop.
  assert (NoDup [hidden]) as Hnd by (apply NoDup_singleton).
  pose proof (apply_ln_length _ _ Hop) as Hlen.
  set (self1 := {| ln_graph := Some (@new_graph elt); static_input := Some hidden;
                   static_outputs := static_outputs (self m) |}).
  set (m1 := Machine self1 (heap m) (next_loc m) (trace m) (inference_mode m)).
  destruct (warm_up_eq ln_op [hidden] vals rs 3 m1) as (h' & n' & Hwarm & Hg); [done..|].
  simpl in Hg.
  assert (holds h' [hidden] vals) as Hh' by (by eapply holds_grown).
  set (outs := seq n' (length rs)).
  set (g := {| recorded := Some ([hidden], ln_op, outs) |}).
  set (self2 := {| ln_graph := Some g; static_input := static_input self1;
                   static_outputs := Some outs |}).
  set (h'' := write_heap outs rs (write_heap [hidden] vals h')).
  assert (separate [hidden] outs) as Hsep.
  { split_and!; [done|apply NoDup_seq|]. intros l Hl Hl'.
    apply elem_of_seq in Hl'. destruct Hg as (_ & _ & Hnone').
    apply list_elem_of_lookup in Hl as [i Hi].
    destruct (Forall2_lookup_l _ _ _ i l Hh' Hi) as (v & _ & Hv).
    rewrite Hnone' in Hv by lia. done. }
  pose proof Hh as Hh0. apply Forall2_cons_inv_l in Hh0 as (v & vs' & Hv & Hnil & ->).
  apply Forall2_nil_inv_l in Hnil as ->.
  assert (h' !! hidden = Some v) as Hv' by (by apply Forall2_cons in Hh' as [? _]).
  exists outs, (Machine self2 h'' (n' + length rs)
                  (trace m ++ [Run; Run; Run; Capture] ++ [Copy hidden hidden] ++ [Replay])
                  (inference_mode m)).
  split; [|split_and!; try done].
  - unfold _optimized_apply_ln.
    mstep_refl. rewrite Hnone.
    mstep_refl. fold self1 m1.
    mstep ltac:(exact Hwarm).
    mstep ltac:(by apply (capture_eq ln_op _ [v] rs)).
    cbn [m1]. fold outs g.
    mstep_refl. mstep_refl. fold self2.
    mstep_refl. mstep_refl.
    mstep ltac:(by apply (copy__eq hidden hidden v v)).
    mstep_refl. cbn [self2 ln_graph static_outputs].
    mstep ltac:(apply (replay_eq ln_op _ _ [v] rs);
                [by apply (holds_write_heap [hidden] [v])|done]).
    mstep_refl. unfold ret, h''. cbn [write_heap app replicate].
    by rewrite <-!app_assoc.
  - split_and!; try done. unfold outs. by rewrite length_seq.
  - cbn [heap]. unfold h''. eapply holds_agree; [exact Hh'|]. intros l Hl.
    rewrite write_heap_other by (destruct Hsep as (_ & _ & Hsep); by apply Hsep).
    by rewrite write_heap_holds_id.
  - apply holds_write_heap; [apply NoDup_seq|unfold outs; by rewrite length_seq].
  - intros l Hl. cbn [heap next_loc] in *. unfold h''.
    rewrite write_heap_other by (unfold outs; rewrite elem_of_seq; lia).
    rewrite write_heap_holds_id by done. destruct Hg as (_ & _ & Hg). apply Hg. lia.
Qed.

(** Every later accelerated call. *)
Lemma ln_next_call hidden surface outs vals rs m :
  bound_to ln_attn ln_mlp (self m) surface outs → separate surface outs →
  compatible (heap m) surface [hidden] →
  holds (heap m) [hidden] vals → ln_op vals = Ok rs →
  ∃ m',
    ln_call hidden m = (Ok outs, m')
    ∧ self m' = self m
    ∧ trace m' = trace m ++ zip_with Copy surface [hidden] ++ [Replay]
    ∧ holds (heap m') surface vals ∧ holds (heap m') outs rs
    ∧ next_loc m' = next_loc m ∧ inference_mode m' = inference_mode m.
Proof.
  intros (Hgraph & Hsurf & Houts & Hlen) (Hnd & Hnd' & Hdisj) Hc Hh Hop.
  pose proof (apply_ln_length _ _ Hop) as Hlen'.
  destruct (static_input (self m)) as [static|] eqn:Hstatic; [|done].
  injection Hsurf as <-.
  pose proof Hh as Hh0. apply Forall2_cons_inv_l in Hh0 as (v & vs' & Hv & Hnil & ->).
  apply Forall2_nil_inv_l in Hnil as ->.
  pose proof Hc as [Hsh _]. apply Forall2_cons in Hsh as [(sv & iv & Hsv & Hiv & Hshape) _].
  simplify_eq.
  eexists. split_and!.
  - unfold _optimized_apply_ln.
    mstep_refl. rewrite Hgraph. mstep_refl. mstep_refl. rewrite Hstatic. mstep_refl.
    mstep ltac:(by apply (copy__eq static hidden sv v)).
    rewrite Hgraph. mstep_refl.
    mstep ltac:(apply (replay_eq ln_op _ _ [v] rs);
                [by apply (holds_write_heap [static] [v])|done]).
    rewrite Houts. mstep_refl. unfold ret. reflexivity.
  - done.
  - cbn [trace zip_with]. by rewrite <-app_assoc.
  - cbn [heap]. eapply holds_agree; [by apply (holds_write_heap [static] [v])|].
    intros l Hl. rewrite write_heap_other by (by apply Hdisj). done.
  - cbn [heap]. apply holds_write_heap; [done|lia].
  - done.
  - done.
Qed.

Lemma ln_call_preserves hidden :
  preserves (evolves any_event any_change) (ln_call hidden).
Proof. unfold _optimized_apply_ln. preserves_tac. Qed.

(** An accelerated call that returns has replayed the graph. *)
Lemma ln_call_ok_inv hidden m outs m' :
  ln_call hidden m = (Ok outs, m') → ∃ evs, trace m' = trace m ++ evs ++ [Replay].
Proof.
  unfold _optimized_apply_ln. intros H.
  apply bind_inv_ok in H as (self0 & m0 & [= <- <-] & H).
  apply bind_inv_ok in H as ([] & m1 & H1 & H).
  apply bind_inv_ok in H as (self3 & ? & [= <- <-] & H).
  apply bind_inv_ok in H as (static & m2 & H2 & H).
  apply bind_inv_ok in H as ([] & m3 & H3 & H).
  apply bind_inv_ok in H as (g & m4 & H4 & H).
  apply bind_inv_ok in H as ([] & m5 & H5 & H).
  apply bind_inv_ok in H as (outs' & m6 & H6 & H).
  injection H as <- <-.
  assert (evolves any_event any_change m m1) as (_ & _ & e1 & E1 & _).
  { match type of H1 with
    | ?c m = _ => cut (preserves (evolves any_event any_change) c);
                    [intros Hp; exact (Hp _ _ _ H1)|]
    end.
    preserves_tac. }
  assert (evolves any_event any_change m1 m2) as (_ & _ & e2 & E2 & _).
  { match type of H2 with
    | ?c m1 = _ => cut (preserves (evolves any_event any_change) c);
                    [intros Hp; exact (Hp _ _ _ H2)|]
    end.
    preserves_tac. }
  apply (preserves_copy_ any_event any_change) in H3 as (_ & _ & e3 & E3 & _); [|done].
  apply (preserves_not_none any_event any_change) in H4 as (_ & _ & e4 & E4 & _).
  apply replay_ok_inv in H5 as (e5 & E5).
  preserves_in H6 (@no_event). apply evolves_no_event in H6.
  exists (e1 ++ e2 ++ e3 ++ e4 ++ e5). rewrite H6, E5, E4, E3, E2, E1.
  by rewrite <-!app_assoc.
Qed.

(** The gate of [forward]. *)
Lemma ln_gate hidden hv seq_len m r m' :
  heap m !! hidden = Some hv → shape hv !! 1 = Some seq_len →
  forward_ln ln_attn ln_mlp hidden m = (r, m') →
  gated graph_state seq_len m r m'.
Proof.
  intros Hq Hsh. unfold forward_ln.
  erewrite bind_ok by (unfold read; by rewrite Hq). rewrite Hsh.
  erewrite bind_ok by reflexivity.
  destruct (decide (seq_len = 1 ∧ inference_mode m = true)) as [[-> Hon]|Hoff].
  - rewrite Hon. rewrite bool_decide_eq_true_2 by done. cbn [andb].
    apply (gated_accelerated graph_state (ln_call hidden) 1 m m); try done.
    + apply ln_call_preserves.
    + apply ln_call_ok_inv.
  - assert (bool_decide (seq_len = 1) && inference_mode m = false) as ->.
    { apply andb_false_iff. destruct (inference_mode m); [left|by right].
      apply bool_decide_eq_false_2. naive_solver. }
    by apply (gated_direct graph_state ln_op _ seq_len m m).
Qed.
End layer_facts.

(** ** The three sites together *)

Section sites.
Import Torch GraphSite.
Context {elt : Type}.
Abbreviation T := (tensor elt).

Lemma run_holds {Self} op ins (vals rs : list T) (m : @machine elt Self) :
  holds (heap m) ins vals → op vals = Ok rs →
  ∃ outs_d m_d, run op ins m = (Ok outs_d, m_d) ∧ holds (heap m_d) outs_d rs.
Proof.
  intros Hh Hop. eexists _, _. split; [by apply (run_eq op ins vals rs)|].
  cbn [heap]. apply holds_write_heap; [apply NoDup_seq|by rewrite length_seq].
Qed.

(** C3: at each of the three sites the forward call takes the captured-graph
    path exactly when the input has one position and inference mode is on;
    with any other length it neither captures, copies nor replays, leaves
    the graph attributes alone and executes the operation directly. *)
Theorem graph_path_gate :
  (∀ (tmul tadd : T → T → result T) (rotate_half : T → result T) (emb_cos : Z → T)
      query key past (qv : T) b seq_len d m r m',
      heap m !! query = Some qv → shape qv = [b; seq_len; d] →
      Rotary.forward tmul tadd rotate_half emb_cos query key past m = (r, m') →
      gated Rotary.graph_state seq_len m r m')
  ∧ (∀ (query_key_value : T → result T) (_split_heads : T → result (T * T * T))
      hidden alibi output_attentions (hv : T) seq_len m r m',
      heap m !! hidden = Some hv → shape hv !! 1 = Some seq_len →
      Attention.forward_qkv query_key_value _split_heads hidden alibi
        output_attentions m = (r, m') →
      gated Attention.graph_state seq_len m r m')
  ∧ (∀ (ln_attn ln_mlp : T → result T) hidden (hv : T) seq_len m r m',
      heap m !! hidden = Some hv → shape hv !! 1 = Some seq_len →
      DecoderLayer.forward_ln ln_attn ln_mlp hidden m = (r, m') →
      gated DecoderLayer.graph_state seq_len m r m').
Proof.
  split_and!; intros.
  - by eapply rotary_gate.
  - by eapply qkv_gate.
  - by eapply ln_gate.
Qed.

(** C4: the first accelerated call of a site executes the operation
    normally three times, captures it once and binds the input surface to
    the tensors it was called with; every later call copies its inputs by
    value into that surface, which stays bound, replays the graph and
    returns the bound output buffers. *)
Theorem accelerated_call_protocol :
  (∀ (tmul tadd : T → T → result T) (rotate_half : T → result T),
     let op := Rotary.apply_rotary_star tmul tadd rotate_half in
     let call q k c s := Rotary._optimized_apply_rotary tmul tadd rotate_half q k c s in
     let is_bound := Rotary.bound_to tmul tadd rotate_half in
     (∀ q k c s vals rs m,
        Rotary.cuda_graph (self m) = None → fresh_above m → NoDup [q; k; c; s] →
        holds (heap m) [q; k; c; s] vals → op vals = Ok rs →
        first_call_protocol (call q k c s) is_bound [q; k; c; s] m)
     ∧ (∀ q k c s surface outs vals rs m,
        is_bound (self m) surface outs → separate surface outs →
        compatible (heap m) surface [q; k; c; s] →
        holds (heap m) [q; k; c; s] vals → op vals = Ok rs →
        next_call_protocol (call q k c s) surface outs [q; k; c; s] vals m))
  ∧ (∀ (query_key_value : T → result T) (_split_heads : T → result (T * T * T)),
     let op := Attention.apply_qkv query_key_value _split_heads in
     let call := Attention._optimized_apply_qkv query_key_value _split_heads in
     let is_bound := Attention.bound_to query_key_value _split_heads in
     (∀ hidden vals rs m,
        Attention.qkv_graph (self m) = None → fresh_above m →
        holds (heap m) [hidden] vals → op vals = Ok rs →
        first_call_protocol (call hidden) is_bound [hidden] m)
     ∧ (∀ hidden surface outs vals rs m,
        is_bound (self m) surface outs → separate surface outs →
        compatible (heap m) surface [hidden] →
        holds (heap m) [hidden] vals → op vals = Ok rs →
        next_call_protocol (call hidden) surface outs [hidden] vals m))
  ∧ (∀ (ln_attn ln_mlp : T → result T),
     let op := DecoderLayer.apply_ln ln_attn ln_mlp in
     let call := DecoderLayer._optimized_apply_ln ln_attn ln_mlp in
     let is_bound := DecoderLayer.bound_to ln_attn ln_mlp in
     (∀ hidden vals rs m,
        DecoderLayer.ln_graph (self m) = None → fresh_above m →
        holds (heap m) [hidden] vals → op vals = Ok rs →
        first_call_protocol (call hidden) is_bound [hidden] m)
     ∧ (∀ hidden surface outs vals rs m,
        is_bound (self m) surface outs → separate surface outs →
        compatible (heap m) surface [hidden] →
        holds (heap m) [hidden] vals → op vals = Ok rs →
        next_call_protocol (call hidden) surface outs [hidden] vals m)).
Proof.
  split_and!; intros; split; intros.
  - destruct (rotary_first_call tmul tadd rotate_half q k c s vals rs m)
      as (outs & m' & ? & ? & ? & ? & _); [done..|]. by exists outs, m'.
  - destruct (rotary_next_call tmul tadd rotate_half q k c s surface outs vals rs m)
      as (m' & ? & ? & ? & ? & _); [done..|]. by exists m'.
  - destruct (qkv_first_call query_key_value _split_heads hidden vals rs m)
      as (outs & m' & ? & ? & ? & ? & _); [done..|]. by exists outs, m'.
  - destruct (qkv_next_call query_key_value _split_heads hidden surface outs vals rs m)
      as (m' & ? & ? & ? & ? & _); [done..|]. by exists m'.
  - destruct (ln_first_call ln_attn ln_mlp hidden vals rs m)
      as (outs & m' & ? & ? & ? & ? & _); [done..|]. by exists outs, m'.
  - destruct (ln_next_call ln_attn ln_mlp hidden surface outs vals rs m)
      as (m' & ? & ? & ? & ? & _); [done..|]. by exists m'.
Qed.

(** C8: at each site an accelerated call, the capturing first one as well
    as a later one on tensors of the shapes of the bound surface, returns
    tensors holding exactly the values the direct execution of the
    operation returns on the same inputs (equal, hence within any
    tolerance). *)
Theorem replay_matches_direct :
  (∀ (tmul tadd : T → T → result T) (rotate_half : T → result T),
     let op := Rotary.apply_rotary_star tmul tadd rotate_half in
     let call q k c s := Rotary._optimized_apply_rotary tmul tadd rotate_half q k c s in
     let is_bound := Rotary.bound_to tmul tadd rotate_half in
     (∀ q k c s vals rs m,
        Rotary.cuda_graph (self m) = None → fresh_above m → NoDup [q; k; c; s] →
        holds (heap m) [q; k; c; s] vals → op vals = Ok rs →
        same_as_direct op (call q k c s) [q; k; c; s] m)
     ∧ (∀ q k c s surface outs vals rs m,
        is_bound (self m) surface outs → separate surface outs →
        compatible (heap m) surface [q; k; c; s] →
        holds (heap m) [q; k; c; s] vals → op vals = Ok rs →
        same_as_direct op (call q k c s) [q; k; c; s] m))
  ∧ (∀ (query_key_value : T → result T) (_split_heads : T → result (T * T * T)),
     let op := Attention.apply_qkv query_key_value _split_heads in
     let call := Attention._optimized_apply_qkv query_key_value _split_heads in
     let is_bound := Attention.bound_to query_key_value _split_heads in
     (∀ hidden vals rs m,
        Attention.qkv_graph (self m) = None → fresh_above m →
        holds (heap m) [hidden] vals → op vals = Ok rs →
        same_as_direct op (call hidden) [hidden] m)
     ∧ (∀ hidden surface outs vals rs m,
        is_bound (self m) surface outs → separate surface outs →
        compatible (heap m) surface [hidden] →
        holds (heap m) [hidden] vals → op vals = Ok rs →
        same_as_direct op (call hidden) [hidden] m))
  ∧ (∀ (ln_attn ln_mlp : T → result T),
     let op := DecoderLayer.apply_ln ln_attn ln_mlp in
     let call := DecoderLayer._optimized_apply_ln ln_attn ln_mlp in
     let is_bound := DecoderLayer.bound_to ln_attn ln_mlp in
     (∀ hidden vals rs m,
        DecoderLayer.ln_graph (self m) = None → fresh_above m →
        holds (heap m) [hidden] vals → op vals = Ok rs →
        same_as_direct op (call hidden) [hidden] m)
     ∧ (∀ hidden surface outs vals rs m,
        is_bound (self m) surface outs → separate surface outs →
        compatible (heap m) surface [hidden] →
        holds (heap m) [hidden] vals → op vals = Ok rs →
        same_as_direct op (call hidden) [hidden] m)).
Proof.
  split_and!; intros; split; intros.
  - destruct (rotary_first_call tmul tadd rotate_half q k c s vals rs m)
      as (outs & m' & ? & _ & _ & _ & _ & ? & _); [done..|].
    destruct (run_holds op [q; k; c; s] vals rs m) as (outs_d & m_d & ? & ?); [done..|].
    by exists rs, outs, m', outs_d, m_d.
  - destruct (rotary_next_call tmul tadd rotate_half q k c s surface outs vals rs m)
      as (m' & ? & _ & _ & _ & ? & _); [done..|].
    destruct (run_holds op [q; k; c; s] vals rs m) as (outs_d & m_d & ? & ?); [done..|].
    by exists rs, outs, m', outs_d, m_d.
  - destruct (qkv_first_call query_key_value _split_heads hidden vals rs m)
      as (outs & m' & ? & _ & _ & _ & _ & ? & _); [done..|].
    destruct (run_holds op [hidden] vals rs m) as (outs_d & m_d & ? & ?); [done..|].
    by exists rs, outs, m', outs_d, m_d.
  - destruct (qkv_next_call query_key_value _split_heads hidden surface outs vals rs m)
      as (m' & ? & _ & _ & _ & ? & _); [done..|].
    destruct (run_holds op [hidden] vals rs m) as (outs_d & m_d & ? & ?); [done..|].
    by exists rs, outs, m', outs_d, m_d.
  - destruct (ln_first_call ln_attn ln_mlp hidden vals rs m)
      as (outs & m' & ? & _ & _ & _ & _ & ? & _); [done..|].
    destruct (run_holds op [hidden] vals rs m) as (outs_d & m_d & ? & ?); [done..|].
    by exists rs, outs, m', outs_d, m_d.
  - destruct (ln_next_call ln_attn ln_mlp hidden surface outs vals rs m)
      as (m' & ? & _ & _ & _ & ? & _); [done..|].
    destruct (run_holds op [hidden] vals rs m) as (outs_d & m_d & ? & ?); [done..|].
    by exists rs, outs, m', outs_d, m_d.
Qed.
End sites.

(** ** The speculative verification loop *)

Section speculative_facts.
Import Speculative.
Context {Logits : Type}.
Variable argmax : Logits → token.
Variable model2_generate : list token → nat → list token.
Variable model : list token → Z → list Logits.
Variable entropy : nat → Z.

Lemma py_index_nat {A} (l : list A) (i : nat) x :
  l !! i = Some x → py_index l (Z.of_nat i) = Ok x.
Proof.
  intros Hi. pose proof (lookup_lt_Some _ _ _ Hi). unfold py_index.
  cbv zeta. destruct (decide (Z.of_nat i < 0)%Z); [lia|].
  rewrite decide_True by lia. by rewrite Nat2Z.id, Hi.
Qed.

Lemma py_index_lt {A} (l : list A) (i : Z) :
  (0 ≤ i < Z.of_nat (length l))%Z → ∃ x, py_index l i = Ok x.
Proof.
  intros Hi. destruct (lookup_lt_is_Some_2 l (Z.to_nat i)) as [x Hx]; [lia|].
  exists x. rewrite <-(Z2Nat.id i) by lia. by apply py_index_nat.
Qed.

(** The length computed is the length of a common prefix, and the
    longest one. *)
Lemma common_prefix_length_spec p t :
  let n := common_prefix_length p t in
  take n p = take n t
  ∧ ∀ x y, p !! n = Some x → t !! n = Some y → x ≠ y.
Proof.
  revert t; induction p as [|x p IH]; intros [|y t]; simpl; try done.
  destruct (decide (x = y)) as [->|]; simpl.
  - destruct (IH t) as [Heq Hne]. split; [by f_equal|done].
  - split; [done|]. by intros ?? [= <-] [= <-].
Qed.

(** The comparison loop from position [i] on. *)
Lemma match_loop_from new_tokens logits generated_len k :
  ∀ i acc p,
    length p = k → i + k ≤ length new_tokens →
    (∀ j, j < k → ∃ row,
        py_index logits (Z.of_nat generated_len + Z.of_nat (i + j) - 1) = Ok row
        ∧ p !! j = Some (argmax row)) →
    match_loop argmax new_tokens logits generated_len (seq i k) acc
      = Ok (acc + common_prefix_length p (drop i new_tokens)).
Proof.
  induction k as [|k IH]; intros i acc p Hp Hlen Hrows.
  { destruct p; [|done]. simpl. by rewrite Nat.add_0_r. }
  destruct p as [|x p]; [done|]. cbn [seq match_loop].
  destruct (lookup_lt_is_Some_2 new_tokens i) as [y Hy]; [lia|].
  rewrite (py_index_nat _ _ _ Hy). cbn [rbind].
  destruct (Hrows 0) as (row & Hrow & Hx); [lia|]. rewrite Nat.add_0_r in Hrow.
  rewrite Hrow. cbn [rbind]. injection Hx as ->.
  rewrite (drop_S _ _ _ Hy). cbn [common_prefix_length].
  destruct (decide (y = argmax row)) as [->|Hne].
  - rewrite decide_True by done.
    rewrite (IH (S i) (acc + 1) p); [f_equal; lia|by injection Hp|lia|].
    intros j Hj. destruct (Hrows (S j)) as (row' & Hrow' & Hp'); [lia|].
    exists row'. split; [|done]. by replace (S i + j) with (i + S j) by lia.
  - rewrite decide_False by done. by rewrite Nat.add_0_r.
Qed.

Lemma match_length_is_common_prefix_aux new_tokens logits generated_len batch_size p :
  length new_tokens = batch_size → length p = batch_size →
  (∀ i, i < batch_size → ∃ row,
      py_index logits (Z.of_nat generated_len + Z.of_nat i - 1) = Ok row
      ∧ p !! i = Some (argmax row)) →
  match_loop argmax new_tokens logits generated_len (seq 0 batch_size) 0
    = Ok (common_prefix_length p new_tokens).
Proof.
  intros Ht Hp Hrows.
  rewrite (match_loop_from new_tokens logits generated_len batch_size 0 0 p);
    [done|done|lia|done].
Qed.

(** C2: with proposals [new_tokens] and predictions [p], where [p[i]] is
    the arg-max of the logits at position [generated_len + i - 1], the
    comparison loop returns the length of the longest common prefix of
    [p] and [new_tokens]. *)
Theorem match_length_is_common_prefix new_tokens logits generated_len batch_size p :
  length new_tokens = batch_size → length p = batch_size →
  (∀ i, i < batch_size → ∃ row,
      py_index logits (Z.of_nat generated_len + Z.of_nat i - 1) = Ok row
      ∧ p !! i = Some (argmax row)) →
  match_loop argmax new_tokens logits generated_len (seq 0 batch_size) 0
    = Ok (common_prefix_length p new_tokens).
Proof.
  intros Ht Hp Hrows. by apply match_length_is_common_prefix_aux.
Qed.

(** What a round that returns has done. *)
Lemma round_inv batch_size s r :
  round argmax model2_generate model entropy batch_size s = Ok r →
  generated_ids (after r) = generated_ids s
  ∧ calls (after r) =
      calls s ++ [{| input_ids := generated_ids s ++ new_tokens r;
                     start_from_position := 1 |}]
  ∧ 0 < length (new_tokens r)
  ∧ match_loop argmax (new_tokens r)
      (model (generated_ids s ++ new_tokens r) 1)
      (length (generated_ids s)) (seq 0 batch_size) 0 = Ok (match_length r).
Proof.
  unfold round.
  destruct (randrange entropy (draws s) 1 (Z.of_nat batch_size)) as [pos|]; [|done].
  destruct (randrange entropy (S (draws s)) 1 100) as [tok|]; [|done].
  cbn [rbind]. case_decide as Hpos; [|done]. cbn [input_ids start_from_position].
  destruct (match_loop _ _ _ _ _ _) as [ml|] eqn:Hml; [|done].
  cbn [rbind]. intros [= <-]. cbn [after new_tokens match_length generated_ids calls].
  split_and!; [done|done| |done]. rewrite length_insert. lia.
Qed.

(** A round returns when the proposer drafted [batch_size ≥ 2] tokens and
    the authority answered with one row of logits per position. *)
Lemma round_ok batch_size s :
  1 < batch_size → 0 < length (generated_ids s) →
  batch_size ≤ length (model2_generate (generated_ids s) batch_size) →
  (∀ ids start, length (model ids start) = length ids) →
  ∃ r, round argmax model2_generate model entropy batch_size s = Ok r
       ∧ length (new_tokens r) = batch_size.
Proof.
  intros Hb Hg Hdraft Hmodel. unfold round.
  set (outputs2 := model2_generate (generated_ids s) batch_size) in *.
  assert (length (last_n batch_size outputs2) = batch_size) as Hlen.
  { unfold last_n. rewrite decide_False by lia. rewrite length_drop. lia. }
  unfold randrange at 1. rewrite decide_True by lia. cbn [rbind].
  unfold randrange at 1. rewrite decide_True by lia. cbn [rbind].
  set (pos := (1 + entropy (draws s) `mod` (Z.of_nat batch_size - 1))%Z).
  assert (1 ≤ pos < Z.of_nat batch_size)%Z as Hpos.
  { unfold pos. pose proof (Z.mod_pos_bound (entropy (draws s)) (Z.of_nat batch_size - 1)).
    lia. }
  rewrite decide_True by lia. cbn [input_ids start_from_position].
  set (tokens := <[Z.to_nat pos:=_]> (last_n batch_size outputs2)).
  assert (length tokens = batch_size) as Htok by (unfold tokens; by rewrite length_insert).
  set (logits := model (generated_ids s ++ tokens) 1).
  assert (length logits = length (generated_ids s) + batch_size) as Hlog.
  { unfold logits. rewrite Hmodel, length_app. lia. }
  assert (∃ p, length p = batch_size ∧ ∀ i, i < batch_size → ∃ row,
             py_index logits (Z.of_nat (length (generated_ids s)) + Z.of_nat i - 1) = Ok row
             ∧ p !! i = Some (argmax row)) as (p & Hp & Hrows).
  { exists ((λ i, match py_index logits
                          (Z.of_nat (length (generated_ids s)) + Z.of_nat i - 1) with
                  | Ok row => argmax row
                  | Raise _ => 0%Z
                  end) <$> seq 0 batch_size).
    split; [by rewrite length_fmap, length_seq|]. intros i Hi.
    destruct (py_index_lt logits
                (Z.of_nat (length (generated_ids s)) + Z.of_nat i - 1)) as [row Hrow]; [lia|].
    exists row. split; [done|]. rewrite list_lookup_fmap, lookup_seq_lt by done.
    simpl. by rewrite Hrow. }
  rewrite (match_length_is_common_prefix_aux tokens logits _ batch_size p) by done.
  cbn [rbind]. eexists. split; [done|]. done.
Qed.

(** C5, as amended: a round submits the accepted sequence followed by the
    proposed tokens to the authoritative model, and always with
    [start_from_position = 1], whatever the length of the accepted
    sequence. *)
Theorem verification_call_starts_from_one batch_size s :
  1 < batch_size → 0 < length (generated_ids s) →
  batch_size ≤ length (model2_generate (generated_ids s) batch_size) →
  (∀ ids start, length (model ids start) = length ids) →
  ∃ r, round argmax model2_generate model entropy batch_size s = Ok r
       ∧ calls (after r) =
           calls s ++ [{| input_ids := generated_ids s ++ new_tokens r;
                          start_from_position := 1 |}].
Proof.
  intros Hb Hg Hdraft Hmodel.
  destruct (round_ok batch_size s) as (r & Hr & _); [done..|].
  exists r. split; [done|]. by apply round_inv in Hr as (_ & ? & _).
Qed.

(** An iteration that goes on has accepted at least one token. *)
Lemma iteration_progress batch_size s s' :
  iteration argmax model2_generate model entropy batch_size s = Ok (true, s') →
  length (generated_ids s) < length (generated_ids s').
Proof.
  unfold iteration.
  destruct (round _ _ _ _ _ _) as [r|] eqn:Hr; [|done]. cbn [rbind].
  apply round_inv in Hr as (Hgen & _ & Hlen & _).
  case_decide; [|done]. intros [= <-]. cbn [generated_ids].
  rewrite length_app, length_take, Hgen. lia.
Qed.

(** The loop ends: with as much fuel as tokens are still to be generated
    it never runs out of fuel. *)
Lemma while_loop_terminates fuel max_new_tokens batch_size inputs_len s :
  max_new_tokens + inputs_len - length (generated_ids s) ≤ fuel →
  while_loop argmax model2_generate model entropy fuel max_new_tokens batch_size
    inputs_len s ≠ Ok None.
Proof.
  revert s; induction fuel as [|fuel IH]; intros s Hfuel; simpl.
  - by rewrite decide_False by lia.
  - case_decide; [|done].
    destruct (iteration _ _ _ _ _ _) as [[[] s']|] eqn:Hit; cbn [rbind fst snd]; [|done..].
    apply IH. apply iteration_progress in Hit. lia.
Qed.

(** C6, as amended: a round that verifies a prefix of length 0 raises no
    error; the loop stops at once and leaves the generated sequence as it
    was before the round, without any fallback decoding. *)
Theorem unmatched_round_stops_loop fuel max_new_tokens batch_size inputs_len s r :
  length (generated_ids s) < max_new_tokens + inputs_len →
  round argmax model2_generate model entropy batch_size s = Ok r →
  match_length r = 0 →
  while_loop argmax model2_generate model entropy (S fuel) max_new_tokens batch_size
    inputs_len s = Ok (Some (after r))
  ∧ generated_ids (after r) = generated_ids s.
Proof.
  intros Hcond Hr Hml. split; [|by apply round_inv in Hr as (? & _)].
  cbn [while_loop]. rewrite decide_True by done.
  unfold iteration. rewrite Hr. cbn [rbind]. rewrite Hml.
  by rewrite decide_False by lia.
Qed.
End speculative_facts.

Example spec_acceptance_example :
  Speculative.common_prefix_length [5; 5; 5; 9; 2]%Z [5; 5; 3; 9; 2]%Z = 2.
Proof. reflexivity. Qed.

Lemma match_length_is_common_prefix_witness :
  Speculative.match_loop id [5; 5; 3; 9; 2]%Z [5; 5; 5; 9; 2; 4]%Z 1 (seq 0 5) 0
    = Ok (Speculative.common_prefix_length [5; 5; 5; 9; 2]%Z [5; 5; 3; 9; 2]%Z).
Proof.
  apply (match_length_is_common_prefix id [5; 5; 3; 9; 2]%Z [5; 5; 5; 9; 2; 4]%Z 1 5
           [5; 5; 5; 9; 2]%Z); [reflexivity|reflexivity|].
  intros i Hi.
  destruct i as [|[|[|[|[|i]]]]]; [eexists; split; reflexivity..|lia].
Defined.

Lemma verification_call_starts_from_one_witness :
  ∃ r, Speculative.round id Examples.draft_fives (Examples.constant_authority 5)
         Examples.least_draw 3 Examples.prompt_state = Ok r
       ∧ Speculative.calls (Speculative.after r) =
           [{| Speculative.input_ids := Examples.prompt ++ Speculative.new_tokens r;
               Speculative.start_from_position := 1 |}].
Proof.
  apply (verification_call_starts_from_one id Examples.draft_fives
           (Examples.constant_authority 5) Examples.least_draw 3 Examples.prompt_state).
  - lia.
  - simpl. lia.
  - simpl. lia.
  - intros ids start. unfold Examples.constant_authority. by rewrite length_fmap.
Defined.

(** C5 as stated fails: after a prompt of two tokens the round calls the
    authoritative model with [start_from_position = 1], not 2. *)
Lemma verification_call_not_from_accepted_length :
  ∃ r, Speculative.round id Examples.draft_fives (Examples.constant_authority 5)
         Examples.least_draw 3 Examples.prompt_state = Ok r
       ∧ Speculative.calls (Speculative.after r) =
           [{| Speculative.input_ids := [7; 8; 5; 1; 5]%Z;
               Speculative.start_from_position := 1 |}]
       ∧ Z.of_nat (length (Speculative.generated_ids Examples.prompt_state)) = 2%Z
       ∧ ∀ c, c ∈ Speculative.calls (Speculative.after r) →
              Speculative.start_from_position c
              ≠ Z.of_nat (length (Speculative.generated_ids Examples.prompt_state)).
Proof.
  eexists. split; [reflexivity|]. split; [reflexivity|]. split; [reflexivity|].
  intros c Hc. cbn in Hc. apply list_elem_of_singleton in Hc as ->. by cbn.
Qed.

Lemma unmatched_round_stops_loop_witness :
  ∃ r, Speculative.round id Examples.draft_fives (Examples.constant_authority 6)
         Examples.least_draw 3 Examples.prompt_state = Ok r
       ∧ Speculative.match_length r = 0
       ∧ Speculative.while_loop id Examples.draft_fives (Examples.constant_authority 6)
           Examples.least_draw 1 4 3 2 Examples.prompt_state
         = Ok (Some (Speculative.after r))
       ∧ Speculative.generated_ids (Speculative.after r) = Examples.prompt.
Proof.
  eexists. split; [reflexivity|]. split; [reflexivity|].
  apply (unmatched_round_stops_loop id Examples.draft_fives
           (Examples.constant_authority 6) Examples.least_draw 0 4 3 2
           Examples.prompt_state); [simpl; lia|reflexivity|reflexivity].
Defined.

(** C6 as stated fails: the authority rejects the very first proposal,
    the round verifies nothing, and the loop ends with the prompt alone
    although four tokens were still to be generated. *)
Lemma unmatched_round_makes_no_progress :
  ∃ r st,
    Speculative.round id Examples.draft_fives (Examples.constant_authority 6)
      Examples.least_draw 3 Examples.prompt_state = Ok r
    ∧ Speculative.match_length r = 0
    ∧ Speculative.speculative_generation id Examples.draft_fives
        (Examples.constant_authority 6) Examples.least_draw 10 Examples.prompt 4 3
      = Ok (Some st)
    ∧ Speculative.generated_ids st = Examples.prompt
    ∧ length (Speculative.generated_ids st) < 4 + length Examples.prompt.
Proof.
  eexists _, _. split; [reflexivity|]. split; [reflexivity|]. split; [reflexivity|].
  split; [reflexivity|]. simpl. lia.
Qed.

(** ** The inference session *)

Section session_facts.
Import Session.

Lemma extend_all_replicate k n len cap :
  len + n ≤ cap →
  extend_all n (replicate k {| length := len; capacity := cap |})
    = inr (replicate k {| length := len + n; capacity := cap |}).
Proof.
  intros Hle. induction k as [|k IH]; simpl; [done|].
  unfold extend at 1; simpl. rewrite decide_True by done. by rewrite IH.
Qed.

(** A step that fits. *)
Lemma step_filled layerCount maxLen len n :
  len + n ≤ maxLen →
  step (filled layerCount maxLen len) n None = (filled layerCount maxLen (len + n), inr n).
Proof.
  intros Hle. unfold step, filled; simpl. rewrite decide_True by done.
  by rewrite extend_all_replicate.
Qed.

(** A step that does not fit is rejected and changes nothing. *)
Lemma step_filled_exceeds layerCount maxLen len n :
  maxLen < len + n →
  step (filled layerCount maxLen len) n None
    = (filled layerCount maxLen len, inl MaximumLengthExceeded).
Proof. intros Hlt. unfold step, filled; simpl. by rewrite decide_False by lia. Qed.

Lemma all_lengths_filled layerCount maxLen len :
  all_lengths (filled layerCount maxLen len) len.
Proof.
  split; [done|]. simpl. apply Forall_forall. intros c Hc.
  by apply elem_of_replicate in Hc as [-> _].
Qed.

(** The scenario of the test: after [maxLen] single-token steps one more
    token is rejected. *)
Lemma single_steps_fill layerCount maxLen k len :
  len + k ≤ maxLen →
  single_steps k (filled layerCount maxLen len)
    = (filled layerCount maxLen (len + k), inr 0).
Proof.
  revert len; induction k as [|k IH]; intros len Hle; simpl.
  - by rewrite Nat.add_0_r.
  - rewrite step_filled by lia. rewrite IH by lia.
    by replace (len + 1 + k) with (len + S k) by lia.
Qed.

Lemma full_session_rejects_step layerCount maxLen :
  ∃ s, single_steps maxLen (openSession layerCount maxLen) = (s, inr 0)
       ∧ step s 1 None = (s, inl MaximumLengthExceeded).
Proof.
  exists (filled layerCount maxLen maxLen). split.
  - apply (single_steps_fill layerCount maxLen maxLen 0). lia.
  - apply step_filled_exceeds. lia.
Qed.

(** C9: in a session opened with [maxLength = 4], three single-token
    steps reach length 3; a step with two tokens then fails with
    [MaximumLengthExceeded] and leaves every layer cache at length 3; a
    step with one token still succeeds and reaches length 4. *)
Theorem max_length_scenario layerCount :
  ∃ s1 s2 s3 s4,
    step (openSession layerCount 4) 1 None = (s1, inr 1) ∧ all_lengths s1 1
    ∧ step s1 1 None = (s2, inr 1) ∧ all_lengths s2 2
    ∧ step s2 1 None = (s3, inr 1) ∧ all_lengths s3 3
    ∧ step s3 2 None = (s3, inl MaximumLengthExceeded)
    ∧ step s3 1 None = (s4, inr 1) ∧ all_lengths s4 4.
Proof.
  exists (filled layerCount 4 1), (filled layerCount 4 2), (filled layerCount 4 3),
         (filled layerCount 4 4).
  split_and!; try apply all_lengths_filled.
  - apply (step_filled layerCount 4 0 1). lia.
  - apply (step_filled layerCount 4 1 1). lia.
  - apply (step_filled layerCount 4 2 1). lia.
  - apply step_filled_exceeds. lia.
  - apply (step_filled layerCount 4 3 1). lia.
Qed.
End session_facts.

(** ** [RemoteGenerationMixin.generate] *)

Section generate_facts.
Import RemoteGeneration.
Context {Args Output : Type}.
Variable super_generate : Args → list (string * Z) → result Output.

(** C10: without a session, [generate] opens a new inference session with
    [max_length = 2048], whatever the keyword arguments ask for, and runs
    the generation inside it; a session that is supplied is used as it is,
    without entering or leaving its context manager. *)
Theorem generate_session_handling args kwargs w :
  generate Args Output super_generate args None kwargs w =
    (super_generate args kwargs,
     {| next_session := S (next_session w);
        trace := trace w ++ [InferenceSession (next_session w) 2048;
                             Enter (next_session w); SuperGenerate;
                             Exit (next_session w)] |})
  ∧ ∀ session,
      generate Args Output super_generate args (Some session) kwargs w =
        (super_generate args kwargs,
         {| next_session := next_session w; trace := trace w ++ [SuperGenerate] |}).
Proof.
  split; [|intros session]; unfold generate; simpl; unfold emit; simpl.
  - by rewrite <-!app_assoc.
  - done.
Qed.
End generate_facts.

Example generate_ignores_requested_length (w : RemoteGeneration.world) :
  RemoteGeneration.trace
    (RemoteGeneration.generate unit unit (λ _ _, Ok ()) () None
       [("max_new_tokens"%string, 5000%Z)] w).2
  = RemoteGeneration.trace w
      ++ [RemoteGeneration.InferenceSession (RemoteGeneration.next_session w) 2048;
          RemoteGeneration.Enter (RemoteGeneration.next_session w);
          RemoteGeneration.SuperGenerate;
          RemoteGeneration.Exit (RemoteGeneration.next_session w)].
Proof. simpl. by rewrite <-!app_assoc. Qed.

(** ** The sites on concrete tensors *)

Lemma storage_fresh_above {Self} (s : Self) vs evs b :
  GraphSite.fresh_above (GraphSite.Machine s (Examples.storage vs) (length vs) evs b).
Proof.
  intros l Hl. cbn [GraphSite.heap GraphSite.next_loc] in *. unfold Examples.storage.
  rewrite write_heap_other by (rewrite elem_of_seq; lia). apply lookup_empty.
Qed.

Example rotary_first_call_trace :
  (GraphSite.Rotary._optimized_apply_rotary Examples.zmul Examples.zadd Examples.zflip
     0 1 2 3 Examples.rotary_fresh).1 = Ok [10; 11]
  ∧ GraphSite.trace
      (GraphSite.Rotary._optimized_apply_rotary Examples.zmul Examples.zadd Examples.zflip
         0 1 2 3 Examples.rotary_fresh).2
    = [GraphSite.Run; GraphSite.Run; GraphSite.Run; GraphSite.Capture;
       GraphSite.Copy 0 0; GraphSite.Copy 1 1; GraphSite.Copy 2 2; GraphSite.Copy 3 3;
       GraphSite.Replay].
Proof. split; vm_compute; reflexivity. Qed.

Example rotary_prompt_trace :
  GraphSite.trace
    (GraphSite.Rotary.forward Examples.zmul Examples.zadd Examples.zflip
       Examples.ones_table 0 1 0 Examples.rotary_prompt).2
  = [GraphSite.Run].
Proof. vm_compute. reflexivity. Qed.

Lemma graph_path_gate_witness :
  (let rm := GraphSite.Rotary.forward Examples.zmul Examples.zadd Examples.zflip
               Examples.ones_table 0 1 0 Examples.rotary_prompt in
   GraphSite.gated GraphSite.Rotary.graph_state 3 Examples.rotary_prompt rm.1 rm.2)
  ∧ (let rm := GraphSite.Attention.forward_qkv Examples.zdouble Examples.zsplit
                 0 None false Examples.attention_fresh in
     GraphSite.gated GraphSite.Attention.graph_state 1 Examples.attention_fresh rm.1 rm.2)
  ∧ (let rm := GraphSite.DecoderLayer.forward_ln Examples.zdouble Examples.zflip
                 0 Examples.layer_fresh in
     GraphSite.gated GraphSite.DecoderLayer.graph_state 1 Examples.layer_fresh rm.1 rm.2).
Proof.
  destruct (@graph_path_gate Z) as (Hrot & Hqkv & Hln). split_and!.
  - apply (Hrot Examples.zmul Examples.zadd Examples.zflip Examples.ones_table
             0 1 0 Examples.query3 1 3 2);
      [vm_compute; reflexivity|reflexivity|apply surjective_pairing].
  - apply (Hqkv Examples.zdouble Examples.zsplit 0 None false Examples.query1 1);
      [vm_compute; reflexivity|reflexivity|apply surjective_pairing].
  - apply (Hln Examples.zdouble Examples.zflip 0 Examples.query1 1);
      [vm_compute; reflexivity|reflexivity|apply surjective_pairing].
Defined.

(** Side conditions on concrete buffers. *)
Ltac concrete_NoDup :=
  repeat (apply NoDup_cons_2; [set_unfold; lia|]); apply NoDup_nil_2.
Ltac concrete_holds := repeat (constructor; [vm_compute; reflexivity|]); constructor.
Ltac concrete_separate :=
  split_and!; [concrete_NoDup|concrete_NoDup|];
  intros l Hl Hl'; set_unfold; lia.
Ltac concrete_compatible :=
  split;
  [ repeat (constructor; [eexists _, _; split_and!; vm_compute; reflexivity|]); constructor
  | intros i j l Hi Hj;
    repeat (destruct i as [|i]; simplify_eq/=);
    repeat (destruct j as [|j]; simplify_eq/=) ].

Lemma accelerated_call_protocol_witness :
  GraphSite.first_call_protocol
    (GraphSite.Rotary._optimized_apply_rotary Examples.zmul Examples.zadd Examples.zflip
       0 1 2 3)
    (GraphSite.Rotary.bound_to Examples.zmul Examples.zadd Examples.zflip)
    [0; 1; 2; 3] Examples.rotary_fresh
  ∧ GraphSite.next_call_protocol
      (GraphSite.Rotary._optimized_apply_rotary Examples.zmul Examples.zadd Examples.zflip
         6 7 8 9)
      [0; 1; 2; 3] [4; 5] [6; 7; 8; 9]
      [Examples.query2; Examples.key2; Examples.cos1; Examples.sin1]
      Examples.rotary_bound.
Proof.
  destruct (@accelerated_call_protocol Z) as (Hrot & _).
  destruct (Hrot Examples.zmul Examples.zadd Examples.zflip) as [Hfirst Hnext]. split.
  - eapply (Hfirst 0 1 2 3
              [Examples.query1; Examples.key1; Examples.cos1; Examples.sin1]).
    + reflexivity.
    + apply (storage_fresh_above _
               [Examples.query1; Examples.key1; Examples.cos1; Examples.sin1]).
    + concrete_NoDup.
    + concrete_holds.
    + vm_compute. reflexivity.
  - eapply (Hnext 6 7 8 9 [0; 1; 2; 3] [4; 5]).
    + split_and!; reflexivity.
    + concrete_separate.
    + concrete_compatible.
    + concrete_holds.
    + vm_compute. reflexivity.
Defined.

Lemma replay_matches_direct_witness :
  GraphSite.same_as_direct
    (GraphSite.Rotary.apply_rotary_star Examples.zmul Examples.zadd Examples.zflip)
    (GraphSite.Rotary._optimized_apply_rotary Examples.zmul Examples.zadd Examples.zflip
       0 1 2 3)
    [0; 1; 2; 3] Examples.rotary_fresh
  ∧ GraphSite.same_as_direct
      (GraphSite.Rotary.apply_rotary_star Examples.zmul Examples.zadd Examples.zflip)
      (GraphSite.Rotary._optimized_apply_rotary Examples.zmul Examples.zadd Examples.zflip
         6 7 8 9)
      [6; 7; 8; 9] Examples.rotary_bound.
Proof.
  destruct (@replay_matches_direct Z) as (Hrot & _).
  destruct (Hrot Examples.zmul Examples.zadd Examples.zflip) as [Hfirst Hnext]. split.
  - eapply (Hfirst 0 1 2 3
              [Examples.query1; Examples.key1; Examples.cos1; Examples.sin1]).
    + reflexivity.
    + apply (storage_fresh_above _
               [Examples.query1; Examples.key1; Examples.cos1; Examples.sin1]).
    + concrete_NoDup.
    + concrete_holds.
    + vm_compute. reflexivity.
  - eapply (Hnext 6 7 8 9 [0; 1; 2; 3] [4; 5]
              [Examples.query2; Examples.key2; Examples.cos1; Examples.sin1]).
    + split_and!; reflexivity.
    + concrete_separate.
    + concrete_compatible.
    + concrete_holds.
    + vm_compute. reflexivity.
Defined.

(** * Part III: further properties of the sources *)

(** ** Transposition and the cache layouts of the two model families *)

Section permute_facts.
Import Torch.
Context {A : Type}.
Implicit Types (l : list A) (t : tensor A).

Lemma omap_seq_lookup (f : nat → option A) s n k :
  (∀ j, j < n → is_Some (f (s + j))) → k < n → omap f (seq s n) !! k = f (s + k).
Proof.
  revert s k; induction n as [|n IH]; intros s k Hf Hk; [lia|].
  cbn [seq omap list_omap]. destruct (Hf 0) as [x Hx]; [lia|].
  rewrite Nat.add_0_r in Hx. rewrite Hx. destruct k as [|k]; simpl.
  - by rewrite Nat.add_0_r.
  - rewrite IH; [f_equal; lia| |lia]. intros j Hj.
    replace (S s + j) with (s + S j) by lia. apply Hf. lia.
Qed.

Lemma omap_seq_length (f : nat → option A) s n :
  (∀ j, j < n → is_Some (f (s + j))) → length (omap f (seq s n)) = n.
Proof.
  revert s; induction n as [|n IH]; intros s Hf; [done|].
  cbn [seq omap list_omap]. destruct (Hf 0) as [x Hx]; [lia|].
  rewrite Nat.add_0_r in Hx. rewrite Hx. simpl. f_equal. apply IH.
  intros j Hj. replace (S s + j) with (s + S j) by lia. apply Hf. lia.
Qed.

Lemma transpose_index rows cols k :
  k < rows * cols → k `mod` rows * cols + k `div` rows < rows * cols.
Proof.
  intros Hk. assert (0 < rows) by (destruct rows; lia).
  pose proof (Nat.mod_upper_bound k rows).
  assert (k `div` rows < cols) by (apply Nat.Div0.div_lt_upper_bound; lia).
  nia.
Qed.

Lemma transpose_flat_length rows cols l :
  length l = rows * cols → length (transpose_flat rows cols l) = rows * cols.
Proof.
  intros Hl. unfold transpose_flat. apply omap_seq_length. intros j Hj. simpl.
  apply lookup_lt_is_Some_2. rewrite Hl. by apply transpose_index.
Qed.

Lemma transpose_flat_lookup rows cols l k :
  length l = rows * cols → k < rows * cols →
  transpose_flat rows cols l !! k = l !! (k `mod` rows * cols + k `div` rows).
Proof.
  intros Hl Hk. unfold transpose_flat. rewrite omap_seq_lookup; [done| |done].
  intros j Hj. simpl. apply lookup_lt_is_Some_2. rewrite Hl. by apply transpose_index.
Qed.

(** Transposing twice gives the matrix back. *)
Lemma transpose_flat_involutive rows cols l :
  length l = rows * cols →
  transpose_flat cols rows (transpose_flat rows cols l) = l.
Proof.
  intros Hl. pose proof (transpose_flat_length rows cols l Hl) as Hl'.
  apply list_eq. intros k. destruct (decide (k < rows * cols)) as [Hk|Hk].
  - rewrite transpose_flat_lookup by lia.
    assert (0 < cols) by (destruct cols; lia).
    assert (0 < rows) by (destruct rows; lia).
    assert (k `div` cols < rows) by (apply Nat.Div0.div_lt_upper_bound; lia).
    pose proof (Nat.mod_upper_bound k cols).
    rewrite transpose_flat_lookup by (try done; nia).
    f_equal.
    rewrite (Nat.add_comm (k `mod` cols * rows)), Nat.Div0.mod_add, Nat.div_add by lia.
    rewrite (Nat.mod_small (k `div` cols) rows), (Nat.div_small (k `div` cols) rows) by done.
    pose proof (Nat.div_mod_eq k cols). lia.
  - rewrite !lookup_ge_None_2; [done|lia|].
    rewrite transpose_flat_length; [lia|]. rewrite Hl'. lia.
Qed.

(** [permute(0, 2, 1)] undoes itself. *)
Lemma permute_0_2_1_involutive t n0 n1 n2 :
  shape t = [n0; n1; n2] → well_formed t →
  (t' ←r permute_0_2_1 t; permute_0_2_1 t') = Ok t.
Proof.
  intros Hsh Hwf. destruct t as [sh d]. unfold well_formed in Hwf. simpl in *. subst sh.
  simpl in Hwf. unfold permute_0_2_1; simpl.
  assert (length d = n0 * (n1 * n2)) as Hd by lia.
  pose proof (Forall_length_chunks n0 (n1 * n2) d Hd) as Hcs.
  f_equal. f_equal.
  rewrite <-(length_chunks n0 (n1 * n2) d) at 1.
  rewrite <-(length_fmap (transpose_flat n1 n2)).
  rewrite chunks_join.
  - rewrite <-list_fmap_compose.
    rewrite (Forall_fmap_ext_1 _ id); [by rewrite list_fmap_id, join_chunks|].
    eapply Forall_impl; [exact Hcs|]. intros c Hc; simpl.
    by apply transpose_flat_involutive.
  - apply Forall_fmap. eapply Forall_impl; [exact Hcs|]. intros c Hc; simpl.
    rewrite transpose_flat_length by done. lia.
Qed.
End permute_facts.

Section reorder_facts.
Import Torch Falcon.
Context {A : Type}.
Implicit Types (t state : tensor A).

Lemma length_join_uniform (size : nat) (cs : list (list A)) :
  Forall (λ c, length c = size) cs → length (mjoin cs) = length cs * size.
Proof.
  induction 1 as [|c cs Hc _ IH]; simpl; [done|]. rewrite length_app, IH, Hc. lia.
Qed.

Lemma permute_0_2_1_ok t n0 n1 n2 :
  shape t = [n0; n1; n2] → well_formed t →
  ∃ t', permute_0_2_1 t = Ok t' ∧ shape t' = [n0; n2; n1] ∧ well_formed t'.
Proof.
  intros Hsh Hwf. unfold permute_0_2_1. rewrite Hsh. eexists. split; [done|].
  split; [done|]. unfold well_formed in *. rewrite Hsh in Hwf. simpl in *.
  rewrite (length_join_uniform (n1 * n2)).
  - rewrite length_fmap, length_chunks. lia.
  - apply Forall_fmap. eapply Forall_impl.
    + apply (Forall_length_chunks n0 (n1 * n2)). lia.
    + intros c Hc; simpl. by apply transpose_flat_length.
Qed.

(** Expansion returns a well-formed tensor that collapses to its source. *)
Lemma expand_then_collapse cfg state batch_size seq_len head_dim :
  consistent cfg →
  shape state = [batch_size * num_kv_heads cfg; seq_len; head_dim] →
  well_formed state →
  ∃ e, _expand_states cfg state = Ok e
       ∧ shape e = [batch_size * num_attention_heads cfg; seq_len; head_dim]
       ∧ well_formed e
       ∧ _collapse_states cfg e = Ok state.
Proof.
  intros Hcfg Hshape Hwf. pose proof Hcfg as (Hkv & Hg & Hheads).
  assert (length (data state) = batch_size * num_kv_heads cfg * (seq_len * head_dim)) as Hlen.
  { unfold well_formed in Hwf. rewrite Hwf, Hshape. simpl. lia. }
  eexists. split; [by apply _expand_states_ok|]. split; [done|]. split.
  - unfold well_formed. cbn [shape data].
    rewrite (length_join_uniform (num_key_value_groups cfg * (seq_len * head_dim))).
    + rewrite length_fmap, length_chunks, Hheads. simpl. lia.
    + apply Forall_fmap. eapply Forall_impl; [by apply Forall_length_chunks|].
      intros c Hc; simpl. by rewrite length_join_replicate, Hc.
  - erewrite _collapse_states_ok by done. cbn [data]. rewrite first_of_broadcast by done.
    destruct state; simpl in *. by rewrite Hshape.
Qed.

(** X3: a cache converted from the Bloom layout to the Falcon layout and
    back is the cache one started with, keys and values. *)
Theorem reorder_cache_roundtrip cfg (key_states value_states : tensor A)
    batch_size seq_len head_dim :
  consistent cfg →
  shape key_states = [batch_size * num_kv_heads cfg; head_dim; seq_len] →
  shape value_states = [batch_size * num_kv_heads cfg; seq_len; head_dim] →
  well_formed key_states → well_formed value_states →
  (falcon ←r _reorder_cache_from_bloom_to_falcon cfg (key_states, value_states);
   _reorder_cache_from_falcon_to_bloom cfg falcon) = Ok (key_states, value_states).
Proof.
  intros Hcfg Hk Hv Hwk Hwv.
  destruct (permute_0_2_1_ok key_states _ _ _ Hk Hwk) as (pk & Hpk & Hpks & Hpkw).
  pose proof (permute_0_2_1_involutive key_states _ _ _ Hk Hwk) as Hinv.
  rewrite Hpk in Hinv. cbn [rbind] in Hinv.
  unfold _reorder_cache_from_bloom_to_falcon. rewrite Hpk. cbn [rbind].
  rewrite decide_True by congruence.
  unfold _reorder_cache_from_falcon_to_bloom.
  destruct (new_decoder_architecture cfg).
  - destruct (expand_then_collapse cfg pk _ _ _ Hcfg Hpks Hpkw) as (ek & Hek & _ & _ & Hck).
    destruct (expand_then_collapse cfg value_states _ _ _ Hcfg Hv Hwv)
      as (ev & Hev & _ & _ & Hcv).
    rewrite Hek, Hev. cbn [rbind]. rewrite Hck, Hcv. cbn [rbind fst snd].
    rewrite decide_True by congruence. by rewrite Hinv.
  - cbn [rbind fst snd]. rewrite decide_True by congruence. by rewrite Hinv.
Qed.

End reorder_facts.

(** ** Which rows the two layouts hold *)

Section row_facts.
Import Torch Falcon.
Context {A : Type}.
Implicit Types (l c : list A) (t state : tensor A).

Lemma chunks_lookup n size l i :
  i < n → chunks n size l !! i = Some (take size (drop (i * size) l)).
Proof.
  revert l i; induction n as [|n IH]; intros l i Hi; [lia|].
  destruct i as [|i]; simpl; [done|].
  rewrite IH by lia. by rewrite drop_drop.
Qed.

Lemma drop_join_uniform (size q : nat) (cs : list (list A)) :
  Forall (λ c, length c = size) cs → drop (q * size) (mjoin cs) = mjoin (drop q cs).
Proof.
  intros Hcs. revert q. induction Hcs as [|c cs Hc _ IH]; intros q.
  { simpl. by rewrite !drop_nil. }
  destruct q as [|q]; [done|]. simpl.
  rewrite drop_app_ge by lia. rewrite Hc.
  replace (size + q * size - size) with (q * size) by lia. apply IH.
Qed.

Lemma row_of_join (size r : nat) (cs : list (list A)) c :
  Forall (λ c, length c = size) cs → cs !! r = Some c →
  take size (drop (r * size) (mjoin cs)) = c.
Proof.
  intros Hcs Hr. rewrite drop_join_uniform by done.
  rewrite (drop_S _ _ _ Hr). simpl.
  assert (length c = size) as <-.
  { rewrite Forall_forall in Hcs. apply Hcs. by eapply list_elem_of_lookup_2. }
  by rewrite take_app_length.
Qed.

Lemma lookup_join_replicate (g r : nat) (cs : list (list A)) :
  0 < g → mjoin (replicate g <$> cs) !! r = cs !! (r `div` g).
Proof.
  intros Hg. revert r. induction cs as [|c cs IH]; intros r; simpl.
  { by rewrite !lookup_nil. }
  destruct (decide (r < g)) as [Hr|Hr].
  - rewrite lookup_app_l by (by rewrite length_replicate).
    rewrite Nat.div_small by done. simpl. by apply lookup_replicate_2.
  - rewrite lookup_app_r by (rewrite length_replicate; lia).
    rewrite length_replicate, IH.
    replace r with ((r - g) + 1 * g) at 2 by lia.
    rewrite Nat.div_add by lia. by rewrite Nat.add_1_r.
Qed.

Lemma join_join_replicate (g : nat) (cs : list (list A)) :
  mjoin ((λ c, mjoin (replicate g c)) <$> cs) = mjoin (mjoin (replicate g <$> cs)).
Proof.
  induction cs as [|c cs IH]; [done|].
  rewrite !fmap_cons. change (mjoin (replicate g c :: (replicate g <$> cs)))
    with (replicate g c ++ mjoin (replicate g <$> cs)).
  rewrite join_app, <-IH. done.
Qed.

Lemma Forall_join_replicate (size g : nat) (cs : list (list A)) :
  Forall (λ c, length c = size) cs →
  Forall (λ c, length c = size) (mjoin (replicate g <$> cs)).
Proof.
  induction 1 as [|c cs Hc _ IH]; simpl; [done|].
  apply Forall_app. split; [|done]. by apply Forall_replicate.
Qed.

(** X1: in the expanded layout every query head holds the rows of the
    key/value head of its group: row [r] of the result is row
    [r / num_key_value_groups] of the collapsed state. *)
Theorem _expand_states_rows cfg state batch_size seq_len head_dim :
  consistent cfg →
  shape state = [batch_size * num_kv_heads cfg; seq_len; head_dim] →
  well_formed state →
  ∃ expanded,
    _expand_states cfg state = Ok expanded
    ∧ shape expanded = [batch_size * num_attention_heads cfg; seq_len; head_dim]
    ∧ ∀ r, r < batch_size * num_attention_heads cfg →
           row expanded r = row state (r `div` num_key_value_groups cfg).
Proof.
  intros Hcfg Hshape Hwf. pose proof Hcfg as (Hkv & Hg & Hheads).
  assert (length (data state) = batch_size * num_kv_heads cfg * (seq_len * head_dim)) as Hlen.
  { unfold well_formed in Hwf. rewrite Hwf, Hshape. simpl. lia. }
  eexists. split; [by apply _expand_states_ok|]. split; [done|].
  intros r Hr. unfold row. cbn [shape data tail]. rewrite Hshape. cbn [tail numel foldr].
  rewrite Nat.mul_1_r.
  set (size := seq_len * head_dim) in *.
  set (cs := chunks (batch_size * num_kv_heads cfg) size (data state)).
  assert (Forall (λ c, length c = size) cs) as Hcs by (by apply Forall_length_chunks).
  assert (r `div` num_key_value_groups cfg < batch_size * num_kv_heads cfg) as Hq.
  { apply Nat.Div0.div_lt_upper_bound. rewrite Hheads in Hr. lia. }
  rewrite join_join_replicate.
  apply row_of_join; [by apply Forall_join_replicate|].
  rewrite lookup_join_replicate by done. unfold cs. by rewrite chunks_lookup.
Qed.

(** X2: the collapsed layout keeps, for every key/value head, the rows of
    the first query head of its group: row [i] of the result is row
    [i * num_key_value_groups] of the expanded state. *)
Theorem _collapse_states_rows cfg state batch_size seq_len head_dim :
  consistent cfg →
  shape state = [batch_size * num_attention_heads cfg; seq_len; head_dim] →
  well_formed state →
  ∃ collapsed,
    _collapse_states cfg state = Ok collapsed
    ∧ shape collapsed = [batch_size * num_kv_heads cfg; seq_len; head_dim]
    ∧ ∀ i, i < batch_size * num_kv_heads cfg →
           row collapsed i = row state (i * num_key_value_groups cfg).
Proof.
  intros Hcfg Hshape Hwf. pose proof Hcfg as (Hkv & Hg & Hheads).
  set (g := num_key_value_groups cfg) in *.
  set (size := seq_len * head_dim) in *.
  assert (length (data state) = batch_size * num_kv_heads cfg * (g * size)) as Hlen.
  { unfold well_formed in Hwf. rewrite Hwf, Hshape. simpl. rewrite Hheads.
    unfold size. lia. }
  eexists. split; [by apply _collapse_states_ok|]. split; [done|].
  intros i Hi. unfold row. cbn [shape data tail]. rewrite Hshape. cbn [tail numel foldr].
  rewrite Nat.mul_1_r. fold size g.
  set (cs := chunks (batch_size * num_kv_heads cfg) (g * size) (data state)).
  assert (Forall (λ c, length c = g * size) cs) as Hcs by (by apply Forall_length_chunks).
  erewrite row_of_join.
  - reflexivity.
  - apply Forall_fmap. eapply Forall_impl; [exact Hcs|]. intros c Hc; simpl.
    rewrite length_take, length_drop. destruct g; [lia|]. nia.
  - rewrite list_lookup_fmap. unfold cs. rewrite chunks_lookup by done. simpl.
    rewrite drop_0, take_take. do 2 f_equal; [destruct g; [lia|]; nia|].
    f_equal. lia.
Qed.
End row_facts.

(** ** The cached rotary tables *)

Section cos_sin_facts.
Import Torch GraphSite GraphSite.Rotary.
Context {elt : Type}.
Variable emb_cos : Z → tensor elt.
Implicit Types (m : @machine elt (@RotaryEmbedding elt)).

(** X4: [cos_sin] only ever grows its tables: after a call, returned or
    raised, the cached length is not smaller than before and covers the
    positions asked for; the first call on a new module builds the tables
    for at least [INFERENCE_MAX_LENGTH] positions; and a call the tables
    already cover leaves the module untouched. *)
Theorem cos_sin_cache_grows seq_len past m r m' :
  cos_sin emb_cos seq_len past m = (r, m') →
  (seq_len_cached (self m) ≤ seq_len_cached (self m'))%Z
  ∧ (Z.of_nat (seq_len + past) ≤ seq_len_cached (self m'))%Z
  ∧ (seq_len_cached (self m) = (-1)%Z →
     seq_len_cached (self m') = (INFERENCE_MAX_LENGTH `max` Z.of_nat (seq_len + past))%Z)
  ∧ (seq_len_cached (self m) ≠ (-1)%Z →
     (Z.of_nat (seq_len + past) ≤ seq_len_cached (self m))%Z → self m' = self m).
Proof.
  unfold cos_sin, bind, get_self, set_self, ret, throw, lift, alloc, INFERENCE_MAX_LENGTH.
  intros H.
  repeat case_match; simplify_eq/=; split_and!; try done; try lia.
Qed.

(** X5: both tables are filled from the cosine ([emb.cos()] is used for
    either), so on a module whose tables agree, as they do after
    [__init__], they still agree after [cos_sin], and the two tensors it
    returns, cos and sin, are different objects holding the same values. *)
Theorem cos_sin_returns_equal_tables seq_len past m cos sin m' :
  cos_cached (self m) = sin_cached (self m) →
  cos_sin emb_cos seq_len past m = (Ok (cos, sin), m') →
  cos_cached (self m') = sin_cached (self m')
  ∧ cos ≠ sin
  ∧ ∃ v, heap m' !! cos = Some v ∧ heap m' !! sin = Some v.
Proof.
  unfold cos_sin, bind, get_self, set_self, ret, throw, lift, alloc.
  intros Hagree H.
  repeat case_match; simplify_eq/=;
    repeat match goal with
      | H1 : ?x = Ok _, H2 : ?x = Ok _ |- _ => rewrite H1 in H2; simplify_eq/=
      | H1 : ?x = Some _, H2 : ?y = Some _, H3 : ?x = ?y |- _ =>
          rewrite H3, H2 in H1; simplify_eq/=
      end;
    (split_and!; [done|lia|]);
    (eexists; split; [rewrite lookup_insert_ne by lia; apply lookup_insert_eq
                     |apply lookup_insert_eq]).
Qed.
End cos_sin_facts.

(** ** Calls of a site, one after the other *)

Section rotary_compose.
Import Torch GraphSite GraphSite.Rotary.
Context {elt : Type}.
Variable tmul tadd : tensor elt → tensor elt → result (tensor elt).
Variable rotate_half : tensor elt → result (tensor elt).
Abbreviation op' := (apply_rotary_star tmul tadd rotate_half).
Abbreviation call' := (_optimized_apply_rotary tmul tadd rotate_half).
Implicit Types (m : @machine elt (@RotaryEmbedding elt)).

(** The first accelerated call, with what it leaves untouched: the
    tensors that existed before keep their values. *)
Lemma rotary_first_call_frame q k c s vals rs m :
  cuda_graph (self m) = None → fresh_above m → NoDup [q; k; c; s] →
  holds (heap m) [q; k; c; s] vals → op' vals = Ok rs →
  ∃ outs m',
    call' q k c s m = (Ok outs, m')
    ∧ trace m' = trace m ++ [Run; Run; Run; Capture]
                   ++ zip_with Copy [q; k; c; s] [q; k; c; s] ++ [Replay]
    ∧ bound_to tmul tadd rotate_half (self m') [q; k; c; s] outs
    ∧ separate [q; k; c; s] outs
    ∧ holds (heap m') [q; k; c; s] vals ∧ holds (heap m') outs rs
    ∧ fresh_above m' ∧ inference_mode m' = inference_mode m
    ∧ ∀ l, l < next_loc m → heap m' !! l = heap m !! l.
Proof.
  intros Hnone Hf Hnd Hh Hop.
  pose proof (apply_rotary_star_length _ _ _ _ _ Hop) as Hlen.
  set (self1 := set_graph (self m) (Some new_graph) (Some [q; k; c; s])
                  (static_outputs (self m))).
  set (m1 := Machine self1 (heap m) (next_loc m) (trace m) (inference_mode m)).
  destruct (warm_up_eq op' [q; k; c; s] vals rs 3 m1) as (h' & n' & Hwarm & Hg); [done..|].
  simpl in Hg.
  assert (holds h' [q; k; c; s] vals) as Hh' by (by eapply holds_grown).
  set (outs := seq n' (length rs)).
  set (g := {| recorded := Some ([q; k; c; s], op', outs) |}).
  set (self2 := set_graph self1 (Some g) (input_surface self1) (Some outs)).
  set (h'' := write_heap outs rs (write_heap [q; k; c; s] vals h')).
  assert (separate [q; k; c; s] outs) as Hsep.
  { split_and!; [done|apply NoDup_seq|]. intros l Hl Hl'.
    apply elem_of_seq in Hl'. destruct Hg as (_ & _ & Hnone').
    apply list_elem_of_lookup in Hl as [i Hi].
    destruct (Forall2_lookup_l _ _ _ i l Hh' Hi) as (v & _ & Hv).
    rewrite Hnone' in Hv by lia. done. }
  exists outs, (Machine self2 h'' (n' + length rs)
                  (trace m ++ [Run; Run; Run; Capture]
                     ++ zip_with Copy [q; k; c; s] [q; k; c; s] ++ [Replay])
                  (inference_mode m)).
  split_and!; try done.
  - unfold _optimized_apply_rotary.
    mstep_refl. rewrite Hnone.
    mstep_refl. fold self1 m1. mstep_refl. mstep_refl.
    mstep ltac:(exact Hwarm).
    mstep ltac:(by apply (capture_eq op' _ vals rs)).
    cbn [m1]. fold outs g.
    mstep_refl. mstep_refl. fold self2.
    mstep_refl. mstep_refl.
    mstep ltac:(apply (copy_zip_eq _ _ vals);
                [done|by eapply compatible_self|done]).
    mstep_refl. cbn [self2 set_graph cuda_graph static_outputs].
    mstep ltac:(apply (replay_eq op' _ _ vals rs);
                [apply holds_write_heap; [done|by apply holds_length in Hh]|done]).
    mstep_refl. unfold ret. do 2 f_equal.
    simpl. by rewrite <-!app_assoc.
  - split_and!; try done. unfold outs. by rewrite length_seq.
  - cbn [heap]. unfold h''. eapply holds_agree; [exact Hh'|]. intros l Hl.
    rewrite write_heap_other by (destruct Hsep as (_ & _ & Hsep); by apply Hsep).
    by rewrite write_heap_holds_id.
  - apply holds_write_heap; [apply NoDup_seq|unfold outs; by rewrite length_seq].
  - intros l Hl. cbn [heap next_loc] in *. unfold h''.
    rewrite write_heap_other by (unfold outs; rewrite elem_of_seq; lia).
    rewrite write_heap_holds_id by done. destruct Hg as (_ & _ & Hg). apply Hg. lia.
  - intros l Hl. cbn [heap]. unfold h''. destruct Hg as (Hle & Hold & _).
    rewrite write_heap_other by (unfold outs; rewrite elem_of_seq; lia).
    rewrite write_heap_holds_id by done. by apply Hold.
Qed.

Lemma compatible_of_holds (h : gmap loc (tensor elt)) surface inputs svals ivals :
  holds h surface svals → holds h inputs ivals →
  Forall2 (λ sv iv, shape iv = shape sv) svals ivals →
  (∀ l, l ∈ surface → l ∉ inputs) →
  compatible h surface inputs.
Proof.
  intros Hs Hi Hsh Hdisj. split.
  - apply Forall2_same_length_lookup. split.
    + apply holds_length in Hs, Hi. apply Forall2_length in Hsh. lia.
    + intros i sl il Hsl Hil.
      destruct (Forall2_lookup_l _ _ _ i sl Hs Hsl) as (sv & Hsv & ?).
      destruct (Forall2_lookup_l _ _ _ i il Hi Hil) as (iv & Hiv & ?).
      exists sv, iv. split_and!; [done..|].
      destruct (Forall2_lookup_l _ _ _ i sv Hsh Hsv) as (iv' & ? & ?). by simplify_eq.
  - intros i j l Hi' Hj. exfalso. eapply Hdisj; by eapply list_elem_of_lookup_2.
Qed.

(** X6: two accelerated calls in a row, on eight different tensors of
    pairwise equal shapes.  The graph is captured once, in the first
    call; the second call only copies and replays, allocates nothing and
    returns the very buffers the first call returned, which then hold the
    results of the second call; the tensors passed to the first call have
    been overwritten with the inputs of the second. *)
Theorem rotary_two_calls q1 k1 c1 s1 q2 k2 c2 s2 vals1 vals2 rs1 rs2 m :
  cuda_graph (self m) = None → fresh_above m →
  NoDup [q1; k1; c1; s1; q2; k2; c2; s2] →
  holds (heap m) [q1; k1; c1; s1] vals1 → holds (heap m) [q2; k2; c2; s2] vals2 →
  Forall2 (λ v1 v2, shape v2 = shape v1) vals1 vals2 →
  op' vals1 = Ok rs1 → op' vals2 = Ok rs2 →
  ∃ outs m1 m2,
    call' q1 k1 c1 s1 m = (Ok outs, m1)
    ∧ call' q2 k2 c2 s2 m1 = (Ok outs, m2)
    ∧ trace m2 = trace m ++ [Run; Run; Run; Capture]
                   ++ [Copy q1 q1; Copy k1 k1; Copy c1 c1; Copy s1 s1; Replay]
                   ++ [Copy q1 q2; Copy k1 k2; Copy c1 c2; Copy s1 s2; Replay]
    ∧ next_loc m2 = next_loc m1
    ∧ holds (heap m1) outs rs1
    ∧ holds (heap m2) outs rs2
    ∧ holds (heap m2) [q1; k1; c1; s1] vals2.
Proof.
  intros Hnone Hf Hnd Hh1 Hh2 Hsh Hop1 Hop2.
  change [q1; k1; c1; s1; q2; k2; c2; s2] with ([q1; k1; c1; s1] ++ [q2; k2; c2; s2]) in Hnd.
  apply NoDup_app in Hnd as (Hnd1 & Hdisj & Hnd2).
  destruct (rotary_first_call_frame q1 k1 c1 s1 vals1 rs1 m)
    as (outs & m1 & Hc1 & Ht1 & Hb & Hsep & Hs1 & Ho1 & _ & _ & Hframe); [done..|].
  assert (holds (heap m1) [q2; k2; c2; s2] vals2) as Hh2'.
  { eapply holds_agree; [exact Hh2|]. intros l Hl. apply Hframe.
    by eapply holds_below. }
  destruct (rotary_next_call tmul tadd rotate_half q2 k2 c2 s2 [q1; k1; c1; s1] outs
              vals2 rs2 m1) as (m2 & Hc2 & _ & Ht2 & Hs2 & Ho2 & Hn2 & _); [done..| |done|done|].
  { by eapply compatible_of_holds. }
  exists outs, m1, m2. split_and!; try done.
  rewrite Ht2, Ht1. cbn [zip_with]. by rewrite <-!app_assoc.
Qed.
End rotary_compose.

Section attention_errors.
Import Torch GraphSite GraphSite.Attention.
Context {elt : Type}.
Variable query_key_value : tensor elt → result (tensor elt).
Variable _split_heads : tensor elt → result (tensor elt * tensor elt * tensor elt).
Implicit Types (m : @machine elt (@FalconAttention elt)).

(** X7: once the fused-QKV graph is captured for a batch of [b] rows, a
    call with hidden states of another batch size (other than 1, which
    [copy_] would broadcast) is refused by [copy_] with the tensor
    library's size error, before anything is copied or replayed: module,
    storage and engine are exactly as before. *)
Theorem qkv_batch_mismatch_raises hidden static outs sv hv b b' rest rest' m :
  bound_to query_key_value _split_heads (self m) [static] outs →
  heap m !! static = Some sv → heap m !! hidden = Some hv →
  shape sv = b :: rest → shape hv = b' :: rest' → length rest' = length rest →
  b' ≠ b → b' ≠ 1 →
  _optimized_apply_qkv query_key_value _split_heads hidden m = (Raise expand_invalid, m).
Proof.
  intros (Hgraph & Hsurf & Houts & Hlen) Hsv Hhv Hshs Hshh Hrank Hb Hb1.
  destruct (static_input (self m)) as [static'|] eqn:Hstatic; [|done].
  injection Hsurf as ->.
  unfold _optimized_apply_qkv.
  mstep_refl. rewrite Hgraph. mstep_refl. mstep_refl. rewrite Hstatic. mstep_refl.
  apply bind_raise. unfold copy_.
  erewrite bind_ok by (unfold read; by rewrite Hsv).
  erewrite bind_ok by (unfold read; by rewrite Hhv).
  apply bind_raise. unfold lift. f_equal.
  unfold expand. rewrite Hshs, Hshh, length_fmap. cbn [length].
  rewrite Hrank, Nat.sub_diag. rewrite decide_True by (split; [lia|constructor]).
  cbn [replicate app fmap list_fmap expand_from shape lookup list_lookup].
  rewrite decide_False by done. by rewrite decide_False by done.
Qed.
End attention_errors.

(** ** What the speculative loop accepts, and how far it goes *)

Section speculative_more.
Import Speculative.
Context {Logits : Type}.
Variable argmax : Logits → token.
Variable model2_generate : list token → nat → list token.
Variable model : list token → Z → list Logits.
Variable entropy : nat → Z.

Lemma py_index_nat_inv {A} (l : list A) (i : nat) x :
  py_index l (Z.of_nat i) = Ok x → l !! i = Some x.
Proof.
  unfold py_index. cbv zeta. destruct (decide (Z.of_nat i < 0)%Z); [lia|].
  case_decide; [|done]. rewrite Nat2Z.id. by destruct (l !! i); intros [= ->].
Qed.

(** The comparison loop counts matches only: every position it counted
    holds a proposal equal to the prediction for it. *)
Lemma match_loop_sound new_tokens logits generated_len k :
  ∀ i acc ml,
    match_loop argmax new_tokens logits generated_len (seq i k) acc = Ok ml →
    acc ≤ ml ≤ acc + k
    ∧ ∀ j, j < ml - acc → ∃ tok row,
        new_tokens !! (i + j) = Some tok
        ∧ py_index logits (Z.of_nat generated_len + Z.of_nat (i + j) - 1) = Ok row
        ∧ tok = argmax row.
Proof.
  induction k as [|k IH]; intros i acc ml; cbn [seq match_loop].
  { intros [= <-]. split; [lia|]. intros j Hj. lia. }
  destruct (py_index new_tokens (Z.of_nat i)) as [tok|] eqn:Htok; [|done].
  cbn [rbind].
  destruct (py_index logits _) as [row|] eqn:Hrow; [|done]. cbn [rbind].
  case_decide as Heq.
  - intros Hml. apply IH in Hml as [Hle Hall]. split; [lia|].
    intros j Hj. destruct j as [|j].
    + exists tok, row. rewrite Nat.add_0_r. split_and!; [by apply py_index_nat_inv|done..].
    + destruct (Hall j) as (tok' & row' & ? & ? & ?); [lia|].
      exists tok', row'. by replace (i + S j) with (S i + j) by lia.
  - intros [= <-]. split; [lia|]. intros j Hj. lia.
Qed.

(** What an iteration that returns has done to the accepted sequence. *)
Lemma iteration_inv batch_size s b s' :
  iteration argmax model2_generate model entropy batch_size s = Ok (b, s') →
  ∃ r, round argmax model2_generate model entropy batch_size s = Ok r
       ∧ match_length r ≤ batch_size
       ∧ generated_ids s' = generated_ids s ++ take (match_length r) (new_tokens r)
       ∧ (b = true ↔ 0 < match_length r).
Proof.
  unfold iteration.
  destruct (round _ _ _ _ _ _) as [r|] eqn:Hr; [|done]. cbn [rbind].
  pose proof (round_inv _ _ _ _ _ _ _ Hr) as (Hgen & _ & _ & Hml).
  apply match_loop_sound in Hml as [Hle _].
  case_decide as Hpos; intros [= <- <-]; exists r; cbn [generated_ids].
  - split_and!; [done|lia|by rewrite Hgen|done].
  - split_and!; [done|lia| |split; [done|lia]].
    replace (match_length r) with 0 by lia. by rewrite take_0, app_nil_r.
Qed.

(** X8: every token the loop accepts is the token the authoritative
    model predicts for its position: the [i]-th token appended in an
    iteration equals the arg-max of the logits at the position before
    it, in the output of the model on the submitted sequence. *)
Theorem accepted_tokens_match_authority batch_size s s' :
  iteration argmax model2_generate model entropy batch_size s = Ok (true, s') →
  ∃ r,
    round argmax model2_generate model entropy batch_size s = Ok r
    ∧ 0 < match_length r ≤ batch_size
    ∧ generated_ids s' = generated_ids s ++ take (match_length r) (new_tokens r)
    ∧ length (generated_ids s') = length (generated_ids s) + match_length r
    ∧ ∀ i, i < match_length r → ∃ tok row,
        generated_ids s' !! (length (generated_ids s) + i) = Some tok
        ∧ py_index (model (generated_ids s ++ new_tokens r) 1)
            (Z.of_nat (length (generated_ids s)) + Z.of_nat i - 1) = Ok row
        ∧ tok = argmax row.
Proof.
  intros Hit. apply iteration_inv in Hit as (r & Hr & Hle & Hgen & Hb).
  exists r. pose proof (round_inv _ _ _ _ _ _ _ Hr) as (_ & _ & _ & Hml).
  apply match_loop_sound in Hml as [_ Hall].
  assert (0 < match_length r) as Hpos by (by apply Hb).
  assert (match_length r ≤ length (new_tokens r)) as Hlen.
  { destruct (Hall (match_length r - 1)) as (tok & _ & Htok & _); [lia|].
    apply lookup_lt_Some in Htok. simpl in Htok. lia. }
  split_and!; [done|lia|done|done| |].
  - rewrite Hgen, length_app, length_take. lia.
  - intros i Hi. destruct (Hall i) as (tok & row & Htok & Hrow & Heq); [lia|].
    exists tok, row. split_and!; [|done..].
    rewrite Hgen, lookup_app_r by lia.
    replace (length (generated_ids s) + i - length (generated_ids s)) with i by lia.
    rewrite lookup_take_lt by done. done.
Qed.

Lemma while_loop_extends fuel max_new_tokens batch_size inputs_len s s' :
  while_loop argmax model2_generate model entropy fuel max_new_tokens batch_size
    inputs_len s = Ok (Some s') →
  generated_ids s `prefix_of` generated_ids s'
  ∧ length (generated_ids s')
    ≤ length (generated_ids s) `max` (max_new_tokens + inputs_len + batch_size - 1).
Proof.
  revert s; induction fuel as [|fuel IH]; intros s; cbn [while_loop].
  - case_decide; [done|]. intros [= <-]. split; [done|lia].
  - case_decide as Hcond; [|intros [= <-]; split; [done|lia]].
    destruct (iteration _ _ _ _ _ _) as [[b s1]|] eqn:Hit; [|done]. cbn [rbind fst snd].
    apply iteration_inv in Hit as (r & _ & Hle & Hgen & _).
    assert (generated_ids s `prefix_of` generated_ids s1) as Hpre.
    { rewrite Hgen. by apply prefix_app_r. }
    assert (length (generated_ids s1) ≤ length (generated_ids s) + batch_size) as Hlen.
    { rewrite Hgen, length_app, length_take. lia. }
    destruct b.
    + intros Hw. apply IH in Hw as [Hpre' Hlen']. split; [by etrans|lia].
    + intros [= <-]. split; [done|lia].
Qed.

(** X9: the loop stops after at most one iteration per token asked for,
    never touches the tokens it started from, and overshoots the length
    asked for by fewer than [batch_size] tokens. *)
Theorem speculative_loop_bounds fuel max_new_tokens batch_size inputs_len s :
  max_new_tokens + inputs_len - length (generated_ids s) ≤ fuel →
  while_loop argmax model2_generate model entropy fuel max_new_tokens batch_size
    inputs_len s ≠ Ok None
  ∧ ∀ s',
      while_loop argmax model2_generate model entropy fuel max_new_tokens batch_size
        inputs_len s = Ok (Some s') →
      generated_ids s `prefix_of` generated_ids s'
      ∧ length (generated_ids s')
        ≤ length (generated_ids s) `max` (max_new_tokens + inputs_len + batch_size - 1).
Proof.
  intros Hfuel. split; [by apply while_loop_terminates|].
  intros s'. apply while_loop_extends.
Qed.
End speculative_more.

(** ** The dtype and the size of a block *)

Section block_size_facts.
Import BlockUtils.
Context {float : Type}.
Variable int_add_float : Z → float → float.
Variable int_mul_float : Z → float → result float.
Variable py_round : float → result Z.
Variable count_params : PretrainedConfig → result Z.

(** X10: whatever the configuration says, the resolved dtype is neither
    ["auto"] nor [None], and resolving it again changes nothing. *)
Theorem resolve_block_dtype_resolved config dtype :
  in_auto_none (resolve_block_dtype config dtype) = false
  ∧ resolve_block_dtype config (resolve_block_dtype config dtype)
    = resolve_block_dtype config dtype.
Proof.
  unfold resolve_block_dtype.
  destruct (in_auto_none dtype) eqn:Hd; cbn [negb].
  - destruct (in_auto_none (torch_dtype config)) eqn:Hc; cbn [negb].
    + done.
    + by rewrite Hc.
  - by rewrite Hd.
Qed.

(** X11: the size on disk takes the dtype from the configuration alone:
    it is the size in memory for the dtype ["auto"] without 8-bit
    weights, whatever [dtype] and [load_in_8bit] are passed. *)
Theorem disk_size_is_auto_memory_size config dtype load_in_8bit eps :
  get_block_size float int_add_float int_mul_float py_round count_params
    config "disk" dtype load_in_8bit eps
  = get_block_size float int_add_float int_mul_float py_round count_params
    config "memory" (DStr "auto") (Some false) eps.
Proof.
  unfold get_block_size. cbn.
  destruct (count_params config) as [n|]; [|done]. cbn [rbind].
  by destruct load_in_8bit as [[]|].
Qed.

(** X12: a location other than ["memory"] and ["disk"] is never given a
    size: the call raises; and asking for the size in memory without a
    dtype or without [load_in_8bit] fails the assertion before the block
    is built. *)
Theorem block_size_refusals config location dtype load_in_8bit eps :
  location ≠ "memory" → location ≠ "disk" →
  (∃ e, get_block_size float int_add_float int_mul_float py_round count_params
    config location dtype load_in_8bit eps = Raise e
        ∧ (e = bad_location ∨ count_params config = Raise e))
  ∧ get_block_size float int_add_float int_mul_float py_round count_params
    config "memory" DNone load_in_8bit eps = Raise AssertionError
  ∧ get_block_size float int_add_float int_mul_float py_round count_params
    config "memory" dtype None eps = Raise AssertionError.
Proof.
  intros Hm Hd. unfold get_block_size. split_and!.
  - rewrite (bool_decide_eq_false_2 (location = "memory")) by done.
    rewrite (bool_decide_eq_false_2 (location = "disk")) by done. cbn.
    destruct (count_params config) as [n|e]; cbn [rbind]; eauto.
  - done.
  - cbn. by destruct dtype.
Qed.

End block_size_facts.

(** ** How the fused projection is cut into heads *)

Section split_heads_facts.
Import Torch Falcon.
Context {A : Type}.
Implicit Types (l c : list A) (t fused_qkv : tensor A).

Lemma view_infer_ok before after t n :
  numel before * numel after ≠ 0 →
  numel (shape t) = n * (numel before * numel after) →
  view_infer before after t = Ok (Tensor (before ++ n :: after) (data t)).
Proof.
  intros Hk Hn. unfold view_infer. cbv zeta.
  rewrite decide_True by (split; [done|]; rewrite Hn; apply Nat.Div0.mod_mul).
  by rewrite Hn, Nat.div_mul.
Qed.

(** A vector of a tensor made of one piece of every block. *)
Lemma vector_of_pieces (size off g h r : nat) (cs : list (list A)) c :
  Forall (λ c, length c = size) cs → 0 < g → off + g * h ≤ size →
  cs !! (r `div` g) = Some c →
  take h (drop (r * h) (mjoin ((λ c, take (g * h) (drop off c)) <$> cs)))
  = take h (drop (off + r `mod` g * h) c).
Proof.
  intros Hcs Hg Hoff Hc.
  assert (Forall (λ p, length p = g * h) ((λ c, take (g * h) (drop off c)) <$> cs)) as Hps.
  { apply Forall_fmap. eapply Forall_impl; [exact Hcs|]. intros c' Hc'; simpl; cbv beta in Hc'.
    rewrite length_take, length_drop. lia. }
  pose proof (Nat.div_mod_eq r g) as Hr.
  pose proof (Nat.mod_upper_bound r g ltac:(lia)) as Hm.
  set (q := r `div` g) in *. set (k := r `mod` g) in *.
  replace (r * h) with (q * (g * h) + k * h) by nia.
  rewrite <-drop_drop, (drop_join_uniform (g * h)) by done.
  rewrite (drop_S _ (take (g * h) (drop off c)) q) by (by rewrite list_lookup_fmap, Hc).
  simpl. rewrite drop_app_le by (rewrite length_take, length_drop;
    rewrite Forall_forall in Hcs; rewrite (Hcs c) by (by eapply list_elem_of_lookup_2); nia).
  rewrite take_app_le.
  2:{ rewrite length_drop, length_take, length_drop.
      rewrite Forall_forall in Hcs; rewrite (Hcs c) by (by eapply list_elem_of_lookup_2). nia. }
  replace (g * h) with (k * h + (g * h - k * h)) by nia.
  rewrite <-take_drop_commute, take_take, drop_drop.
  f_equal. nia.
Qed.

(** The data of a broadcast along a dimension of size 1. *)
Lemma broadcast_data (g : nat) (ks : list (list A)) :
  (if decide (1 = g) then mjoin ks
   else mjoin ((λ c, mjoin (replicate g c)) <$> ks))
  = mjoin (mjoin (replicate g <$> ks)).
Proof.
  case_decide as Hg; [|apply join_join_replicate].
  subst g. induction ks as [|k ks IH]; [done|]. simpl. by rewrite IH.
Qed.

(** What [split_heads] returns on a projection of [n] fused groups. *)
Lemma split_heads_ok fused_qkv num_heads num_kv_heads head_dim batch seq_len n g :
  0 < num_kv_heads → g = num_heads `div` num_kv_heads →
  0 < batch → 0 < seq_len → 0 < head_dim →
  shape fused_qkv = [batch; seq_len; n * ((g + 2) * head_dim)] →
  well_formed fused_qkv →
  let cs := chunks (batch * seq_len * n) ((g + 2) * head_dim) (data fused_qkv) in
  split_heads fused_qkv num_heads num_kv_heads head_dim
  = Ok (Tensor [batch; seq_len; n * g; head_dim]
          (mjoin ((λ c, take (g * head_dim) (drop 0 c)) <$> cs)),
        Tensor [batch; seq_len; n * g; head_dim]
          (mjoin (mjoin (replicate g <$>
             ((λ c, take (1 * head_dim) (drop (g * head_dim) c)) <$> cs)))),
        Tensor [batch; seq_len; n * g; head_dim]
          (mjoin (mjoin (replicate g <$>
             ((λ c, take (1 * head_dim) (drop ((g + 1) * head_dim) c)) <$> cs))))).
Proof.
  intros Hkv Hg Hb Hs Hh Hshape Hwf cs. destruct fused_qkv as [sh d].
  unfold well_formed in Hwf; simpl in *; subst sh; simpl in Hwf.
  unfold split_heads; cbn [shape data].
  unfold floordiv. rewrite decide_False by lia. cbn [rbind]. rewrite <-Hg.
  rewrite (view_infer_ok _ _ _ n); cycle 1.
  { simpl. nia. }
  { simpl. lia. }
  cbn [rbind app shape data].
  unfold split. cbn [shape lookup list_lookup].
  rewrite decide_True by (simpl; lia). cbn [rbind split_from].
  unfold narrow. cbn [shape data lookup list_lookup default take drop numel foldr list_insert
    insert].
  unfold id.
  assert (batch * (seq_len * (n * 1)) = batch * seq_len * n) as -> by lia.
  rewrite !Nat.mul_1_r.
  assert (Forall (λ c, length c = (g + 2) * head_dim) cs) as Hcs.
  { apply Forall_length_chunks. lia. }
  fold cs.
  set (ks := (λ c, take (1 * head_dim) (drop ((0 + g) * head_dim) c)) <$> cs).
  set (vs := (λ c, take (1 * head_dim) (drop ((0 + g + 1) * head_dim) c)) <$> cs).
  assert (∀ (off : nat) ps, off + head_dim ≤ (g + 2) * head_dim →
    ps = (λ c, take (1 * head_dim) (drop off c)) <$> cs →
    expand (Some <$> [batch; seq_len; n; g; head_dim])
      (Tensor [batch; seq_len; n; 1; head_dim] (mjoin ps))
    = Ok (Tensor [batch; seq_len; n; g; head_dim] (mjoin (mjoin (replicate g <$> ps)))))
    as Hexp.
  { intros off ps Hoff ->. unfold expand.
    rewrite decide_True by (split; [simpl; lia|constructor]).
    cbn [length fmap list_fmap Nat.sub replicate app shape data expand_from lookup
      list_lookup].
    rewrite !decide_True by done.
    rewrite <-broadcast_data.
    destruct (decide (1 = g)) as [<-|Hg1].
    - cbn [shape lookup list_lookup]. by rewrite decide_True.
    - rewrite decide_True by done. unfold expand_dim.
      cbn [shape data lookup list_lookup take drop numel foldr list_insert insert].
      rewrite decide_True by done. do 3 f_equal.
      assert (batch * (seq_len * (n * 1)) = length ((λ c, take (1 * head_dim) (drop off c)) <$> cs)) as ->.
      { rewrite length_fmap. unfold cs. rewrite length_chunks. lia. }
      rewrite Nat.mul_1_r. f_equal. apply chunks_join.
      apply Forall_fmap. eapply Forall_impl; [exact Hcs|]. intros c Hc; simpl; cbv beta in Hc.
      rewrite length_take, length_drop. lia. }
  rewrite (Hexp ((0 + g) * head_dim) ks) by (done || lia). cbn [rbind].
  rewrite (Hexp ((0 + g + 1) * head_dim) vs) by (done || lia). cbn [rbind].
  unfold flatten_2_3. cbn [shape data rbind]. done.
Qed.

(** X14: the heads [split_heads] hands out.  The projection is read as
    fused groups of [num_heads // num_kv_heads] query vectors, one key
    vector and one value vector; query head [r] is its own vector of its
    group, and its key and its value are the one key and the one value
    vector of that group, shared by all the query heads of the group.
    The number of groups is inferred from the size of the projection; it
    is not compared with [num_kv_heads]. *)
Theorem split_heads_layout fused_qkv num_heads num_kv_heads head_dim batch seq_len n g :
  0 < num_kv_heads → g = num_heads `div` num_kv_heads →
  0 < batch → 0 < seq_len → 0 < head_dim →
  shape fused_qkv = [batch; seq_len; n * ((g + 2) * head_dim)] →
  well_formed fused_qkv →
  ∃ query key value,
    split_heads fused_qkv num_heads num_kv_heads head_dim = Ok (query, key, value)
    ∧ shape query = [batch; seq_len; n * g; head_dim]
    ∧ shape key = shape query ∧ shape value = shape query
    ∧ ∀ r group,
        r < batch * seq_len * (n * g) →
        group = take ((g + 2) * head_dim)
                  (drop (r `div` g * ((g + 2) * head_dim)) (data fused_qkv)) →
        vector query r = take head_dim (drop (r `mod` g * head_dim) group)
        ∧ vector key r = take head_dim (drop (g * head_dim) group)
        ∧ vector value r = take head_dim (drop ((g + 1) * head_dim) group).
Proof.
  intros Hkv Hg Hb Hs Hh Hshape Hwf.
  pose proof (split_heads_ok _ _ _ _ _ _ _ _ Hkv Hg Hb Hs Hh Hshape Hwf) as Hok.
  cbv zeta in Hok. rewrite Hok. clear Hok.
  do 3 eexists. split; [done|]. split_and!; [done..|].
  intros r group Hr ->.
  assert (0 < g) as Hg0 by (destruct g; [lia|lia]).
  set (size := (g + 2) * head_dim).
  set (cs := chunks (batch * seq_len * n) size (data fused_qkv)).
  assert (length (data fused_qkv) = batch * seq_len * n * size) as Hlen.
  { unfold well_formed in Hwf. rewrite Hwf, Hshape. simpl. unfold size. lia. }
  assert (Forall (λ c, length c = size) cs) as Hcs by (by apply Forall_length_chunks).
  assert (r `div` g < batch * seq_len * n) as Hq.
  { apply Nat.Div0.div_lt_upper_bound. nia. }
  assert (cs !! (r `div` g)
          = Some (take size (drop (r `div` g * size) (data fused_qkv)))) as Hc.
  { unfold cs. by rewrite chunks_lookup. }
  unfold vector. cbn [shape data last default]. unfold id.
  assert (∀ (off : nat), off + head_dim ≤ size →
    take head_dim (drop (r * head_dim)
      (mjoin (mjoin (replicate g <$> ((λ c, take (1 * head_dim) (drop off c)) <$> cs)))))
    = take head_dim (drop off (take size (drop (r `div` g * size) (data fused_qkv)))))
    as Hshared.
  { intros off Hoff. apply row_of_join.
    - apply Forall_join_replicate, Forall_fmap. eapply Forall_impl; [exact Hcs|].
      intros c Hc'; simpl; cbv beta in Hc'. rewrite length_take, length_drop. lia.
    - rewrite lookup_join_replicate by done. rewrite list_lookup_fmap, Hc. simpl.
      by rewrite Nat.add_0_r. }
  split_and!.
  - rewrite (vector_of_pieces size 0 g head_dim r cs _ Hcs Hg0) by (done || unfold size; lia).
    done.
  - apply Hshared. unfold size. lia.
  - apply Hshared. unfold size. lia.
Qed.

(** X15: a projection whose last dimension is not a whole number of
    fused groups is refused when it is viewed by groups. *)
Theorem split_heads_ragged_projection fused_qkv num_heads num_kv_heads head_dim
    batch seq_len width :
  0 < num_kv_heads →
  shape fused_qkv = [batch; seq_len; width] →
  width `mod` ((num_heads `div` num_kv_heads + 2) * head_dim) ≠ 0 →
  0 < batch → 0 < seq_len →
  split_heads fused_qkv num_heads num_kv_heads head_dim = Raise shape_invalid.
Proof.
  intros Hkv Hshape Hw Hb Hs. unfold split_heads. rewrite Hshape.
  unfold floordiv. rewrite decide_False by lia. cbn [rbind].
  set (g := num_heads `div` num_kv_heads) in *.
  unfold view_infer. cbv zeta. rewrite Hshape.
  rewrite decide_False; [done|]. intros [Hk Hm]. apply Hw.
  simpl in Hk, Hm. rewrite !Nat.mul_1_r in *.
  set (G := (g + 2) * head_dim) in *.
  assert (G ≠ 0) as HG by nia.
  apply Nat.Div0.mod_divides in Hm as [c Hc].
  apply Nat.Div0.mod_divides. exists c.
  assert (batch * seq_len * width = batch * seq_len * (G * c)) as Heq by nia.
  apply Nat.mul_cancel_l in Heq; [done|nia].
Qed.
End split_heads_facts.

(** ** The cache grows at its end *)

Section cache_facts.
Import Torch GraphSite.Attention.
Context {elt : Type}.
Implicit Types (a b : tensor elt).

Lemma zip_app_pieces (sa sb : nat) (xs ys : list (list elt)) :
  Forall (λ c, length c = sa) xs → Forall (λ c, length c = sb) ys →
  length xs = length ys →
  Forall (λ c, length c = sa + sb) (zip_with app xs ys)
  ∧ (λ c, take sa (drop 0 c)) <$> zip_with app xs ys = xs
  ∧ (λ c, take sb (drop sa c)) <$> zip_with app xs ys = ys.
Proof.
  intros Hxs. revert ys. induction Hxs as [|x xs Hx _ IH]; intros ys Hys Hlen.
  { destruct ys; [|done]. by split_and!. }
  destruct ys as [|y ys]; [done|]. inversion Hys as [|?? Hy Hys']; subst.
  destruct (IH ys Hys') as (IH1 & IH2 & IH3); [by simplify_eq/=|].
  cbn [zip_with fmap list_fmap]. split_and!.
  - constructor; [|done]. rewrite length_app. lia.
  - fold (fmap (M:=list) (λ c : list elt, take (length x) (drop 0 c))).
    rewrite IH2, drop_0. by rewrite take_app_length.
  - fold (fmap (M:=list) (λ c : list elt, take (length y) (drop (length x) c))).
    rewrite IH3, drop_app_length. by rewrite take_ge.
Qed.

(** Cutting a concatenation where it was joined gives back the parts. *)
Lemma slice1_cat_dim1 a b n0 na nb rest :
  shape a = n0 :: na :: rest → shape b = n0 :: nb :: rest →
  well_formed a → well_formed b →
  ∃ c, cat_dim1 a b = Ok c
       ∧ shape c = n0 :: (na + nb) :: rest
       ∧ well_formed c
       ∧ slice1 0 na c = Ok a
       ∧ slice1 na (na + nb) c = Ok b.
Proof.
  intros Ha Hb Hwa Hwb. destruct a as [sa da], b as [sb db].
  unfold well_formed in *; simpl in *; subst sa sb.
  cbn [numel foldr] in Hwa, Hwb. fold (numel rest) in Hwa, Hwb.
  set (inner := numel rest) in *.
  unfold cat_dim1. cbn [shape data].
  rewrite decide_False by (intros [?|?]; done).
  rewrite !(decide_False (P:=_ = [0])) by done.
  rewrite decide_True by done. fold inner.
  set (xs := chunks n0 (na * inner) da). set (ys := chunks n0 (nb * inner) db).
  assert (Forall (λ c, length c = na * inner) xs) as Hxs.
  { apply Forall_length_chunks. lia. }
  assert (Forall (λ c, length c = nb * inner) ys) as Hys.
  { apply Forall_length_chunks. lia. }
  assert (length xs = length ys) as Hlen by (unfold xs, ys; by rewrite !length_chunks).
  destruct (zip_app_pieces _ _ xs ys Hxs Hys Hlen) as (Hzs & Hfst & Hsnd).
  assert (length (zip_with app xs ys) = n0) as Hn0.
  { rewrite length_zip_with, <-Hlen. unfold xs. rewrite length_chunks. lia. }
  assert (chunks n0 ((na + nb) * inner) (mjoin (zip_with app xs ys)) = zip_with app xs ys)
    as Hchunks.
  { rewrite <-Hn0 at 1. apply chunks_join.
    eapply Forall_impl; [exact Hzs|]. intros c Hc; simpl in *. lia. }
  eexists. split; [done|]. split; [done|]. split_and!.
  - cbn [shape data numel foldr]. fold (numel rest). fold inner.
    rewrite (length_join_uniform ((na + nb) * inner)), Hn0; [lia|].
    eapply Forall_impl; [exact Hzs|]. intros c Hc; simpl in *. lia.
  - unfold slice1. cbn [shape data]. cbv zeta. fold inner. rewrite Hchunks.
    replace (0 `min` (na + nb)) with 0 by lia.
    replace (na `min` (na + nb) - 0) with na by lia.
    rewrite Nat.mul_0_l, Hfst. unfold xs. by rewrite join_chunks by lia.
  - unfold slice1. cbn [shape data]. cbv zeta. fold inner. rewrite Hchunks.
    replace ((na + nb) `min` (na + nb) - na `min` (na + nb)) with nb by lia.
    replace (na `min` (na + nb)) with na by lia.
    rewrite Hsnd. unfold ys. by rewrite join_chunks by lia.
Qed.

(** X16: the cache handed back is the cache received with the new keys
    and values appended: its length is the old length plus the number of
    new positions, the positions cached before are unchanged, and the
    new ones follow them. *)
Theorem cache_is_append_only (past_key past_value key_layer value_layer : tensor elt)
    heads past_len query_len head_dim :
  shape past_key = [heads; past_len; head_dim] →
  shape past_value = [heads; past_len; head_dim] →
  shape key_layer = [heads; query_len; head_dim] →
  shape value_layer = [heads; query_len; head_dim] →
  well_formed past_key → well_formed past_value →
  well_formed key_layer → well_formed value_layer →
  ∃ key value,
    concat_past (Some (past_key, past_value)) key_layer value_layer true
      = Ok (key, value, Some (key, value))
    ∧ past_kv_length (Some (past_key, past_value)) = Ok past_len
    ∧ past_kv_length (Some (key, value)) = Ok (past_len + query_len)
    ∧ slice1 0 past_len key = Ok past_key
    ∧ slice1 0 past_len value = Ok past_value
    ∧ slice1 past_len (past_len + query_len) key = Ok key_layer
    ∧ slice1 past_len (past_len + query_len) value = Ok value_layer.
Proof.
  intros Hpk Hpv Hk Hv Hwpk Hwpv Hwk Hwv.
  destruct (slice1_cat_dim1 past_key key_layer _ _ _ _ Hpk Hk Hwpk Hwk)
    as (key & Hkey & Hkshape & _ & Hk1 & Hk2).
  destruct (slice1_cat_dim1 past_value value_layer _ _ _ _ Hpv Hv Hwpv Hwv)
    as (value & Hvalue & Hvshape & _ & Hv1 & Hv2).
  exists key, value. unfold concat_past, past_kv_length.
  rewrite Hkey, Hvalue, Hpk, Hkshape. cbn [rbind fst snd lookup list_lookup].
  by split_and!.
Qed.

End cache_facts.

(** ** The further properties on concrete data *)

Section further_examples.
Import Torch Falcon GraphSite Examples.

Lemma _expand_states_rows_witness :
  ∃ expanded,
    _expand_states small_config query1 = Ok expanded
    ∧ shape expanded = [1 * num_attention_heads small_config; 1; 2]
    ∧ ∀ r, r < 1 * num_attention_heads small_config →
           row expanded r = row query1 (r `div` num_key_value_groups small_config).
Proof.
  apply (_expand_states_rows small_config query1 1 1 2).
  - unfold consistent; simpl; lia.
  - reflexivity.
  - reflexivity.
Defined.

Lemma _collapse_states_rows_witness :
  ∃ collapsed,
    _collapse_states small_config expanded_state = Ok collapsed
    ∧ shape collapsed = [1 * num_kv_heads small_config; 1; 2]
    ∧ ∀ i, i < 1 * num_kv_heads small_config →
           row collapsed i = row expanded_state (i * num_key_value_groups small_config).
Proof.
  apply (_collapse_states_rows small_config expanded_state 1 1 2).
  - unfold consistent; simpl; lia.
  - reflexivity.
  - reflexivity.
Defined.

Lemma reorder_cache_roundtrip_witness :
  (falcon ←r _reorder_cache_from_bloom_to_falcon small_config (bloom_key, bloom_value);
   _reorder_cache_from_falcon_to_bloom small_config falcon)
  = Ok (bloom_key, bloom_value).
Proof.
  apply (reorder_cache_roundtrip small_config bloom_key bloom_value 1 1 2).
  - unfold consistent; simpl; lia.
  - reflexivity.
  - reflexivity.
  - reflexivity.
  - reflexivity.
Defined.

Lemma cos_sin_cache_grows_witness :
  Rotary.seq_len_cached
    (self (Rotary.cos_sin ones_table 3 0 rotary_prompt).2) = 8192%Z.
Proof.
  destruct (cos_sin_cache_grows ones_table 3 0 rotary_prompt
              (Rotary.cos_sin ones_table 3 0 rotary_prompt).1
              (Rotary.cos_sin ones_table 3 0 rotary_prompt).2)
    as (_ & _ & Hfirst & _).
  - apply surjective_pairing.
  - apply Hfirst. reflexivity.
Defined.

Lemma cos_sin_returns_equal_tables_witness :
  ∃ cos sin m',
    Rotary.cos_sin ones_table 1 2 rotary_tabled = (Ok (cos, sin), m')
    ∧ Rotary.cos_cached (self m') = Rotary.sin_cached (self m')
    ∧ cos ≠ sin
    ∧ ∃ v, heap m' !! cos = Some v ∧ heap m' !! sin = Some v.
Proof.
  eexists _, _, _. split; [vm_compute; reflexivity|].
  apply (cos_sin_returns_equal_tables ones_table 1 2 rotary_tabled).
  - reflexivity.
  - vm_compute. reflexivity.
Defined.

Lemma rotary_two_calls_witness :
  ∃ outs m1 m2,
    Rotary._optimized_apply_rotary zmul zadd zflip 0 1 2 3 rotary_two_steps = (Ok outs, m1)
    ∧ Rotary._optimized_apply_rotary zmul zadd zflip 4 5 6 7 m1 = (Ok outs, m2)
    ∧ holds (heap m1) outs [Tensor [2; 1; 2] [1; 0; 3; 0]%Z; Tensor [2; 1; 2] [5; 0; 7; 0]%Z]
    ∧ holds (heap m2) outs [Tensor [2; 1; 2] [9; 0; 7; 0]%Z; Tensor [2; 1; 2] [5; 0; 3; 0]%Z]
    ∧ holds (heap m2) [0; 1; 2; 3] [query2; key2; cos1; sin1].
Proof.
  destruct (rotary_two_calls zmul zadd zflip 0 1 2 3 4 5 6 7
              [query1; key1; cos1; sin1] [query2; key2; cos1; sin1]
              [Tensor [2; 1; 2] [1; 0; 3; 0]%Z; Tensor [2; 1; 2] [5; 0; 7; 0]%Z]
              [Tensor [2; 1; 2] [9; 0; 7; 0]%Z; Tensor [2; 1; 2] [5; 0; 3; 0]%Z]
              rotary_two_steps)
    as (outs & m1 & m2 & H1 & H2 & _ & _ & Ho1 & Ho2 & Hin).
  - reflexivity.
  - apply (storage_fresh_above _
             [query1; key1; cos1; sin1; query2; key2; cos1; sin1]).
  - concrete_NoDup.
  - concrete_holds.
  - concrete_holds.
  - repeat constructor.
  - vm_compute. reflexivity.
  - vm_compute. reflexivity.
  - exists outs, m1, m2. split_and!; assumption.
Defined.

Lemma qkv_batch_mismatch_raises_witness :
  Attention._optimized_apply_qkv zdouble zsplit 4 attention_bound
  = (Raise expand_invalid, attention_bound).
Proof.
  apply (qkv_batch_mismatch_raises zdouble zsplit 4 0 [1; 2; 3] query1 hidden3
           2 3 [1; 2] [1; 2] attention_bound).
  - split_and!; reflexivity.
  - vm_compute. reflexivity.
  - vm_compute. reflexivity.
  - reflexivity.
  - reflexivity.
  - reflexivity.
  - lia.
  - lia.
Defined.

Lemma accepted_tokens_match_authority_witness :
  ∃ s' r,
    Speculative.iteration id draft_fives (constant_authority 5) least_draw 3 prompt_state
      = Ok (true, s')
    ∧ Speculative.round id draft_fives (constant_authority 5) least_draw 3 prompt_state
      = Ok r
    ∧ 0 < Speculative.match_length r ≤ 3
    ∧ Speculative.generated_ids s'
      = prompt ++ take (Speculative.match_length r) (Speculative.new_tokens r).
Proof.
  destruct (accepted_tokens_match_authority id draft_fives (constant_authority 5)
              least_draw 3 prompt_state
              {| Speculative.generated_ids := [7; 8; 5]%Z; Speculative.draws := 2;
                 Speculative.calls :=
                   [{| Speculative.input_ids := [7; 8; 5; 1; 5]%Z;
                       Speculative.start_from_position := 1 |}] |})
    as (r & Hr & Hml & Hgen & _).
  - vm_compute. reflexivity.
  - eexists _, r. split; [vm_compute; reflexivity|]. split_and!; [exact Hr|apply Hml..|].
    exact Hgen.
Defined.

Lemma speculative_loop_bounds_witness :
  Speculative.while_loop id draft_fives (constant_authority 5) least_draw 10 4 3 2
    prompt_state ≠ Ok None
  ∧ ∀ s',
      Speculative.while_loop id draft_fives (constant_authority 5) least_draw 10 4 3 2
        prompt_state = Ok (Some s') →
      Speculative.generated_ids prompt_state `prefix_of` Speculative.generated_ids s'
      ∧ length (Speculative.generated_ids s')
        ≤ length (Speculative.generated_ids prompt_state) `max` (4 + 2 + 3 - 1).
Proof.
  apply (speculative_loop_bounds id draft_fives (constant_authority 5) least_draw
           10 4 3 2 prompt_state).
  simpl. lia.
Defined.

Lemma block_size_refusals_witness :
  (∃ e, BlockUtils.get_block_size Z hundredths_add hundredths_mul hundredths_round
          thousand_params auto_config "cache" (BlockUtils.DType BlockUtils.float16)
          (Some false) 1%Z = Raise e
        ∧ (e = BlockUtils.bad_location ∨ thousand_params auto_config = Raise e))
  ∧ BlockUtils.get_block_size Z hundredths_add hundredths_mul hundredths_round
      thousand_params auto_config "memory" BlockUtils.DNone (Some false) 1%Z
    = Raise AssertionError
  ∧ BlockUtils.get_block_size Z hundredths_add hundredths_mul hundredths_round
      thousand_params auto_config "memory" (BlockUtils.DType BlockUtils.float16) None 1%Z
    = Raise AssertionError.
Proof.
  apply (block_size_refusals hundredths_add hundredths_mul hundredths_round
           thousand_params auto_config "cache" (BlockUtils.DType BlockUtils.float16)
           (Some false) 1%Z).
  - discriminate.
  - discriminate.
Defined.


Lemma split_heads_layout_witness :
  ∃ query key value,
    split_heads fused_8 4 2 1 = Ok (query, key, value)
    ∧ shape query = [1; 1; 2 * 2; 1]
    ∧ shape key = shape query ∧ shape value = shape query
    ∧ ∀ r group,
        r < 1 * 1 * (2 * 2) →
        group = take ((2 + 2) * 1) (drop (r `div` 2 * ((2 + 2) * 1)) (data fused_8)) →
        vector query r = take 1 (drop (r `mod` 2 * 1) group)
        ∧ vector key r = take 1 (drop (2 * 1) group)
        ∧ vector value r = take 1 (drop ((2 + 1) * 1) group).
Proof.
  apply (split_heads_layout fused_8 4 2 1 1 1 2 2).
  - lia.
  - reflexivity.
  - lia.
  - lia.
  - lia.
  - reflexivity.
  - reflexivity.
Defined.

Lemma split_heads_ragged_projection_witness :
  split_heads fused_7 4 2 1 = Raise shape_invalid.
Proof.
  apply (split_heads_ragged_projection fused_7 4 2 1 1 1 7).
  - lia.
  - reflexivity.
  - simpl. lia.
  - lia.
  - lia.
Defined.

Lemma cache_is_append_only_witness :
  ∃ key value,
    Attention.concat_past (Some (key1, query1)) key2 query2 true
      = Ok (key, value, Some (key, value))
    ∧ Attention.past_kv_length (Some (key1, query1)) = Ok 1
    ∧ Attention.past_kv_length (Some (key, value)) = Ok (1 + 1)
    ∧ slice1 0 1 key = Ok key1
    ∧ slice1 0 1 value = Ok query1
    ∧ slice1 1 (1 + 1) key = Ok key2
    ∧ slice1 1 (1 + 1) value = Ok query2.
Proof.
  apply (cache_is_append_only key1 query1 key2 query2 2 1 1 2); reflexivity.
Defined.
End further_examples.

Example split_heads_on_fused_8 :
  Falcon.split_heads Examples.fused_8 4 2 1
  = Ok (Torch.Tensor [1; 1; 4; 1] [1; 2; 5; 6]%Z,
        Torch.Tensor [1; 1; 4; 1] [3; 3; 7; 7]%Z,
        Torch.Tensor [1; 1; 4; 1] [4; 4; 8; 8]%Z).
Proof. reflexivity. Qed.
